(** * fpdf2: the SVG converter ([fpdf/svg.py])

    A shallow embedding of the markup-to-geometry pipeline of [fpdf/svg.py]:
    the unit resolver, the transform compiler, the style mapper, the shape
    converters, the smooth-curve elements, the path interpreter, the document
    walker with its cross-reference table and the viewport scaler.

    Python objects become records and inductive types, dictionaries become
    [gmap]s, and an exception is a value of [exn] carried by the [res] monad.
    What [svg.py] imports (the [float] builtin, [math], [html.COLOR_DICT],
    the [drawing] module, [svg.path]) is an interface ([PyFloat], [Collab]);
    the code of [svg.py] is written once over these interfaces, and is run on
    concrete documents over binary64 floats ([Binary64]). *)

From Stdlib Require Import ZArith String Ascii List Lia.
From Stdlib Require Import Floats.PrimFloat Floats.SpecFloat Floats.FloatOps.
From stdpp Require Import gmap strings pretty.

Local Open Scope string_scope.
Local Open Scope list_scope.

(** ** Python exceptions and results *)

Inductive exn :=
| ValueError (msg : string)
| KeyError (key : string)
| AttributeError (msg : string)
| IndexError (msg : string)
| ZeroDivisionError (msg : string)
| NotImplementedError (msg : string)
| EnvironmentError (msg : string).

Inductive res (A : Type) :=
| Ok (a : A)
| Raise (e : exn).
Arguments Ok {A} a.
Arguments Raise {A} e.

Definition bind {A B} (m : res A) (k : A -> res B) : res B :=
  match m with
  | Ok a => k a
  | Raise e => Raise e
  end.

#[export] Instance res_ret : MRet res := fun A a => Ok a.
#[export] Instance res_bind : MBind res := fun A B k m => bind m k.
#[export] Instance res_fmap : FMap res :=
  fun A B f m => match m with Ok a => Ok (f a) | Raise e => Raise e end.

Definition is_ok {A} (m : res A) : bool :=
  match m with Ok _ => true | Raise _ => false end.

Fixpoint mapM {A B} (f : A -> res B) (l : list A) : res (list B) :=
  match l with
  | [] => Ok []
  | a :: l' => b ← f a; bs ← mapM f l'; Ok (b :: bs)
  end.

(** [d[key]]: a missing key raises [KeyError]. *)
Definition getitem {V} (d : gmap string V) (key : string) : res V :=
  match d !! key with
  | Some v => Ok v
  | None => Raise (KeyError key)
  end.

(** ** Strings *)

Definition nat_in (lo hi : nat) (c : ascii) : bool :=
  (lo <=? nat_of_ascii c)%nat && (nat_of_ascii c <=? hi)%nat.

(** A [str] is kept as the string of its code points, each below 256.

    [str.isspace], [str.strip] and the pattern [\s]: the blanks below 256
    are the code points 9 to 13, 28 to 32, 133 (U+0085, next line) and 160
    (U+00A0, no-break space). *)
Definition is_space (c : ascii) : bool :=
  nat_in 9 13 c || nat_in 28 32 c || nat_in 133 133 c || nat_in 160 160 c.
(** The pattern [\d]: the decimal digits below 256 are 0 to 9. *)
Definition is_digit (c : ascii) : bool := nat_in 48 57 c.
(** The pattern [[a-zA-Z]]. *)
Definition is_alpha (c : ascii) : bool := nat_in 65 90 c || nat_in 97 122 c.
Definition is_sign (c : ascii) : bool :=
  Ascii.eqb c "+" || Ascii.eqb c "-".
(** The class [[\d\.]]. *)
Definition is_numchar (c : ascii) : bool :=
  is_digit c || Ascii.eqb c ".".

Fixpoint skip_space (s : string) : string :=
  match s with
  | String c s' => if is_space c then skip_space s' else s
  | EmptyString => s
  end.

(** The longest prefix of [s] whose characters satisfy [p], and the rest. *)
Fixpoint span (p : ascii -> bool) (s : string) : string * string :=
  match s with
  | String c s' =>
      if p c then let '(a, b) := span p s' in (String c a, b)
      else (EmptyString, s)
  | EmptyString => (EmptyString, EmptyString)
  end.

Fixpoint rev_string (acc s : string) : string :=
  match s with
  | String c s' => rev_string (String c acc) s'
  | EmptyString => acc
  end.

(** [s.strip()] *)
Definition strip (s : string) : string :=
  rev_string EmptyString (skip_space (rev_string EmptyString (skip_space s))).

(** [s.split(sep)] for a one-character separator. *)
Fixpoint split_on (sep : ascii) (s : string) : list string :=
  match s with
  | EmptyString => [EmptyString]
  | String c s' =>
      if Ascii.eqb c sep then EmptyString :: split_on sep s'
      else match split_on sep s' with
           | piece :: rest => String c piece :: rest
           | [] => [String c EmptyString]
           end
  end.

Definition startswith (p s : string) : bool := String.prefix p s.

Fixpoint endswith_char (c : ascii) (s : string) : bool :=
  match s with
  | EmptyString => false
  | String a EmptyString => Ascii.eqb a c
  | String _ s' => endswith_char c s'
  end.

(** [s[:-1]] *)
Fixpoint drop_last (s : string) : string :=
  match s with
  | EmptyString => EmptyString
  | String _ EmptyString => EmptyString
  | String a s' => String a (drop_last s')
  end.

Definition str_in (s : string) (l : list string) : bool :=
  existsb (String.eqb s) l.

(** The double quote, as a string. *)
Definition dquote : string := String (ascii_of_nat 34) EmptyString.

(** The [repr] of a [str] inside a message (escapes are not modelled). *)
Definition repr_str (s : string) : string := "'" +:+ s +:+ "'".

(** *** The regular expressions of the module *)

(** [NUMBER_SPLIT.split(s)], for
    [NUMBER_SPLIT = (?:\s+,\s+|\s+,|,\s+|\s+|,)]: a separator is a run of
    blanks with at most one comma in it.  [tok] is the piece being read
    (reversed); [sep] says whether a separator is being read and whether
    its comma has been seen. *)
Fixpoint number_split_go (s : string) (tok : string) (sep : option bool)
  : list string :=
  match s with
  | EmptyString =>
      match sep with
      | None => [rev_string EmptyString tok]
      | Some _ => [EmptyString]
      end
  | String c s' =>
      match sep with
      | None =>
          if is_space c then
            rev_string EmptyString tok :: number_split_go s' EmptyString (Some false)
          else if Ascii.eqb c "," then
            rev_string EmptyString tok :: number_split_go s' EmptyString (Some true)
          else number_split_go s' (String c tok) None
      | Some comma =>
          if is_space c then number_split_go s' EmptyString (Some comma)
          else if Ascii.eqb c "," then
            if comma then EmptyString :: number_split_go s' EmptyString (Some true)
            else number_split_go s' EmptyString (Some true)
          else number_split_go s' (String c EmptyString) None
      end
  end.

Definition NUMBER_SPLIT_split (s : string) : list string :=
  number_split_go s EmptyString None.

(** [unit_splitter.match(s)]: the pattern reads optional blanks, the group
    [value] (an optional sign and one or more digits or dots), optional
    blanks, and the group [unit] (a percent sign, or a possibly empty run of
    letters).  The result is the groups [(value, unit)], or [None] when the
    pattern does not match at the start of [s]. *)
Definition unit_splitter_match (s : string) : option (string * string) :=
  let s1 := skip_space s in
  let '(sign, s2) :=
    match s1 with
    | String c s' => if is_sign c then (String c EmptyString, s') else (EmptyString, s1)
    | EmptyString => (EmptyString, s1)
    end in
  let '(digits, s3) := span is_numchar s2 in
  match digits with
  | EmptyString => None
  | _ =>
      let s4 := skip_space s3 in
      let unit :=
        match s4 with
        | String "%" _ => "%"
        | _ => fst (span is_alpha s4)
        end in
      Some (sign +:+ digits, unit)
  end.

(** [TRANSFORM_GETTER.findall(s)].  The pattern is one of the eleven
    function names, an opening parenthesis, the argument text and a closing
    parenthesis; the argument text is one or more numbers (an optional sign
    and digits or dots), each optionally followed at once by a comma, with
    blanks allowed before and after the numbers. *)
Definition TRANSFORM_NAMES : list string :=
  ["matrix"; "rotate"; "scale"; "scaleX"; "scaleY"; "skew"; "skewX"; "skewY";
   "translate"; "translateX"; "translateY"].

Fixpoint drop_prefix (p s : string) : option string :=
  match p, s with
  | EmptyString, _ => Some s
  | String a p', String b s' => if Ascii.eqb a b then drop_prefix p' s' else None
  | String _ _, EmptyString => None
  end.

(** The states of the automaton for the argument text: nothing read yet,
    after a sign, inside a number, after a complete number. *)
Inductive args_state := ArgsStart | ArgsSign | ArgsNum | ArgsSep.

Definition args_step (q : args_state) (c : ascii) : option args_state :=
  match q with
  | ArgsStart | ArgsSep =>
      if is_space c then Some q
      else if is_sign c then Some ArgsSign
      else if is_numchar c then Some ArgsNum
      else None
  | ArgsSign => if is_numchar c then Some ArgsNum else None
  | ArgsNum =>
      if is_numchar c then Some ArgsNum
      else if is_sign c then Some ArgsSign
      else if Ascii.eqb c "," then Some ArgsSep
      else if is_space c then Some ArgsSep
      else None
  end.

(** Reads the argument text up to the closing parenthesis: the text and
    what follows the parenthesis. *)
Fixpoint args_match (q : args_state) (s : string) : option (string * string) :=
  match s with
  | EmptyString => None
  | String c s' =>
      if Ascii.eqb c ")" then
        match q with
        | ArgsNum | ArgsSep => Some (EmptyString, s')
        | _ => None
        end
      else
        match args_step q c with
        | Some q' =>
            match args_match q' s' with
            | Some (a, rest) => Some (String c a, rest)
            | None => None
            end
        | None => None
        end
  end.

(** One match of the pattern at the start of [s]: the two groups and the
    number of characters matched. *)
Definition transform_match (s : string) : option (string * string * nat) :=
  let try_name (n : string) :=
    match drop_prefix n s with
    | Some (String "(" rest) =>
        match args_match ArgsStart rest with
        | Some (a, _) => Some (n, a, String.length n + String.length a + 2)
        | None => None
        end
    | _ => None
    end in
  fold_right (fun n r => match try_name n with Some m => Some m | None => r end)
    None TRANSFORM_NAMES.

(** The scan of [findall]: [skip] characters of the last match are still to
    be passed. *)
Fixpoint findall_go (s : string) (skip : nat) : list (string * string) :=
  match s with
  | EmptyString => []
  | String _ s' =>
      match skip with
      | S k => findall_go s' k
      | O =>
          match transform_match s with
          | Some (n, a, len) => (n, a) :: findall_go s' (len - 1)
          | None => findall_go s' 0
          end
      end
  end.

Definition TRANSFORM_GETTER_findall (s : string) : list (string * string) :=
  findall_go s 0.

(** ** What the module imports *)

(** Python's [float] type with the builtins and the [math] functions the
    module uses.  [dec m e] is the numeric literal [m * 10^e]; [float_str]
    is [float(s)] on a [str] ([None]: it raises [ValueError]); [fdiv] is the
    quotient by a divisor that is not zero ([truediv] below raises on
    zero); [fneg] is the unary minus. *)
Class PyFloat (num : Type) := {
  dec : Z -> Z -> num;
  float_str : string -> option num;
  fadd : num -> num -> num;
  fsub : num -> num -> num;
  fmul : num -> num -> num;
  fdiv : num -> num -> num;
  fneg : num -> num;
  feqb : num -> num -> bool;
  fltb : num -> num -> bool;
  math_tan : num -> num;
  math_cos : num -> num;
  math_sin : num -> num;
  math_tau : num;
}.

Module PyNotations.
  Declare Scope num_scope.
  Delimit Scope num_scope with num.
  Infix "+" := fadd : num_scope.
  Infix "-" := fsub : num_scope.
  Infix "*" := fmul : num_scope.
  Infix "==" := feqb (at level 70, no associativity) : num_scope.
  Infix "<" := fltb : num_scope.
End PyNotations.
Import PyNotations.

(** A point of the plane ([drawing.Point]) and a complex number of
    [svg.path]: two floats. *)
Record Point (num : Type) := mkPoint { pt_x : num; pt_y : num }.
Arguments mkPoint {num} pt_x pt_y.
Arguments pt_x {num} p.
Arguments pt_y {num} p.

(** The commands [svg.path.parse_path] yields, with the attributes the
    converter reads ([end], [relative], [horizontal], [vertical], [smooth],
    the control points and the arc parameters); [OtherCmd] is a command of
    any other class. *)
Inductive SvgCmd (num : Type) :=
| CmdMove (end_ : Point num) (relative : bool)
| CmdLine (end_ : Point num) (relative horizontal vertical : bool)
| CmdArc (radius : Point num) (rotation : num) (arc sweep : bool)
    (end_ : Point num) (relative : bool)
| CmdCubicBezier (control1 control2 end_ : Point num) (relative smooth : bool)
| CmdQuadraticBezier (control end_ : Point num) (relative smooth : bool)
| CmdClose (end_ : Point num)
| OtherCmd (end_ : Point num).
Arguments CmdMove {num}.
Arguments CmdLine {num}.
Arguments CmdArc {num}.
Arguments CmdCubicBezier {num}.
Arguments CmdQuadraticBezier {num}.
Arguments CmdClose {num}.
Arguments OtherCmd {num}.

(** The collaborators of the module: [drawing.Transform] with its
    constructors and its composition [@], the colour table
    [html.COLOR_DICT] with [drawing.color_from_hex_string], and
    [svg.path.parse_path].  None of them is part of [svg.py].  The name
    [parse_path] is [None] when [svg.path] could not be imported. *)
Class Collab (num : Type) := {
  Transform : Type;
  Transform_new : num -> num -> num -> num -> num -> num -> Transform;
  Transform_identity : Transform;
  matmul : Transform -> Transform -> Transform;
  Transform_translation : num -> num -> Transform;
  Transform_scaling : num -> num -> Transform;
  Transform_rotation : num -> Transform;
  Transform_about : Transform -> num -> num -> Transform;
  Transform_shearing : num -> num -> Transform;
  Color : Type;
  COLOR_DICT : gmap string string;
  color_from_hex_string : string -> res Color;
  parse_path : option (string -> res (list (SvgCmd num)));
}.

Infix "@" := matmul (at level 40, left associativity).

(** ** The module [svg.py] *)

Section Svg.
Context {num : Type} `{!PyFloat num} `{!Collab num}.

Local Open Scope num_scope.

Definition zero : num := dec 0 0.
Definition one : num := dec 1 0.

(** [float(s)] *)
Definition float (s : string) : res num :=
  match float_str s with
  | Some v => Ok v
  | None => Raise (ValueError ("could not convert string to float: " +:+ repr_str s))
  end.

(** [a / b] *)
Definition truediv (a b : num) : res num :=
  if b == zero then Raise (ZeroDivisionError "float division by zero")
  else Ok (fdiv a b).

(** The truth value of a number. *)
Definition truthy (a : num) : bool := negb (a == zero).

(** [min(a, b)] *)
Definition py_min (a b : num) : num := if b < a then b else a.

(** [float(attrib.get(key, 0))] *)
Definition float_get (attrib : gmap string string) (key : string) : res num :=
  match attrib !! key with
  | Some s => float s
  | None => Ok zero
  end.

(** *** Namespaces *)

Definition _HANDY_NAMESPACES : gmap string string :=
  <["svg" := "http://www.w3.org/2000/svg"]>
  (<["xlink" := "http://www.w3.org/1999/xlink"]> ∅).

Definition xmlns (space name : string) : string :=
  match _HANDY_NAMESPACES !! space with
  | Some ns => "{" +:+ ns +:+ "}" +:+ name
  | None => name
  end.

(** The keys of [xmlns_lookup(space, *names)] in insertion order, each with
    its value. *)
Definition xmlns_lookup (space : string) (names : list string)
  : list (string * string) :=
  flat_map (fun name => [(xmlns space name, name); (name, name)]) names.

(** [key in d] and [d[key]] for such a lookup table. *)
Definition lookup_in (key : string) (d : list (string * string)) : bool :=
  existsb (fun kv => String.eqb key (fst kv)) d.

Definition lookup_get (key : string) (d : list (string * string)) : option string :=
  snd <$> find (fun kv => String.eqb key (fst kv)) (rev d).

Definition shape_tags : list (string * string) :=
  xmlns_lookup "svg" ["rect"; "circle"; "ellipse"; "line"; "polyline"; "polygon"].

(** *** Units *)

Definition relative_length_units : list string :=
  ["%"; "em"; "ex"; "ch"; "rem"; "vw"; "vh"; "vmin"; "vmax";
   "cap"; "ic"; "lh"; "rlh"; "vi"; "vb"].

Definition absolute_length_units : gmap string num :=
  <["in" := dec 72 0]>
  (<["cm" := fdiv (dec 72 0) (dec 254 (-2))]>
  (<["mm" := fdiv (dec 72 0) (dec 254 (-1))]>
  (<["pt" := dec 1 0]>
  (<["pc" := dec 12 0]>
  (<["px" := dec 75 (-2)]>
  (<["Q" := fdiv (dec 72 0) (dec 1016 (-1))]> ∅)))))).

Definition angle_units : gmap string num :=
  <["deg" := fdiv math_tau (dec 360 0)]>
  (<["grad" := fdiv math_tau (dec 400 0)]>
  (<["rad" := dec 1 0]>
  (<["turn" := math_tau]> ∅))).

(** [unit_splitter.match(s).groups()]: without a match the result of
    [match] is [None], and [.groups()] raises. *)
Definition unit_groups (s : string) : res (string * string) :=
  match unit_splitter_match s with
  | Some g => Ok g
  | None => Raise (AttributeError "'NoneType' object has no attribute 'groups'")
  end.

Definition resolve_length (length_str : string) (default_unit : string) : res num :=
  '(value, unit) ← unit_groups length_str;
  let unit := if String.eqb unit EmptyString then default_unit else unit in
  v ← float value;
  match absolute_length_units !! unit with
  | Some k => Ok (v * k)
  | None =>
      if str_in unit relative_length_units then
        Raise (ValueError
          (length_str +:+ " uses unsupported relative length " +:+ unit))
      else
        Raise (ValueError (length_str +:+ " contains unrecognized unit " +:+ unit))
  end.

Definition resolve_angle (angle_str : string) (default_unit : string) : res num :=
  '(value, unit) ← unit_groups angle_str;
  let unit := if String.eqb unit EmptyString then default_unit else unit in
  v ← float value;
  match angle_units !! unit with
  | Some k => Ok (v * k)
  | None =>
      Raise (ValueError ("angle " +:+ angle_str +:+ " has unknown unit " +:+ unit))
  end.

(** *** The transform compiler *)

(** Unpacking [n] values into [expected] names. *)
Definition unpack_error {A} (expected n : nat) : res A :=
  Raise (ValueError
    (if (n <? expected)%nat then
       "not enough values to unpack (expected " +:+ pretty expected +:+ ", got "
         +:+ pretty n +:+ ")"
     else "too many values to unpack (expected " +:+ pretty expected +:+ ")")).

(** The body of the loop of [convert_transforms] for one pair
    [(tf_type, args)] of [parsed]: the new value of [transform]. *)
Definition convert_transform_step (tfstr : string) (transform : Transform)
  (tf : string * string) : res Transform :=
  let '(tf_type, args) := tf in
  if String.eqb tf_type "matrix" then
    ns ← mapM float (NUMBER_SPLIT_split args);
    match ns with
    | [a; b; c; d; e; f] => Ok (Transform_new a b c d e f @ transform)
    | _ => unpack_error 6 (length ns)
    end
  else if String.eqb tf_type "rotate" then
    match NUMBER_SPLIT_split args with
    | [] => unpack_error 1 0
    | theta :: about =>
        theta ← resolve_angle theta "deg";
        let rotation := Transform_rotation theta in
        rotation ←
          match about with
          | [] => Ok rotation
          | [ax; ay] =>
              ax ← float ax; ay ← float ay; Ok (Transform_about rotation ax ay)
          | _ =>
              Raise (ValueError
                ("rotation transform " +:+ tf_type +:+ "(" +:+ args +:+ ") is malformed"))
          end;
        Ok (rotation @ transform)
    end
  else if String.eqb tf_type "scale" then
    match NUMBER_SPLIT_split args with
    | [a0; a1] =>
        sx ← float a0; sy ← float a1; Ok (Transform_scaling sx sy @ transform)
    | [a0] => sx ← float a0; Ok (Transform_scaling sx sx @ transform)
    | _ => Raise (ValueError ("bad scale transform " +:+ tfstr))
    end
  else if String.eqb tf_type "scaleX" then
    sx ← float args; Ok (Transform_scaling sx one @ transform)
  else if String.eqb tf_type "scaleY" then
    sy ← float args; Ok (Transform_scaling one sy @ transform)
  else if String.eqb tf_type "skew" then
    match NUMBER_SPLIT_split args with
    | [a0; a1] =>
        sx ← resolve_angle a0 "deg"; sy ← resolve_angle a1 "deg";
        Ok (Transform_shearing (math_tan sx) (math_tan sy) @ transform)
    | [a0] =>
        sx ← resolve_angle a0 "deg";
        Ok (Transform_shearing (math_tan sx) (math_tan zero) @ transform)
    | _ => Raise (ValueError ("bad skew transform " +:+ tfstr))
    end
  else if String.eqb tf_type "skewX" then
    sx ← resolve_angle args "deg";
    Ok (Transform_shearing (math_tan sx) zero @ transform)
  else if String.eqb tf_type "skewY" then
    sy ← resolve_angle args "deg";
    Ok (Transform_shearing zero (math_tan sy) @ transform)
  else if String.eqb tf_type "translate" then
    match NUMBER_SPLIT_split args with
    | [a0; a1] =>
        x ← resolve_length a0 "pt"; y ← resolve_length a1 "pt";
        Ok (Transform_translation x y @ transform)
    | [a0] => x ← resolve_length a0 "pt"; Ok (Transform_translation x zero @ transform)
    | _ => Raise (ValueError ("bad translation transform " +:+ tfstr))
    end
  else if String.eqb tf_type "translateX" then
    x ← resolve_length args "pt"; Ok (Transform_translation x zero @ transform)
  else if String.eqb tf_type "translateY" then
    y ← resolve_length args "pt"; Ok (Transform_translation zero y @ transform)
  else Ok transform.

(** The loop [for tf_type, args in parsed] over the current [transform]. *)
Fixpoint convert_transforms_loop (tfstr : string) (parsed : list (string * string))
  (transform : Transform) : res Transform :=
  match parsed with
  | [] => Ok transform
  | tf :: parsed' =>
      transform ← convert_transform_step tfstr transform tf;
      convert_transforms_loop tfstr parsed' transform
  end.

Definition convert_transforms (tfstr : string) : res Transform :=
  let parsed := TRANSFORM_GETTER_findall tfstr in
  convert_transforms_loop tfstr parsed Transform_identity.

(** *** The drawing model the module populates *)

(** A value assigned to a field of [GraphicsStyle]: the [INHERIT] marker,
    [None], or a concrete value. *)
Inductive StyleValue :=
| INHERIT
| PyNone
| VBool (b : bool)
| VStr (s : string)
| VNum (x : num)
| VList (l : list num)
| VColor (c : Color).

(** Modelled from the spec: [drawing.GraphicsStyle] is not among the
    sources.  It is the record of the style fields assigned so
    far, keyed by property name; a field never assigned is absent. *)
Abbreviation GraphicsStyle := (gmap string StyleValue).

(** The elements of a path: the segments [drawing.PaintedPath] appends, and
    the four smooth-curve elements this module defines. *)
Inductive PathElement :=
| Move (pt : Point num)
| RelativeMove (pt : Point num)
| Line (pt : Point num)
| RelativeLine (pt : Point num)
| HorizontalLine (x : num)
| RelativeHorizontalLine (dx : num)
| VerticalLine (y : num)
| RelativeVerticalLine (dy : num)
| BezierCurve (c1 c2 end_ : Point num)
| RelativeBezierCurve (c1 c2 end_ : Point num)
| QuadraticBezierCurve (ctrl end_ : Point num)
| RelativeQuadraticBezierCurve (ctrl end_ : Point num)
| Arc (radii : Point num) (rotation : num) (large_arc positive_sweep : bool)
    (end_ : Point num)
| RelativeArc (radii : Point num) (rotation : num) (large_arc positive_sweep : bool)
    (end_ : Point num)
| Close
| Rectangle (x y width height rx ry : num)
| Circle (cx cy r : num)
| Ellipse (cx cy rx ry : num)
| SVGSmoothCubicCurve (c2 end_ : Point num)
| SVGRelativeSmoothCubicCurve (c2 end_ : Point num)
| SVGSmoothQuadraticCurve (end_ : Point num)
| SVGRelativeSmoothQuadraticCurve (end_ : Point num).

(** Modelled from the spec: [drawing.PaintedPath] is not among the sources.
    A path is an ordered list of elements with an attached style and an
    attached transform ([None] until one is assigned); each of its segment
    operations ([move_to], [line_to], [rectangle], [ellipse],
    [add_path_element], ...) appends one element. *)
Record PaintedPath := mkPaintedPath {
  path_style : GraphicsStyle;
  path_transform : option Transform;
  path_items : list PathElement;
}.

Definition PaintedPath_new : PaintedPath :=
  {| path_style := ∅; path_transform := None; path_items := [] |}.

Definition add_path_element (path : PaintedPath) (e : PathElement) : PaintedPath :=
  {| path_style := path_style path;
     path_transform := path_transform path;
     path_items := path_items path ++ [e] |}.

(** Modelled from the spec: [drawing.GraphicsContext] is not among the
    sources.  A group is an ordered list of child paths and groups, with its
    own style and its own transform; [add_item] appends a child. *)
Inductive Drawable :=
| DPath (p : PaintedPath)
| DGroup (g : GraphicsContext)
with GraphicsContext :=
| mkGraphicsContext (style : GraphicsStyle) (transform : option Transform)
    (items : list Drawable).

Definition gc_style (g : GraphicsContext) : GraphicsStyle :=
  let 'mkGraphicsContext s _ _ := g in s.
Definition gc_transform (g : GraphicsContext) : option Transform :=
  let 'mkGraphicsContext _ t _ := g in t.
Definition gc_items (g : GraphicsContext) : list Drawable :=
  let 'mkGraphicsContext _ _ i := g in i.

Definition GraphicsContext_new : GraphicsContext := mkGraphicsContext ∅ None [].

Definition add_item (g : GraphicsContext) (item : Drawable) : GraphicsContext :=
  mkGraphicsContext (gc_style g) (gc_transform g) (gc_items g ++ [item]).

Definition set_style (g : GraphicsContext) (attr : string) (v : StyleValue)
  : GraphicsContext :=
  mkGraphicsContext (<[attr := v]> (gc_style g)) (gc_transform g) (gc_items g).

Definition set_transform (g : GraphicsContext) (t : Transform) : GraphicsContext :=
  mkGraphicsContext (gc_style g) (Some t) (gc_items g).

(** *** The style mapper *)

Definition svgcolor (colorstr : string) : res Color :=
  let colorstr :=
    match COLOR_DICT !! colorstr with
    | Some c => c
    | None => colorstr
    end in
  if startswith "#" colorstr then color_from_hex_string colorstr
  else Raise (ValueError ("unsupported color specification " +:+ colorstr)).

Definition convert_stroke_width (incoming : string) : res StyleValue :=
  val ← float incoming;
  if val < zero then
    Raise (ValueError ("stroke width " +:+ incoming +:+ " cannot be negative"))
  else if val == zero then Ok PyNone
  else Ok (VNum val).

Definition convert_miterlimit (incoming : string) : res StyleValue :=
  val ← float incoming;
  if val < one then
    Raise (ValueError ("miter limit " +:+ incoming +:+ " cannot be less than 1"))
  else Ok (VNum val).

Definition clamp_float (min_val max_val : num) (value : string) : res StyleValue :=
  val ← float value;
  if val < min_val then Ok (VNum min_val)
  else if max_val < val then Ok (VNum max_val)
  else Ok (VNum val).

Definition inheritable (value : string) (converter : string -> res StyleValue)
  : res StyleValue :=
  if String.eqb value "inherit" then Ok INHERIT
  else converter value.

Definition optional (value : string) (converter : string -> res StyleValue)
  : res StyleValue :=
  if String.eqb value "none" then Ok PyNone
  else inheritable value converter.

(** The default converter of [inheritable] and [optional]: the identity. *)
Definition noop (value : string) : res StyleValue := Ok (VStr value).

(** [svg_attr_map], in the order of its items: the markup attribute, and the
    function giving the style field and its value. *)
Definition svg_attr_map : list (string * (string -> res (string * StyleValue))) :=
  [ ("fill", fun colorstr =>
       v ← optional colorstr (fun s => c ← svgcolor s; Ok (VColor c));
       Ok ("fill_color", v));
    ("fill-rule", fun fillrulestr =>
       v ← inheritable fillrulestr noop; Ok ("intersection_rule", v));
    ("fill-opacity", fun filopstr =>
       v ← inheritable filopstr (clamp_float zero one); Ok ("fill_opacity", v));
    ("stroke", fun colorstr =>
       v ← optional colorstr (fun s => c ← svgcolor s; Ok (VColor c));
       Ok ("stroke_color", v));
    ("stroke-width", fun valuestr =>
       v ← inheritable valuestr convert_stroke_width; Ok ("stroke_width", v));
    ("stroke-dasharray", fun dasharray =>
       v ← optional dasharray
             (fun da => l ← mapM float (NUMBER_SPLIT_split da); Ok (VList l));
       Ok ("stroke_dash_pattern", v));
    ("stroke-dashoffset", fun dashoff =>
       v ← inheritable dashoff (fun s => x ← float s; Ok (VNum x));
       Ok ("stroke_dash_phase", v));
    ("stroke-linecap", fun capstr =>
       v ← inheritable capstr noop; Ok ("stroke_cap_style", v));
    ("stroke-linejoin", fun joinstr =>
       v ← inheritable joinstr noop; Ok ("stroke_join_style", v));
    ("stroke-miterlimit", fun limstr =>
       v ← inheritable limstr convert_miterlimit; Ok ("stroke_miter_limit", v));
    ("stroke-opacity", fun stropstr =>
       v ← inheritable stropstr (clamp_float zero one); Ok ("stroke_opacity", v)) ].

(** The loop of [parse_style] over the pieces of [style.split(";")]: the
    attribute map after the assignments. *)
Fixpoint parse_style_loop (elements : list string) (attrib : gmap string string)
  : gmap string string :=
  match elements with
  | [] => attrib
  | element :: rest =>
      if String.eqb element EmptyString then parse_style_loop rest attrib
      else
        match split_on ":" element with
        | [attr; value] =>
            if negb (String.eqb attr EmptyString) && negb (String.eqb value EmptyString)
            then parse_style_loop rest (<[strip attr := strip value]> attrib)
            else parse_style_loop rest attrib
        | _ => parse_style_loop rest attrib
        end
  end.

(** [parse_style(svg_element)]: the attribute map of the element after the
    call. *)
Definition parse_style (attrib : gmap string string) : gmap string string :=
  match attrib !! "style" with
  | None => attrib
  | Some style => parse_style_loop (split_on ";" style) attrib
  end.

(** The loop of [apply_styles] over [svg_attr_map.items()]; a [KeyError]
    raised inside the [try] (by the lookup or by the converter) is passed
    over. *)
Fixpoint apply_styles_loop
  (m : list (string * (string -> res (string * StyleValue))))
  (attrib : gmap string string) (style : GraphicsStyle) : res GraphicsStyle :=
  match m with
  | [] => Ok style
  | (svg_attr, converter) :: m' =>
      match attrib !! svg_attr with
      | None => apply_styles_loop m' attrib style
      | Some s =>
          match converter s with
          | Ok (attr, value) => apply_styles_loop m' attrib (<[attr := value]> style)
          | Raise (KeyError _) => apply_styles_loop m' attrib style
          | Raise e => Raise e
          end
      end
  end.

(** [apply_styles(stylable, svg_element)], on the style and the transform of
    [stylable] and the attribute map of [svg_element]: their values after
    the call. *)
Definition apply_styles (style : GraphicsStyle) (transform : option Transform)
  (attrib : gmap string string)
  : res (GraphicsStyle * option Transform * gmap string string) :=
  let attrib := parse_style attrib in
  let style := <["auto_close" := VBool false]> style in
  style ← apply_styles_loop svg_attr_map attrib style;
  style ←
    match attrib !! "opacity" with
    | None => Ok style
    | Some s =>
        opacity ← float s;
        Ok (<["stroke_opacity" := VNum opacity]> (<["fill_opacity" := VNum opacity]> style))
    end;
  transform ←
    match attrib !! "transform" with
    | None => Ok transform
    | Some tfstr => t ← convert_transforms tfstr; Ok (Some t)
    end;
  Ok (style, transform, attrib).

(** *** The markup tree *)

(** An element of the parsed document: its tag, its attribute map and its
    children in document order. *)
Inductive Element :=
| mkElement (tag : string) (attrib : gmap string string) (children : list Element).

Definition tag (e : Element) : string := let 'mkElement t _ _ := e in t.
Definition attrib (e : Element) : gmap string string := let 'mkElement _ a _ := e in a.
Definition children (e : Element) : list Element := let 'mkElement _ _ c := e in c.

(** The text of an element inside a message (its address is left out). *)
Definition repr_Element (e : Element) : string :=
  "<Element " +:+ repr_str (tag e) +:+ ">".

(** *** The smooth-curve elements *)

(** Modelled from the spec: [drawing.Point] is not among the sources; the
    arithmetic of points is componentwise. *)
Definition pt_add (p q : Point num) : Point num :=
  mkPoint (pt_x p + pt_x q) (pt_y p + pt_y q).
Definition pt_sub (p q : Point num) : Point num :=
  mkPoint (pt_x p - pt_x q) (pt_y p - pt_y q).
Definition pt_scale (k : num) (p : Point num) : Point num :=
  mkPoint (k * pt_x p) (k * pt_y p).

(** The element a renderer receives as [last_item]: an instance of
    [BezierCurve], an instance of [QuadraticBezierCurve], or an object of
    another class, of which only the attribute [end_point] is read ([None]:
    the object has no such attribute). *)
Inductive LastItem :=
| LastBezierCurve (c1 c2 end_ : Point num)
| LastQuadraticBezierCurve (ctrl end_ : Point num)
| LastOther (end_point : option (Point num)).

(** [last_item.end_point].  Modelled from the spec: the property
    [end_point] of the two curves of [drawing.py] is their endpoint (the
    current point after the segment).  Reading the attribute of an object
    that has none raises [AttributeError]; the message of Python names the
    class of the object first, which is not kept here. *)
Definition end_point (last_item : LastItem) : res (Point num) :=
  match last_item with
  | LastBezierCurve _ _ e => Ok e
  | LastQuadraticBezierCurve _ e => Ok e
  | LastOther (Some e) => Ok e
  | LastOther None => Raise (AttributeError "object has no attribute 'end_point'")
  end.

(** [SVGSmoothCubicCurve(c2, end).render(..., last_item, ...)]: the
    [BezierCurve] the method builds and renders. *)
Definition SVGSmoothCubicCurve_render (c2 end_ : Point num) (last_item : LastItem)
  : res LastItem :=
  c1 ← match last_item with
       | LastBezierCurve _ last_c2 last_end =>
           Ok (pt_sub (pt_scale (dec 2 0) last_end) last_c2)
       | _ => end_point last_item
       end;
  Ok (LastBezierCurve c1 c2 end_).

Definition SVGRelativeSmoothCubicCurve_render (c2 end_ : Point num)
  (last_item : LastItem) : res LastItem :=
  last_point ← end_point last_item;
  let c1 :=
    match last_item with
    | LastBezierCurve _ last_c2 last_end => pt_sub (pt_scale (dec 2 0) last_end) last_c2
    | _ => last_point
    end in
  let c2 := pt_add last_point c2 in
  let end_ := pt_add last_point end_ in
  Ok (LastBezierCurve c1 c2 end_).

(** [SVGSmoothQuadraticCurve(end).render(..., last_item, ...)]: the
    [QuadraticBezierCurve] the method builds and renders. *)
Definition SVGSmoothQuadraticCurve_render (end_ : Point num) (last_item : LastItem)
  : res LastItem :=
  ctrl ← match last_item with
         | LastQuadraticBezierCurve last_ctrl last_end =>
             Ok (pt_sub (pt_scale (dec 2 0) last_end) last_ctrl)
         | _ => end_point last_item
         end;
  Ok (LastQuadraticBezierCurve ctrl end_).

Definition SVGRelativeSmoothQuadraticCurve_render (end_ : Point num)
  (last_item : LastItem) : res LastItem :=
  last_point ← end_point last_item;
  let ctrl :=
    match last_item with
    | LastQuadraticBezierCurve last_ctrl last_end =>
        pt_sub (pt_scale (dec 2 0) last_end) last_ctrl
    | _ => last_point
    end in
  let end_ := pt_add last_point end_ in
  Ok (LastQuadraticBezierCurve ctrl end_).

(** Modelled from the spec: the [render] methods of the elements of
    [drawing.py] are not among the sources.  An element is rendered with the
    element before it, as resolved, for [last_item], and with the point of
    the latest moveto for [initial_point]; it yields itself resolved to
    absolute coordinates (the next [last_item]) and the next
    [initial_point].  A relative element is resolved against the current
    point, the [end_point] of [last_item]; a cubic or quadratic curve stays
    a curve of its class, every other segment leaves an element that is
    neither, with the point it ends at; closing the path returns the current
    point to the point of the latest moveto.  The spec names no current
    point after a rectangle, a circle or an ellipse (the shape converters
    put them alone in a path): they leave an element without [end_point].
    The four smooth elements are rendered by the methods of [svg.py]. *)
Definition render_element (item : PathElement) (last_item : LastItem)
  (initial_point : Point num) : res (LastItem * Point num) :=
  match item with
  | Move pt => Ok (LastOther (Some pt), pt)
  | RelativeMove d =>
      cur ← end_point last_item;
      Ok (LastOther (Some (pt_add cur d)), pt_add cur d)
  | Line pt => Ok (LastOther (Some pt), initial_point)
  | RelativeLine d =>
      cur ← end_point last_item;
      Ok (LastOther (Some (pt_add cur d)), initial_point)
  | HorizontalLine x =>
      cur ← end_point last_item;
      Ok (LastOther (Some (mkPoint x (pt_y cur))), initial_point)
  | RelativeHorizontalLine dx =>
      cur ← end_point last_item;
      Ok (LastOther (Some (mkPoint (pt_x cur + dx) (pt_y cur))), initial_point)
  | VerticalLine y =>
      cur ← end_point last_item;
      Ok (LastOther (Some (mkPoint (pt_x cur) y)), initial_point)
  | RelativeVerticalLine dy =>
      cur ← end_point last_item;
      Ok (LastOther (Some (mkPoint (pt_x cur) (pt_y cur + dy))), initial_point)
  | BezierCurve c1 c2 e => Ok (LastBezierCurve c1 c2 e, initial_point)
  | RelativeBezierCurve c1 c2 e =>
      cur ← end_point last_item;
      Ok (LastBezierCurve (pt_add cur c1) (pt_add cur c2) (pt_add cur e), initial_point)
  | QuadraticBezierCurve ctrl e => Ok (LastQuadraticBezierCurve ctrl e, initial_point)
  | RelativeQuadraticBezierCurve ctrl e =>
      cur ← end_point last_item;
      Ok (LastQuadraticBezierCurve (pt_add cur ctrl) (pt_add cur e), initial_point)
  | Arc _ _ _ _ e => Ok (LastOther (Some e), initial_point)
  | RelativeArc _ _ _ _ e =>
      cur ← end_point last_item;
      Ok (LastOther (Some (pt_add cur e)), initial_point)
  | Close => Ok (LastOther (Some initial_point), initial_point)
  | Rectangle _ _ _ _ _ _ | Circle _ _ _ | Ellipse _ _ _ _ =>
      Ok (LastOther None, initial_point)
  | SVGSmoothCubicCurve c2 e =>
      resolved ← SVGSmoothCubicCurve_render c2 e last_item;
      Ok (resolved, initial_point)
  | SVGRelativeSmoothCubicCurve c2 e =>
      resolved ← SVGRelativeSmoothCubicCurve_render c2 e last_item;
      Ok (resolved, initial_point)
  | SVGSmoothQuadraticCurve e =>
      resolved ← SVGSmoothQuadraticCurve_render e last_item;
      Ok (resolved, initial_point)
  | SVGRelativeSmoothQuadraticCurve e =>
      resolved ← SVGRelativeSmoothQuadraticCurve_render e last_item;
      Ok (resolved, initial_point)
  end.

(** Modelled from the spec: the emission pass of [drawing.PaintedPath] over
    the list of its elements is not among the sources.  The elements are
    rendered in order, each with the resolved element before it; the pass
    yields the resolved elements. *)
Fixpoint render_items (items : list PathElement) (last_item : LastItem)
  (initial_point : Point num) : res (list LastItem) :=
  match items with
  | [] => Ok []
  | item :: items' =>
      '(resolved, initial_point') ← render_element item last_item initial_point;
      rest ← render_items items' resolved initial_point';
      Ok (resolved :: rest)
  end.

(** *** The path interpreter *)

(** The body of the loop of [svg_path_converter] for one command: the
    element appended to the path. *)
Definition svg_path_command (cmd : SvgCmd num) (current_pos : Point num)
  : res PathElement :=
  match cmd with
  | CmdMove end_ relative =>
      if relative then Ok (RelativeMove (pt_sub end_ current_pos))
      else Ok (Move end_)
  | CmdLine end_ relative horizontal vertical =>
      if horizontal then
        if relative then Ok (RelativeHorizontalLine (pt_x (pt_sub end_ current_pos)))
        else Ok (HorizontalLine (pt_x end_))
      else if vertical then
        if relative then Ok (RelativeVerticalLine (pt_y (pt_sub end_ current_pos)))
        else Ok (VerticalLine (pt_y end_))
      else
        if relative then Ok (RelativeLine (pt_sub end_ current_pos))
        else Ok (Line end_)
  | CmdArc radius rotation arc sweep end_ relative =>
      if relative then
        Ok (RelativeArc radius rotation arc sweep (pt_sub end_ current_pos))
      else Ok (Arc radius rotation arc sweep end_)
  | CmdCubicBezier control1 control2 end_ relative smooth =>
      if smooth then
        if relative then
          Ok (SVGRelativeSmoothCubicCurve (pt_sub control2 current_pos)
                (pt_sub end_ current_pos))
        else Ok (SVGSmoothCubicCurve control2 end_)
      else
        if relative then
          Ok (RelativeBezierCurve (pt_sub control1 current_pos)
                (pt_sub control2 current_pos) (pt_sub end_ current_pos))
        else Ok (BezierCurve control1 control2 end_)
  | CmdQuadraticBezier control end_ relative smooth =>
      if smooth then
        if relative then Ok (SVGRelativeSmoothQuadraticCurve (pt_sub end_ current_pos))
        else Ok (SVGSmoothQuadraticCurve end_)
      else
        if relative then
          Ok (RelativeQuadraticBezierCurve (pt_sub control current_pos)
                (pt_sub end_ current_pos))
        else Ok (QuadraticBezierCurve control end_)
  | CmdClose _ => Ok Close
  | OtherCmd _ => Raise (NotImplementedError "Unsupported svg.path command type")
  end.

Definition cmd_end (cmd : SvgCmd num) : Point num :=
  match cmd with
  | CmdMove e _ | CmdLine e _ _ _ | CmdArc _ _ _ _ e _
  | CmdCubicBezier _ _ e _ _ | CmdQuadraticBezier _ e _ _
  | CmdClose e | OtherCmd e => e
  end.

Fixpoint svg_path_loop (cmds : list (SvgCmd num)) (current_pos : Point num)
  (pdf_path : PaintedPath) : res PaintedPath :=
  match cmds with
  | [] => Ok pdf_path
  | cmd :: cmds' =>
      e ← svg_path_command cmd current_pos;
      svg_path_loop cmds' (cmd_end cmd) (add_path_element pdf_path e)
  end.

Definition svg_path_converter (pdf_path : PaintedPath) (svg_path : string)
  : res PaintedPath :=
  match parse_path with
  | None =>
      Raise (EnvironmentError
        "svg?path not available - fpdf2 cannot insert SVG images")
  | Some parse_path =>
      let svg_path := strip svg_path in
      match svg_path with
      | EmptyString => Raise (IndexError "string index out of range")
      | String c _ =>
          if negb (Ascii.eqb c "M" || Ascii.eqb c "m") then
            Raise (ValueError
              ("SVG path does not start with moveto command: " +:+ svg_path))
          else
            cmds ← parse_path svg_path;
            svg_path_loop cmds (mkPoint zero zero) pdf_path
      end
  end.

(** *** The shape converters ([ShapeBuilder]) *)

(** [ShapeBuilder.new_path(tag)] *)
Definition new_path (tag : Element) : res PaintedPath :=
  '(style, transform, _) ← apply_styles ∅ None (attrib tag);
  Ok {| path_style := style; path_transform := transform; path_items := [] |}.

(** A corner radius while [rect] and [ellipse] resolve it: the [str] of the
    attribute map, or the [int] 0. *)
Inductive Radius :=
| RadStr (s : string)
| RadInt0.

(** [r == "auto"] *)
Definition is_auto (r : Radius) : bool :=
  match r with
  | RadStr s => String.eqb s "auto"
  | RadInt0 => false
  end.

(** [r == 0]: a [str] is never equal to an [int]. *)
Definition eq_int0 (r : Radius) : bool :=
  match r with
  | RadStr _ => false
  | RadInt0 => true
  end.

(** [float(r)] *)
Definition float_radius (r : Radius) : res num :=
  match r with
  | RadStr s => float s
  | RadInt0 => Ok zero
  end.

Definition get_radius (attrib : gmap string string) (key : string) : Radius :=
  RadStr (default "auto" (attrib !! key)).

Definition ShapeBuilder_rect (tag : Element) : res PaintedPath :=
  x ← float_get (attrib tag) "x";
  y ← float_get (attrib tag) "y";
  width ← float_get (attrib tag) "width";
  height ← float_get (attrib tag) "height";
  let rx := get_radius (attrib tag) "rx" in
  let ry := get_radius (attrib tag) "ry" in
  let rx := match rx with RadStr "none" => RadInt0 | _ => rx end in
  let ry := match ry with RadStr "none" => RadInt0 | _ => ry end in
  '(rx, ry) ←
    (if is_auto rx && is_auto ry then Ok (zero, zero)
     else if is_auto rx then r ← float_radius ry; Ok (r, r)
     else if is_auto ry then r ← float_radius rx; Ok (r, r)
     else rx ← float_radius rx; ry ← float_radius ry; Ok (rx, ry));
  if (width < zero) || (height < zero) || (rx < zero) || (ry < zero) then
    Raise (ValueError ("bad rect " +:+ repr_Element tag))
  else if (width == zero) || (height == zero) then Ok PaintedPath_new
  else
    let rx := if fdiv width (dec 2 0) < rx then fdiv width (dec 2 0) else rx in
    let ry := if fdiv height (dec 2 0) < ry then fdiv height (dec 2 0) else ry in
    path ← new_path tag;
    Ok (add_path_element path (Rectangle x y width height rx ry)).

Definition ShapeBuilder_circle (tag : Element) : res PaintedPath :=
  cx ← float_get (attrib tag) "cx";
  cy ← float_get (attrib tag) "cy";
  r ← getitem (attrib tag) "r";
  r ← float r;
  path ← new_path tag;
  Ok (add_path_element path (Circle cx cy r)).

Definition ShapeBuilder_ellipse (tag : Element) : res PaintedPath :=
  cx ← float_get (attrib tag) "cx";
  cy ← float_get (attrib tag) "cy";
  let rx := get_radius (attrib tag) "rx" in
  let ry := get_radius (attrib tag) "ry" in
  path ← new_path tag;
  if (is_auto rx && is_auto ry) || eq_int0 rx || eq_int0 ry then Ok path
  else
    '(rx, ry) ←
      (if is_auto rx then r ← float_radius ry; Ok (r, r)
       else if is_auto ry then r ← float_radius rx; Ok (r, r)
       else rx ← float_radius rx; ry ← float_radius ry; Ok (rx, ry));
    Ok (add_path_element path (Ellipse cx cy rx ry)).

Definition ShapeBuilder_line (tag : Element) : res PaintedPath :=
  x1 ← getitem (attrib tag) "x1"; x1 ← float x1;
  y1 ← getitem (attrib tag) "y1"; y1 ← float y1;
  x2 ← getitem (attrib tag) "x2"; x2 ← float x2;
  y2 ← getitem (attrib tag) "y2"; y2 ← float y2;
  path ← new_path tag;
  let path := add_path_element path (Move (mkPoint x1 y1)) in
  Ok (add_path_element path (Line (mkPoint x2 y2))).

Definition ShapeBuilder_polyline (tag : Element) : res PaintedPath :=
  points ← getitem (attrib tag) "points";
  path ← new_path tag;
  svg_path_converter path ("M" +:+ points).

Definition ShapeBuilder_polygon (tag : Element) : res PaintedPath :=
  points ← getitem (attrib tag) "points";
  path ← new_path tag;
  svg_path_converter path ("M" +:+ points +:+ "Z").

(** [getattr(ShapeBuilder, name)(child)] for a name of [shape_tags]. *)
Definition ShapeBuilder_dispatch (name : string) (child : Element) : res PaintedPath :=
  if String.eqb name "rect" then ShapeBuilder_rect child
  else if String.eqb name "circle" then ShapeBuilder_circle child
  else if String.eqb name "ellipse" then ShapeBuilder_ellipse child
  else if String.eqb name "line" then ShapeBuilder_line child
  else if String.eqb name "polyline" then ShapeBuilder_polyline child
  else if String.eqb name "polygon" then ShapeBuilder_polygon child
  else Raise (AttributeError
         ("type object 'ShapeBuilder' has no attribute " +:+ repr_str name)).

(** *** The document walker ([SVGObject]) *)

(** The cross-reference table [self.cross_references]. *)
Abbreviation XRefs := (gmap string Drawable).

(** [self.cross_references["#" + attrib["id"]] = item], passed over when the
    element has no [id]. *)
Definition register (attrib : gmap string string) (item : Drawable) (xrefs : XRefs)
  : XRefs :=
  match attrib !! "id" with
  | Some id => <["#" +:+ id := item]> xrefs
  | None => xrefs
  end.

(** The first key of [xmlns_lookup("xlink", "href")] the attribute map has:
    the [for ... else] of [build_xref]. *)
Fixpoint find_ref (candidates : list string) (attrib : gmap string string)
  : option string :=
  match candidates with
  | [] => None
  | candidate :: rest =>
      match attrib !! candidate with
      | Some ref => Some ref
      | None => find_ref rest attrib
      end
  end.

Definition build_xref (xref : Element) (xrefs : XRefs) : res GraphicsContext :=
  '(style, transform, attrib) ← apply_styles ∅ None (attrib xref);
  let pdf_group := mkGraphicsContext style transform [] in
  match find_ref (map fst (xmlns_lookup "xlink" ["href"])) attrib with
  | None =>
      Raise (ValueError
        ("use " +:+ repr_Element xref +:+ " doesn't contain known xref attribute"))
  | Some ref =>
      match xrefs !! ref with
      | None =>
          Raise (ValueError
            ("use " +:+ repr_Element xref +:+ " references nonexistent ref id " +:+ ref))
      | Some item =>
          let pdf_group := add_item pdf_group item in
          if bool_decide (is_Some (attrib !! "x")) || bool_decide (is_Some (attrib !! "y"))
          then
            x ← float_get attrib "x";
            y ← float_get attrib "y";
            Ok (set_transform pdf_group (Transform_translation x y))
          else Ok pdf_group
      end
  end.

Definition build_path (path : Element) (xrefs : XRefs) : res (PaintedPath * XRefs) :=
  '(style, transform, attrib) ← apply_styles ∅ None (attrib path);
  let pdf_path := {| path_style := style; path_transform := transform; path_items := [] |} in
  pdf_path ←
    match attrib !! "d" with
    | Some svg_path => svg_path_converter pdf_path svg_path
    | None => Ok pdf_path
    end;
  Ok (pdf_path, register attrib (DPath pdf_path) xrefs).

Definition tag_in (e : Element) (name : string) : bool :=
  lookup_in (tag e) (xmlns_lookup "svg" [name]).

(** [handle_defs] and the body of the loop of [build_group] call
    [self.build_group(child)]; they are written over that call
    ([build_group_rec]), and [build_group] below closes the recursion. *)
Section Walker.
Variable build_group_rec : Element -> XRefs -> res (GraphicsContext * XRefs).

(** The loop [for child in defs] of [handle_defs]. *)
Fixpoint handle_defs_loop (ds : list Element) (xrefs : XRefs) : res XRefs :=
  match ds with
  | [] => Ok xrefs
  | d :: ds' =>
      xrefs ←
        (if tag_in d "g" then '(_, xrefs) ← build_group_rec d xrefs; Ok xrefs
         else Ok xrefs);
      xrefs ←
        (if tag_in d "path" then '(_, xrefs) ← build_path d xrefs; Ok xrefs
         else Ok xrefs);
      handle_defs_loop ds' xrefs
  end.

Definition handle_defs_with (defs : Element) (xrefs : XRefs) : res XRefs :=
  handle_defs_loop (children defs) xrefs.

(** The body of the loop [for child in group] of [build_group]. *)
Definition build_child_with (child : Element) (pdf_group : GraphicsContext)
  (xrefs : XRefs) : res (GraphicsContext * XRefs) :=
  xrefs ← (if tag_in child "defs" then handle_defs_with child xrefs else Ok xrefs);
  '(pdf_group, xrefs) ←
    (if tag_in child "g" then
       '(g, xrefs) ← build_group_rec child xrefs;
       Ok (add_item pdf_group (DGroup g), xrefs)
     else Ok (pdf_group, xrefs));
  '(pdf_group, xrefs) ←
    (if tag_in child "path" then
       '(p, xrefs) ← build_path child xrefs;
       Ok (add_item pdf_group (DPath p), xrefs)
     else
       match lookup_get (tag child) shape_tags with
       | Some name =>
           p ← ShapeBuilder_dispatch name child;
           Ok (add_item pdf_group (DPath p), xrefs)
       | None => Ok (pdf_group, xrefs)
       end);
  pdf_group ←
    (if tag_in child "use" then
       g ← build_xref child xrefs; Ok (add_item pdf_group (DGroup g))
     else Ok pdf_group);
  Ok (pdf_group, xrefs).
End Walker.

(** [build_group(group, pdf_group)]; [pdf_group] is [None] when the argument
    is left out. *)
Fixpoint build_group (group : Element) (pdf_group : option GraphicsContext)
  (xrefs : XRefs) {struct group} : res (GraphicsContext * XRefs) :=
  let 'mkElement _ group_attrib group_children := group in
  '(pdf_group, group_attrib) ←
    match pdf_group with
    | None =>
        '(style, transform, attrib) ← apply_styles ∅ None group_attrib;
        Ok (mkGraphicsContext style transform [], attrib)
    | Some g => Ok (g, group_attrib)
    end;
  '(pdf_group, xrefs) ←
    (fix build_children (cs : list Element) (pdf_group : GraphicsContext)
       (xrefs : XRefs) {struct cs} : res (GraphicsContext * XRefs) :=
       match cs with
       | [] => Ok (pdf_group, xrefs)
       | child :: cs' =>
           '(pdf_group, xrefs) ←
             build_child_with (fun c xrefs => build_group c None xrefs)
               child pdf_group xrefs;
           build_children cs' pdf_group xrefs
       end) group_children pdf_group xrefs;
  Ok (pdf_group, register group_attrib (DGroup pdf_group) xrefs).

(** [handle_defs(defs)] *)
Definition handle_defs : Element -> XRefs -> res XRefs :=
  handle_defs_with (fun c xrefs => build_group c None xrefs).

(** The body of the loop of [build_group] for one child. *)
Definition build_child : Element -> GraphicsContext -> XRefs -> res (GraphicsContext * XRefs) :=
  build_child_with (fun c xrefs => build_group c None xrefs).

(** The loop [for child in group] of [build_group]. *)
Fixpoint build_children (cs : list Element) (pdf_group : GraphicsContext)
  (xrefs : XRefs) : res (GraphicsContext * XRefs) :=
  match cs with
  | [] => Ok (pdf_group, xrefs)
  | child :: cs' =>
      '(pdf_group, xrefs) ← build_child child pdf_group xrefs;
      build_children cs' pdf_group xrefs
  end.

(** The percentage [Percent(v)] or the length in points of a top-level
    [width] or [height]. *)
Inductive Dimension :=
| Percent (v : num)
| Length (v : num).

Record SVGObject := mkSVGObject {
  cross_references : XRefs;
  preserve_ar : bool;
  width : option Dimension;
  height : option Dimension;
  viewbox : option (num * num * num * num);
  base_group : GraphicsContext;
}.

(** The [width] or [height] of [extract_shape_info]. *)
Definition extract_dimension (value : option string) : res (option Dimension) :=
  match value with
  | None => Ok None
  | Some s =>
      if endswith_char "%" s then v ← float (drop_last s); Ok (Some (Percent v))
      else v ← resolve_length s "pt"; Ok (Some (Length v))
  end.

(** [extract_shape_info(root_tag)]: the fields it assigns
    ([preserve_ar], [width], [height], [viewbox]). *)
Definition extract_shape_info (root_tag : Element)
  : res (bool * option Dimension * option Dimension * option (num * num * num * num)) :=
  let preserve_ar :=
    match attrib root_tag !! "preserveAspectRatio" with
    | Some "none" => false
    | _ => true
    end in
  width ← extract_dimension (attrib root_tag !! "width");
  height ← extract_dimension (attrib root_tag !! "height");
  viewbox ←
    match attrib root_tag !! "viewBox" with
    | None => Ok None
    | Some viewbox =>
        ns ← mapM float (NUMBER_SPLIT_split viewbox);
        match ns with
        | [vx; vy; vw; vh] =>
            if (vw < zero) || (vh < zero) then
              Raise (ValueError ("invalid negative width/height in viewbox " +:+ viewbox))
            else Ok (Some (vx, vy, vw, vh))
        | _ => unpack_error 4 (length ns)
        end
    end;
  Ok (preserve_ar, width, height, viewbox).

(** [convert_graphics(root_tag)]: the base group and the cross-reference
    table after the walk. *)
Definition convert_graphics (root_tag : Element) (xrefs : XRefs)
  : res (GraphicsContext * XRefs) :=
  let base_group := GraphicsContext_new in
  let base_group := set_style base_group "stroke_width" PyNone in
  let base_group := set_style base_group "auto_close" (VBool false) in
  let base_group := set_style base_group "stroke_cap_style" (VStr "butt") in
  build_group root_tag (Some base_group) xrefs.

(** [SVGObject(svg_text)], from the tree [parse_xml_str(svg_text)]. *)
Definition SVGObject_init (svg_tree : Element) : res SVGObject :=
  if negb (lookup_in (tag svg_tree) (xmlns_lookup "svg" ["svg"])) then
    Raise (ValueError ("root tag must be svg, not " +:+ tag svg_tree))
  else
    '(preserve_ar, width, height, viewbox) ← extract_shape_info svg_tree;
    '(base_group, xrefs) ← convert_graphics svg_tree ∅;
    Ok {| cross_references := xrefs; preserve_ar := preserve_ar; width := width;
          height := height; viewbox := viewbox; base_group := base_group |}.

(** *** The viewport scaler *)

(** The viewport width (or height) of [transform_to_rect_viewport], from the
    top-level dimension [self_dim] and the argument [dim]; [what] is the
    name in the message. *)
Definition viewport_dimension (ignore_svg_top_attrs : bool)
  (self_dim : option Dimension) (dim : num) (what : string) : res num :=
  if ignore_svg_top_attrs then Ok dim
  else
    match self_dim with
    | Some (Percent p) =>
        if negb (truthy dim) then
          Raise (ValueError
            ("SVG " +:+ dquote +:+ what +:+ dquote +:+ " is a percentage, hence a viewport "
               +:+ what +:+ " is required"))
        else Ok (fdiv (p * dim) (dec 100 0))
    | Some (Length v) => Ok (if truthy v then v else dim)
    | None => Ok dim
    end.

(** [self.transform_to_rect_viewport(scale, width, height, align_viewbox,
    ignore_svg_top_attrs)]: the triple it returns. *)
Definition transform_to_rect_viewport (self : SVGObject) (scale width_ height_ : num)
  (align_viewbox ignore_svg_top_attrs : bool) : res (num * num * GraphicsContext) :=
  vp_width ← viewport_dimension ignore_svg_top_attrs (width self) width_ "width";
  vp_height ← viewport_dimension ignore_svg_top_attrs (height self) height_ "height";
  transform ←
    (if scale == one then Ok Transform_identity
     else k ← truediv one scale; Ok (Transform_scaling k k));
  match viewbox self with
  | Some (vx, vy, vw, vh) =>
      if (vw == zero) || (vh == zero) then Ok (zero, zero, GraphicsContext_new)
      else
        w_ratio ← truediv vp_width vw;
        h_ratio ← truediv vp_height vh;
        let '(w_ratio, h_ratio) :=
          if negb ignore_svg_top_attrs && preserve_ar self && negb (w_ratio == h_ratio)
          then (py_min w_ratio h_ratio, py_min w_ratio h_ratio)
          else (w_ratio, h_ratio) in
        let transform :=
          transform @ Transform_translation (fneg vx) (fneg vy)
            @ Transform_scaling w_ratio h_ratio in
        let transform :=
          if align_viewbox then
            transform @ Transform_translation
              (fdiv vp_width (dec 2 0) - fdiv vw (dec 2 0) * w_ratio)
              (fdiv vp_height (dec 2 0) - fdiv vh (dec 2 0) * h_ratio)
          else transform in
        w ← truediv vp_width scale;
        h ← truediv vp_height scale;
        Ok (w, h, set_transform (base_group self) transform)
  | None =>
      w ← truediv vp_width scale;
      h ← truediv vp_height scale;
      Ok (w, h, set_transform (base_group self) transform)
  end.

End Svg.

(** ** Binary64 floats *)

(** Python's [float] as Rocq's primitive binary64 floats.  A decimal literal
    is rounded to the nearest float by the division of [SpecFloat];
    [float_str] reads the spellings [float] accepts in a text of code
    points below 256: blanks around, a sign, digits with an optional
    fraction and an optional exponent, a single underscore allowed between
    two digits, and the words inf, infinity and nan in either case.
    The functions of [math] are truncated power series: they stand for the
    platform's, and no statement below reads their value. *)
Module Binary64.

(** The float nearest to [m * 10^e], for [m] positive. *)
Definition of_spec (m : positive) (e : Z) : PrimFloat.float :=
  if (0 <=? e)%Z then
    SF2Prim (binary_normalize prec emax (Zpos m * 10 ^ e) 0 false)
  else
    SF2Prim (SFdiv prec emax (S754_finite false m 0)
               (S754_finite false (Z.to_pos (10 ^ (- e))) 0)).

Definition dec (m e : Z) : PrimFloat.float :=
  match m with
  | Z0 => 0%float
  | Zpos p => of_spec p e
  | Zneg p => PrimFloat.opp (of_spec p e)
  end.

Fixpoint digits_value (acc : Z) (s : string) : Z :=
  match s with
  | EmptyString => acc
  | String c s' => digits_value (10 * acc + (Z.of_nat (nat_of_ascii c) - 48))%Z s'
  end.

Definition lower (c : ascii) : ascii :=
  if nat_in 65 90 c then ascii_of_nat (nat_of_ascii c + 32) else c.

Fixpoint lowercase (s : string) : string :=
  match s with
  | EmptyString => EmptyString
  | String c s' => String (lower c) (lowercase s')
  end.

(** The longest prefix of [s] made of digits with single underscores
    between them, without the underscores, and the rest. *)
Fixpoint digitpart (s : string) : string * string :=
  match s with
  | String c s' =>
      if is_digit c then
        match s' with
        | String "_" (String d _ as t) =>
            if is_digit d then let '(a, b) := digitpart t in (String c a, b)
            else (String c EmptyString, s')
        | _ => let '(a, b) := digitpart s' in (String c a, b)
        end
      else (EmptyString, s)
  | EmptyString => (EmptyString, EmptyString)
  end.

(** The exponent part: empty, or [e], an optional sign and digits. *)
Definition exponent (s : string) : option Z :=
  match s with
  | EmptyString => Some 0%Z
  | String c s' =>
      if Ascii.eqb (lower c) "e" then
        let '(neg, s'') :=
          match s' with
          | String "-" t => (true, t)
          | String "+" t => (false, t)
          | _ => (false, s')
          end in
        match digitpart s'' with
        | (String d ds, EmptyString) =>
            let v := digits_value 0 (String d ds) in
            Some (if neg then (- v)%Z else v)
        | _ => None
        end
      else None
  end.

Definition unsigned (s : string) : option PrimFloat.float :=
  let l := lowercase s in
  if String.eqb l "inf" || String.eqb l "infinity" then Some PrimFloat.infinity
  else if String.eqb l "nan" then Some PrimFloat.nan
  else
    let '(ip, r1) := digitpart s in
    let '(fp, r2) :=
      match r1 with
      | String "." t => digitpart t
      | _ => (EmptyString, r1)
      end in
    match ip +:+ fp with
    | EmptyString => None
    | ds =>
        match exponent r2 with
        | Some e => Some (dec (digits_value 0 ds) (e - Z.of_nat (String.length fp)))
        | None => None
        end
    end.

Definition float_str (s : string) : option PrimFloat.float :=
  match strip s with
  | String "-" t => PrimFloat.opp <$> unsigned t
  | String "+" t => unsigned t
  | t => unsigned t
  end.

Definition sin (x : PrimFloat.float) : PrimFloat.float :=
  let x2 := (x * x)%float in
  (x * (1 - x2 / 6 * (1 - x2 / 20 * (1 - x2 / 42 * (1 - x2 / 72)))))%float.

Definition cos (x : PrimFloat.float) : PrimFloat.float :=
  let x2 := (x * x)%float in
  (1 - x2 / 2 * (1 - x2 / 12 * (1 - x2 / 30 * (1 - x2 / 56))))%float.

Definition tan (x : PrimFloat.float) : PrimFloat.float := (sin x / cos x)%float.

Definition tau : PrimFloat.float := PrimFloat.mul 2 (dec 3141592653589793 (-15)).

End Binary64.

#[export] Instance binary64 : PyFloat PrimFloat.float := {|
  dec := Binary64.dec;
  float_str := Binary64.float_str;
  fadd := PrimFloat.add;
  fsub := PrimFloat.sub;
  fmul := PrimFloat.mul;
  fdiv := PrimFloat.div;
  fneg := PrimFloat.opp;
  feqb := PrimFloat.eqb;
  fltb := PrimFloat.ltb;
  math_tan := Binary64.tan;
  math_cos := Binary64.cos;
  math_sin := Binary64.sin;
  math_tau := Binary64.tau;
|}.

(** ** The collaborators, for running the module *)

(** Modelled from the spec: [drawing.Transform] is not among the sources.
    An affine transform with the coefficients [(a, b, c, d, e, f)] is the
    map [x' = a*x + c*y + e], [y' = b*x + d*y + f] of the plane, and it is
    kept here as that map.  In [A @ B] the left operand is applied to the
    point first: [convert_transforms] composes each new function on the left
    so that the first function of the text is applied last, and
    [transform_to_rect_viewport] writes the translation of the viewBox
    origin, then the scaling, then the centering, from left to right. *)
Module PointMaps.
Section PointMaps.
Context {num : Type} `{!PyFloat num}.
Local Open Scope num_scope.

Definition T := Point num -> Point num.

Definition new (a b c d e f : num) : T :=
  fun p => mkPoint (a * pt_x p + c * pt_y p + e) (b * pt_x p + d * pt_y p + f).
Definition identity : T := fun p => p.
Definition compose (A B : T) : T := fun p => B (A p).
Definition translation (x y : num) : T :=
  fun p => mkPoint (pt_x p + x) (pt_y p + y).
Definition scaling (x y : num) : T :=
  fun p => mkPoint (pt_x p * x) (pt_y p * y).
Definition rotation (theta : num) : T :=
  new (math_cos theta) (math_sin theta) (fneg (math_sin theta)) (math_cos theta)
    (dec 0 0) (dec 0 0).
Definition about (t : T) (x y : num) : T :=
  compose (compose (translation (fneg x) (fneg y)) t) (translation x y).
Definition shearing (x y : num) : T :=
  fun p => mkPoint (pt_x p + x * pt_y p) (y * pt_x p + pt_y p).

(** The transform applied to a point. *)
Definition act (t : T) (p : Point num) : Point num := t p.
End PointMaps.
End PointMaps.

(** A colour is kept as its validated hexadecimal text. *)
Definition is_hex (c : ascii) : bool :=
  is_digit c || nat_in 65 70 c || nat_in 97 102 c.

Definition hex_color (s : string) : res string :=
  match s with
  | String "#" h =>
      if forallb is_hex (list_ascii_of_string h)
         && (Nat.eqb (String.length h) 3 || Nat.eqb (String.length h) 4
             || Nat.eqb (String.length h) 6 || Nat.eqb (String.length h) 8)
      then Ok s
      else Raise (ValueError (s +:+ " could not be interpreted as a RGB(A) hex string"))
  | _ => Raise (ValueError (s +:+ " does not start with #"))
  end.

(** An excerpt of [html.COLOR_DICT]. *)
Definition color_dict : gmap string string :=
  <["black" := "#000000"]> (<["white" := "#ffffff"]> (<["red" := "#ff0000"]>
  (<["green" := "#008000"]> (<["blue" := "#0000ff"]> ∅)))).

(** The collaborators used to run the module on documents: transforms as
    point maps, the colour excerpt, and no [svg.path] (a document that
    carries path data stops with an error there). *)
#[export] Instance point_maps {num : Type} `{!PyFloat num} : Collab num := {|
  Transform := PointMaps.T;
  Transform_new := PointMaps.new;
  Transform_identity := PointMaps.identity;
  matmul := PointMaps.compose;
  Transform_translation := PointMaps.translation;
  Transform_scaling := PointMaps.scaling;
  Transform_rotation := PointMaps.rotation;
  Transform_about := PointMaps.about;
  Transform_shearing := PointMaps.shearing;
  Color := string;
  COLOR_DICT := color_dict;
  color_from_hex_string := hex_color;
  parse_path := None;
|}.

(** ** Notions used in the statements *)

(** The elements of the cubic family: the cubic curves, absolute and
    relative, and the smooth cubic elements. *)
Definition is_cubic {num : Type} (item : PathElement (num := num)) : bool :=
  match item with
  | BezierCurve _ _ _ | RelativeBezierCurve _ _ _
  | SVGSmoothCubicCurve _ _ | SVGRelativeSmoothCubicCurve _ _ => true
  | _ => false
  end.

(** The elements of the quadratic family. *)
Definition is_quadratic {num : Type} (item : PathElement (num := num)) : bool :=
  match item with
  | QuadraticBezierCurve _ _ | RelativeQuadraticBezierCurve _ _
  | SVGSmoothQuadraticCurve _ | SVGRelativeSmoothQuadraticCurve _ => true
  | _ => false
  end.

(** The segments of the path language: every element but the rectangle, the
    circle and the ellipse of the shape converters. *)
Definition is_segment {num : Type} (item : PathElement (num := num)) : bool :=
  match item with
  | Rectangle _ _ _ _ _ _ | Circle _ _ _ | Ellipse _ _ _ _ => false
  | _ => true
  end.

(** The point reflection of the control point [c] through the end point
    [e]: [2 * e - c]. *)
Definition reflection `{PyFloat num} (e c : Point num) : Point num :=
  pt_sub (pt_scale (dec 2 0) e) c.

(** The rule of the leading control point [c1] of a smooth cubic element
    that follows [prev], resolved to [r_prev] with the end point [cur]:
    after an element of the cubic family, [r_prev] is a cubic curve and
    [c1] reflects its last control point through [cur]; after any other
    element [r_prev] is no cubic curve and [c1] is [cur], the current
    point. *)
Definition cubic_rule `{PyFloat num} (prev : PathElement (num := num))
  (r_prev : LastItem (num := num)) (cur c1 : Point num) : Prop :=
  if is_cubic prev then
    exists p1 p2, r_prev = LastBezierCurve p1 p2 cur /\ c1 = reflection cur p2
  else
    (forall p1 p2 pe, r_prev <> LastBezierCurve p1 p2 pe) /\ c1 = cur.

(** The same rule for a smooth quadratic element. *)
Definition quadratic_rule `{PyFloat num} (prev : PathElement (num := num))
  (r_prev : LastItem (num := num)) (cur ctrl : Point num) : Prop :=
  if is_quadratic prev then
    exists p, r_prev = LastQuadraticBezierCurve p cur /\ ctrl = reflection cur p
  else
    (forall p pe, r_prev <> LastQuadraticBezierCurve p pe) /\ ctrl = cur.

(** What the element [smooth], rendered right after [prev], resolves to:
    for each of the four smooth elements, the curve with the leading
    control point of the rule, the trailing control point and the endpoint
    of the element (taken from [cur] for a relative element); nothing is
    said of another element. *)
Definition leading_control_point `{PyFloat num} (prev : PathElement (num := num))
  (r_prev : LastItem (num := num)) (cur : Point num)
  (smooth : PathElement (num := num)) (r_smooth : LastItem (num := num)) : Prop :=
  match smooth with
  | SVGSmoothCubicCurve c2 e =>
      exists c1, r_smooth = LastBezierCurve c1 c2 e /\ cubic_rule prev r_prev cur c1
  | SVGRelativeSmoothCubicCurve c2 e =>
      exists c1, r_smooth = LastBezierCurve c1 (pt_add cur c2) (pt_add cur e)
                 /\ cubic_rule prev r_prev cur c1
  | SVGSmoothQuadraticCurve e =>
      exists ctrl, r_smooth = LastQuadraticBezierCurve ctrl e
                   /\ quadratic_rule prev r_prev cur ctrl
  | SVGRelativeSmoothQuadraticCurve e =>
      exists ctrl, r_smooth = LastQuadraticBezierCurve ctrl (pt_add cur e)
                   /\ quadratic_rule prev r_prev cur ctrl
  | _ => True
  end.

(** The transforms of a list applied to a point one after the other, the
    last of the list first: [apply_last_first act [f1; f2] p] is
    [act f1 (act f2 p)]. *)
Definition apply_last_first {T P : Type} (act : T -> P -> P) (fs : list T) (p : P) : P :=
  fold_right act p fs.

(** The composition built by a loop that starts from [start] and replaces
    the accumulated transform [existing] by [delta @ existing] for each
    [delta] of the list in turn. *)
Definition precompose_all `{Collab num} (fs : list Transform) (start : Transform)
  : Transform :=
  fold_left (fun existing delta => delta @ existing) fs start.

(** The reference a [use] element carries once its [style] attribute is
    unpacked: the value of the first key of [xmlns_lookup("xlink", "href")]
    it has. *)
Definition reference_of (xref : Element) : option string :=
  find_ref (map fst (xmlns_lookup "xlink" ["href"])) (parse_style (attrib xref)).

(** The [use] element has a reference, and the table holds it. *)
Definition resolves `{Collab num} (xref : Element) (xrefs : gmap string Drawable) : bool :=
  match reference_of xref with
  | Some ref => bool_decide (is_Some (xrefs !! ref))
  | None => false
  end.

(** The group [build_group] starts from, and the attribute map it reads the
    [id] from: the first statement of the function. *)
Definition group_start `{PyFloat num} `{!Collab num} (group : Element)
  (pdf_group : option GraphicsContext) : res (GraphicsContext * gmap string string) :=
  match pdf_group with
  | None =>
      '(style, transform, attrib) ← apply_styles ∅ None (attrib group);
      Ok (mkGraphicsContext style transform [], attrib)
  | Some g => Ok (g, attrib group)
  end.

(** One piece of a [style] attribute read as a declaration: the property
    name and the value, both stripped, when the piece has exactly one colon
    with text on both sides of it. *)
Definition declaration (element : string) : option (string * string) :=
  match split_on ":" element with
  | [attr; value] =>
      if negb (String.eqb attr EmptyString) && negb (String.eqb value EmptyString)
      then Some (strip attr, strip value)
      else None
  | _ => None
  end.

(** The value a list of pieces assigns to the property [k]: that of the last
    declaration of [k], or [init] when there is none. *)
Definition declared_value (elements : list string) (k : string) (init : option string)
  : option string :=
  fold_left
    (fun acc element =>
       match declaration element with
       | Some (attr, value) => if String.eqb attr k then Some value else acc
       | None => acc
       end)
    elements init.

(** The value the text of a [style] attribute assigns to the property [k]. *)
Definition style_declares (style : string) (k : string) : option string :=
  declared_value (split_on ";" style) k None.

(** The text has a space in it. *)
Fixpoint has_space (s : string) : bool :=
  match s with
  | EmptyString => false
  | String c s' => Ascii.eqb c " " || has_space s'
  end.

(** The text after the last space. *)
Fixpoint last_word (s : string) : string :=
  match s with
  | EmptyString => EmptyString
  | String c s' =>
      if has_space s' then last_word s'
      else if Ascii.eqb c " " then s' else s
  end.

(** The unit [resolve_length] looks up: the unit token of the text, or the
    default unit when the token is empty. *)
Definition effective_unit (token default_unit : string) : string :=
  if String.eqb token EmptyString then default_unit else token.

(** Every character of the text satisfies [p]. *)
Fixpoint all_chars (p : ascii -> bool) (s : string) : bool :=
  match s with
  | EmptyString => true
  | String c s' => p c && all_chars p s'
  end.

(** A character of a separator of [NUMBER_SPLIT]: a blank or a comma. *)
Definition is_separator (c : ascii) : bool := is_space c || Ascii.eqb c ",".

(** A character the argument text of [TRANSFORM_GETTER] can hold. *)
Definition is_args_char (c : ascii) : bool :=
  is_space c || is_sign c || is_numchar c || Ascii.eqb c ",".

(** A character that can take part in a match of [unit_splitter]. *)
Definition is_length_char (c : ascii) : bool :=
  is_space c || is_sign c || is_numchar c || is_alpha c || Ascii.eqb c "%".

(** The markup attributes of [svg_attr_map], each with the style field its
    entry names. *)
Definition attr_fields : list (string * string) :=
  [("fill", "fill_color"); ("fill-rule", "intersection_rule");
   ("fill-opacity", "fill_opacity"); ("stroke", "stroke_color");
   ("stroke-width", "stroke_width"); ("stroke-dasharray", "stroke_dash_pattern");
   ("stroke-dashoffset", "stroke_dash_phase"); ("stroke-linecap", "stroke_cap_style");
   ("stroke-linejoin", "stroke_join_style"); ("stroke-miterlimit", "stroke_miter_limit");
   ("stroke-opacity", "stroke_opacity")].

(** The position each command of a path is read from: the origin for the
    first one, the end of the command before it for the others. *)
Fixpoint with_positions_from {num : Type} (pos : Point num) (cmds : list (SvgCmd num))
  : list (SvgCmd num * Point num) :=
  match cmds with
  | [] => []
  | cmd :: cmds' => (cmd, pos) :: with_positions_from (cmd_end cmd) cmds'
  end.

Definition with_positions `{PyFloat num} (cmds : list (SvgCmd num))
  : list (SvgCmd num * Point num) :=
  with_positions_from (mkPoint zero zero) cmds.

(** The walker draws the element: its tag is one of [g], [path], [use] or
    a basic shape, with or without the SVG namespace. *)
Definition walker_draws (e : Element) : bool :=
  tag_in e "g" || tag_in e "path"
  || bool_decide (is_Some (lookup_get (tag e) shape_tags)) || tag_in e "use".

(** The walker reads the element: it draws it, or the element is [defs]. *)
Definition walker_reads (e : Element) : bool := tag_in e "defs" || walker_draws e.

(** The children of [defs] that [handle_defs] builds. *)
Definition defs_reads (d : Element) : bool := tag_in d "g" || tag_in d "path".

(** The table [x'] holds every key of [x], and each key it holds beyond
    those of [x] starts with a hash sign. *)
Definition extends_with_ids {V} (x x' : gmap string V) : Prop :=
  forall k,
    (is_Some (x !! k) -> is_Some (x' !! k))
    /\ (is_Some (x' !! k) -> is_Some (x !! k) \/ startswith "#" k = true).

(** The style [convert_graphics] gives the base group. *)
Definition base_style `{Collab num} : gmap string StyleValue :=
  <["stroke_cap_style" := VStr "butt"]>
  (<["auto_close" := VBool false]> (<["stroke_width" := PyNone]> ∅)).

(** The attributes a shape converter reads with [tag.attrib[...]], which has
    no default. *)
Definition required_attributes (name : string) : list string :=
  if String.eqb name "circle" then ["r"]
  else if String.eqb name "line" then ["x1"; "y1"; "x2"; "y2"]
  else if String.eqb name "polyline" || String.eqb name "polygon" then ["points"]
  else [].

(** The style record of an item: of a path, or of a group. *)
Definition style_of `{Collab num} (item : Drawable) : gmap string StyleValue :=
  match item with
  | DPath p => path_style p
  | DGroup g => gc_style g
  end.

(** The item the walker builds for an element, by one of the four calls of
    the loop of [build_group] (the first two are also the calls of
    [handle_defs]): [build_group] without a group to fill for a [g],
    [build_path] for a [path], the converter of [ShapeBuilder] for a basic
    shape, [build_xref] for a [use].  The root element is built by none of
    them: [convert_graphics] hands [build_group] the base group to fill. *)
Definition built `{PyFloat num} `{!Collab num} (e : Element) (item : Drawable) : Prop :=
  (exists xrefs g x', build_group e None xrefs = Ok (g, x') /\ item = DGroup g)
  \/ (exists xrefs p x', build_path e xrefs = Ok (p, x') /\ item = DPath p)
  \/ (exists name p,
        lookup_get (tag e) shape_tags = Some name
        /\ ShapeBuilder_dispatch name e = Ok p /\ item = DPath p)
  \/ (exists xrefs g, build_xref e xrefs = Ok g /\ item = DGroup g).

(** The style record [apply_styles] gives a new path or group for an
    element. *)
Definition applied_style `{PyFloat num} `{!Collab num} (e : Element)
  (st : gmap string StyleValue) : Prop :=
  exists tr a, apply_styles ∅ None (attrib e) = Ok (st, tr, a).


(** ** Documents *)

(** An element from its tag, its attributes and its children. *)
Definition element (tag : string) (attrs : list (string * string))
  (children : list Element) : Element :=
  mkElement tag (list_to_map attrs) children.

(** The module over binary64 floats and point maps. *)
Abbreviation F := PrimFloat.float.

(** A point with binary64 coordinates. *)
Abbreviation pt := (@mkPoint F).

(** A transform applied to a point, for the point maps over [F]. *)
Definition act : Transform (num := F) -> Point F -> Point F := PointMaps.act.

(** A transform list of two functions. *)
Definition translate_then_scale : string := "translate(10) scale(2)".

(** A group registered as [a], and a reference to it that carries a
    transform of its own and an offset. *)
Definition group_a : Element :=
  element "g" [("id", "a")]
    [element "rect" [("width", "10"); ("height", "4")] []].

Definition use_a_scaled : Element :=
  element "use" [("href", "#a"); ("transform", "scale(2)"); ("x", "10"); ("y", "5")] [].

Definition doc_reuse : Element := element "svg" [] [group_a; use_a_scaled].

(** A reference that comes before the group it names. *)
Definition use_a : Element := element "use" [("href", "#a")] [].

Definition doc_forward : Element := element "svg" [] [use_a; group_a].

(** A rectangle with an identifier, and a reference to it. *)
Definition rect_r : Element :=
  element "rect" [("id", "r"); ("width", "10"); ("height", "4")] [].

Definition doc_rect : Element := element "svg" [] [rect_r].

Definition doc_rect_use : Element :=
  element "svg" [] [rect_r; element "use" [("href", "#r")] []].

(** An ellipse with both radii zero. *)
Definition ellipse_zero : Element := element "ellipse" [("rx", "0"); ("ry", "0")] [].

(** Documents with a viewBox of zero width. *)
Definition doc_zero_viewbox : Element :=
  element "svg" [("viewBox", "0 0 0 10")] [rect_r].

Definition doc_percent_zero_viewbox : Element :=
  element "svg" [("width", "50%"); ("viewBox", "0 0 0 10")] [rect_r].


(** The text of a triangle, and the commands [svg.path] reads from it. *)
Definition triangle_path : string := "M0 0L10 0L5 8Z".

Definition triangle_cmds : list (SvgCmd F) :=
  [CmdMove (pt 0 0) false; CmdLine (pt 10 0) false false false;
   CmdLine (pt 5 8) false false false; CmdClose (pt 0 0)]%float.

(** A cubic curve with a smooth continuation, a line and a second smooth
    element.  For a smooth command [svg.path] supplies a first control
    point of its own, which the converter does not read. *)
Definition smooth_path : string := "M0 0C1 2 3 4 5 6S8 9 10 10L12 0s1 1 2 0".

Definition smooth_cmds : list (SvgCmd F) :=
  [CmdMove (pt 0 0) false; CmdCubicBezier (pt 1 2) (pt 3 4) (pt 5 6) false false;
   CmdCubicBezier (pt 7 8) (pt 8 9) (pt 10 10) false true;
   CmdLine (pt 12 0) false false false;
   CmdCubicBezier (pt 12 0) (pt 13 1) (pt 14 0) true true]%float.

(** The points of a polyline behind the M that [polyline] puts in front. *)
Definition two_points_path : string := "M0,0 10,5".

Definition two_points_cmds : list (SvgCmd F) :=
  [CmdMove (pt 0 0) false; CmdLine (pt 10 5) false false false]%float.

(** An excerpt of [svg.path.parse_path]: the texts above. *)
Definition parse_known_path (s : string) : res (list (SvgCmd F)) :=
  if String.eqb s triangle_path then Ok triangle_cmds
  else if String.eqb s smooth_path then Ok smooth_cmds
  else if String.eqb s two_points_path then Ok two_points_cmds
  else Raise (ValueError ("no reading of the path " +:+ s)).

(** The collaborators of [point_maps] with [svg.path] imported: the
    excerpt of its parser. *)
Definition with_svg_path : Collab F := {|
  Transform := PointMaps.T;
  Transform_new := PointMaps.new;
  Transform_identity := PointMaps.identity;
  matmul := PointMaps.compose;
  Transform_translation := PointMaps.translation;
  Transform_scaling := PointMaps.scaling;
  Transform_rotation := PointMaps.rotation;
  Transform_about := PointMaps.about;
  Transform_shearing := PointMaps.shearing;
  Color := string;
  COLOR_DICT := color_dict;
  color_from_hex_string := hex_color;
  parse_path := Some parse_known_path;
|}.

(** The elements of a path: a cubic curve, a smooth cubic element after
    it, a line, and a relative smooth cubic element after the line. *)
Definition smooth_items : list (PathElement (num := F)) :=
  [Move (pt 0 0); BezierCurve (pt 1 2) (pt 3 4) (pt 5 6);
   SVGSmoothCubicCurve (pt 8 9) (pt 10 10); Line (pt 12 0);
   SVGRelativeSmoothCubicCurve (pt 1 1) (pt 2 0)]%float.

(** A quadratic curve, two smooth quadratic elements in a chain, and a
    smooth cubic element after them. *)
Definition quadratic_items : list (PathElement (num := F)) :=
  [Move (pt 0 0); QuadraticBezierCurve (pt 1 3) (pt 4 4);
   SVGSmoothQuadraticCurve (pt 8 0); SVGRelativeSmoothQuadraticCurve (pt 2 2);
   SVGSmoothCubicCurve (pt 11 1) (pt 12 0)]%float.

(** A polyline of two points. *)
Definition polyline_two : Element := element "polyline" [("points", "0,0 10,5")] [].

(** A rectangle with a fill attribute and a style that assigns the fill. *)
Definition rect_fill_style : Element :=
  element "rect"
    [("width", "10"); ("height", "4"); ("fill", "red"); ("style", "fill: blue")] [].

(** The same attributes on a rectangle without width, and on the root
    element of a document. *)
Definition rect_zero_fill_style : Element :=
  element "rect"
    [("width", "0"); ("height", "4"); ("fill", "red"); ("style", "fill: blue")] [].

Definition doc_root_fill_style : Element :=
  element "svg" [("fill", "red"); ("style", "fill: blue")]
    [element "rect" [("width", "10"); ("height", "4")] []].

(** A rectangle with a fill opacity, a style that assigns the fill opacity,
    and a generic opacity. *)
Definition rect_opacities : Element :=
  element "rect"
    [("width", "10"); ("height", "4"); ("fill-opacity", "0.25");
     ("style", "fill-opacity: 0.5"); ("opacity", "0.75")] [].

(** A rectangle with a fill attribute and a style whose value for the
    fill holds a colon. *)
Definition rect_fill_url : Element :=
  element "rect"
    [("width", "10"); ("height", "4"); ("fill", "red");
     ("style", "fill: url(http://example.com/#blue)")] [].

(** A rectangle with a presentation attribute that [svg_attr_map] does not
    map, and a style that assigns it. *)
Definition rect_visibility : Element :=
  element "rect"
    [("width", "10"); ("height", "4"); ("visibility", "hidden");
     ("style", "visibility: visible")] [].

(** A rectangle whose corner radius exceeds half of each side. *)
Definition rect_round : Element :=
  element "rect" [("width", "10"); ("height", "4"); ("rx", "8")] [].

(** A path with blank data. *)
Definition path_blank : Element := element "path" [("d", "  ")] [].

(** An element with a generic opacity and a fill opacity. *)
Definition opacity_and_fill_opacity : gmap string string :=
  list_to_map [("opacity", "0.5"); ("fill-opacity", "0.25")].

(** A text element with an attribute no converter accepts and a reference
    to nothing. *)
Definition text_unread : Element :=
  element "text" [("fill", "no such colour")] [element "use" [("href", "#nowhere")] []].

(** Definitions that hold a group, a rectangle with an identifier and a
    reference to nothing. *)
Definition defs_mixed : Element :=
  element "defs" [] [group_a; rect_r; element "use" [("href", "#nowhere")] []].

Definition doc_defs : Element := element "svg" [] [defs_mixed; use_a; text_unread].

(** A circle without a radius. *)
Definition circle_no_r : Element := element "circle" [("cx", "1"); ("style", "r: 5")] [].

(** A table that holds an empty path under [#a]. *)
Definition table_a `{Collab num} : gmap string Drawable :=
  <["#a" := DPath PaintedPath_new]> ∅.

(** A document whose viewBox text starts with a blank. *)
Definition doc_blank_viewbox : Element :=
  element "svg" [("viewBox", " 0 0 10 10")] [rect_r].

(** A document with a size, a viewBox and a stretch request. *)
Definition doc_sized : Element :=
  element "svg"
    [("width", "20"); ("height", "50%"); ("viewBox", "0 0 10 4");
     ("preserveAspectRatio", "none")]
    [rect_r].

(** An element filled with a functional colour notation. *)
Definition fill_rgb : gmap string string := list_to_map [("fill", "rgb(255, 0, 0)")].

(** A root element with presentation attributes of its own. *)
Definition doc_root_styled : Element :=
  element "svg" [("fill", "no such colour"); ("transform", "scale(2)")] [rect_r].

(** ** Properties *)

(** The two equations of the bind of [res]. *)
Lemma bind_Ok {A B} (a : A) (k : A -> res B) : (Ok a ≫= k) = k a.
Proof. reflexivity. Qed.

Lemma bind_Raise {A B} (e : exn) (k : A -> res B) : (Raise e ≫= k) = Raise e.
Proof. reflexivity. Qed.

Ltac unfold_bind := unfold mbind, res_bind, bind in *.

(** Case analysis on the scrutinee of the first [match] of a hypothesis. *)
Ltac destruct_match_in H :=
  match type of H with
  | context [match ?x with _ => _ end] => destruct x eqn:?; try discriminate H
  end.

Section Properties.
Context {num : Type} `{!PyFloat num} `{!Collab num}.

Abbreviation XRefs := (gmap string Drawable).

(** *** Smooth curves *)

(** A segment rendered after an element that has an end point resolves, to
    an element that has an end point. *)
Lemma render_element_segment (item : PathElement) (last_item : LastItem)
  (initial_point : Point num) :
  is_segment item = true ->
  is_ok (end_point last_item) = true ->
  exists resolved initial_point',
    render_element item last_item initial_point = Ok (resolved, initial_point')
    /\ is_ok (end_point resolved) = true.
Proof.
  intros Hseg Hlast.
  destruct last_item as [q1 q2 qe|qc qe|[qe|]]; try discriminate Hlast;
    destruct item; try discriminate Hseg; do 2 eexists; split; reflexivity.
Qed.

(** The emission pass is total on segments. *)
Lemma render_items_segments (items : list PathElement) :
  forall (last_item : LastItem) (initial_point : Point num),
  forallb is_segment items = true ->
  is_ok (end_point last_item) = true ->
  exists resolved,
    render_items items last_item initial_point = Ok resolved
    /\ length resolved = length items.
Proof.
  induction items as [|item items IH]; intros last_item initial_point Hseg Hlast.
  - exists []. split; reflexivity.
  - cbn [forallb] in Hseg. apply andb_true_iff in Hseg as [Hitem Hitems].
    destruct (render_element_segment item last_item initial_point Hitem Hlast)
      as (r & init' & Hr & Hend).
    destruct (IH r init' Hitems Hend) as (rs & Hrs & Hlen).
    exists (r :: rs). cbn [render_items]. rewrite Hr. cbn [mbind res_bind bind].
    rewrite Hrs. cbn [mbind res_bind bind length]. now rewrite Hlen.
Qed.

(** The elements of the cubic family, and they alone, resolve to a
    [BezierCurve]; likewise for the quadratic family. *)
Lemma render_element_family (item : PathElement) (last_item resolved : LastItem)
  (initial_point initial_point' : Point num) :
  render_element item last_item initial_point = Ok (resolved, initial_point') ->
  (is_cubic item = true <-> exists c1 c2 e, resolved = LastBezierCurve c1 c2 e)
  /\ (is_quadratic item = true
      <-> exists ctrl e, resolved = LastQuadraticBezierCurve ctrl e).
Proof.
  intros H.
  destruct item; cbn [render_element is_cubic is_quadratic] in *;
    unfold SVGSmoothCubicCurve_render, SVGRelativeSmoothCubicCurve_render,
      SVGSmoothQuadraticCurve_render, SVGRelativeSmoothQuadraticCurve_render in H;
    destruct last_item as [q1 q2 qe|qc qe|[qe|]];
    cbn [end_point mbind res_bind bind] in H; try discriminate H;
    injection H as <- _;
    (split;
     (split;
      [ first [ discriminate | intros _; eauto ]
      | first [ reflexivity | intros (? & ? & ? & [=]) | intros (? & ? & [=]) ] ])).
Qed.

(** A smooth element after an element [last_item] that ends at [cur]. *)
Lemma smooth_render_after (last_item : LastItem) (cur c2 e : Point num) :
  end_point last_item = Ok cur ->
  SVGSmoothCubicCurve_render c2 e last_item
  = Ok (LastBezierCurve
          match last_item with
          | LastBezierCurve _ last_c2 _ => reflection cur last_c2
          | _ => cur
          end c2 e)
  /\ SVGRelativeSmoothCubicCurve_render c2 e last_item
     = Ok (LastBezierCurve
             match last_item with
             | LastBezierCurve _ last_c2 _ => reflection cur last_c2
             | _ => cur
             end (pt_add cur c2) (pt_add cur e))
  /\ SVGSmoothQuadraticCurve_render e last_item
     = Ok (LastQuadraticBezierCurve
             match last_item with
             | LastQuadraticBezierCurve last_ctrl _ => reflection cur last_ctrl
             | _ => cur
             end e)
  /\ SVGRelativeSmoothQuadraticCurve_render e last_item
     = Ok (LastQuadraticBezierCurve
             match last_item with
             | LastQuadraticBezierCurve last_ctrl _ => reflection cur last_ctrl
             | _ => cur
             end (pt_add cur e)).
Proof.
  intros Hcur.
  unfold SVGSmoothCubicCurve_render, SVGRelativeSmoothCubicCurve_render,
    SVGSmoothQuadraticCurve_render, SVGRelativeSmoothQuadraticCurve_render.
  destruct last_item as [q1 q2 qe|qc qe|[qe|]]; cbn [end_point] in Hcur;
    try discriminate Hcur; injection Hcur as ->; repeat split.
Qed.

(** The rule for the first two elements of a list: a smooth element right
    after [prev]. *)
Lemma smooth_after_previous (prev smooth : PathElement) (last_item : LastItem)
  (initial_point : Point num) :
  is_segment prev = true ->
  is_segment smooth = true ->
  is_ok (end_point last_item) = true ->
  exists r_prev r_smooth init1 init2 cur,
    render_element prev last_item initial_point = Ok (r_prev, init1)
    /\ render_element smooth r_prev init1 = Ok (r_smooth, init2)
    /\ is_ok (end_point r_smooth) = true
    /\ end_point r_prev = Ok cur
    /\ leading_control_point prev r_prev cur smooth r_smooth.
Proof.
  intros Hprev Hsmooth Hlast.
  destruct (render_element_segment prev last_item initial_point Hprev Hlast)
    as (r_prev & init1 & Hr & Hend).
  destruct (render_element_segment smooth r_prev init1 Hsmooth Hend)
    as (r_smooth & init2 & Hs & Hend2).
  destruct (end_point r_prev) as [cur|] eqn:Hcur; [|discriminate Hend].
  exists r_prev, r_smooth, init1, init2, cur.
  do 4 (split; [assumption || reflexivity|]).
  destruct (render_element_family _ _ _ _ _ Hr) as [Hcubic Hquad].
  assert (Hc : cubic_rule prev r_prev cur
                 match r_prev with
                 | LastBezierCurve _ last_c2 _ => reflection cur last_c2
                 | _ => cur
                 end).
  { unfold cubic_rule. destruct (is_cubic prev).
    - destruct (proj1 Hcubic eq_refl) as (p1 & p2 & pe & ->).
      cbn [end_point] in Hcur. injection Hcur as ->. eauto.
    - split.
      + intros p1 p2 pe ->.
        assert (false = true) by (apply Hcubic; eauto). discriminate.
      + destruct r_prev as [q1 q2 qe|qc qe|oe]; [|reflexivity..].
        assert (false = true) by (apply Hcubic; eauto). discriminate. }
  assert (Hq : quadratic_rule prev r_prev cur
                 match r_prev with
                 | LastQuadraticBezierCurve last_ctrl _ => reflection cur last_ctrl
                 | _ => cur
                 end).
  { unfold quadratic_rule. destruct (is_quadratic prev).
    - destruct (proj1 Hquad eq_refl) as (pc & pe & ->).
      cbn [end_point] in Hcur. injection Hcur as ->. eauto.
    - split.
      + intros p pe ->.
        assert (false = true) by (apply Hquad; eauto). discriminate.
      + destruct r_prev as [q1 q2 qe|qc qe|oe]; [reflexivity| |reflexivity].
        assert (false = true) by (apply Hquad; eauto). discriminate. }
  unfold leading_control_point.
  destruct smooth; try exact I; cbn [render_element] in Hs.
  - destruct (smooth_render_after r_prev cur c2 end_ Hcur) as (E & _).
    rewrite E in Hs. cbn [mbind res_bind bind] in Hs. injection Hs as <- _.
    eexists. split; [reflexivity | exact Hc].
  - destruct (smooth_render_after r_prev cur c2 end_ Hcur) as (_ & E & _).
    rewrite E in Hs. cbn [mbind res_bind bind] in Hs. injection Hs as <- _.
    eexists. split; [reflexivity | exact Hc].
  - destruct (smooth_render_after r_prev cur cur end_ Hcur) as (_ & _ & E & _).
    rewrite E in Hs. cbn [mbind res_bind bind] in Hs. injection Hs as <- _.
    eexists. split; [reflexivity | exact Hq].
  - destruct (smooth_render_after r_prev cur cur end_ Hcur) as (_ & _ & _ & E).
    rewrite E in Hs. cbn [mbind res_bind bind] in Hs. injection Hs as <- _.
    eexists. split; [reflexivity | exact Hq].
Qed.

(** C1.  The elements of a path are rendered in order, each with the
    element before it, as resolved, for [last_item].  In a list of segments
    rendered from an element that has an end point, take an element
    [smooth] and the element [prev] right before it: the pass resolves every
    element of the list; [prev] resolves to an element [r_prev] that ends at
    the current point [cur]; and when [smooth] is a smooth cubic element
    with the trailing control point [c2] and the endpoint [e], it resolves
    to the cubic curve with the control points [c1] and [c2] (taken from
    [cur] for the relative element), where [c1] is [2 * cur - p2] for the
    last control point [p2] of [r_prev] whenever [prev] is of the cubic
    family (a cubic curve, absolute or relative, or a smooth cubic element,
    which reflects the curve it resolved to), and [c1] is [cur] whenever
    [prev] is any other segment.  The smooth quadratic elements follow the
    same rule with the quadratic family. *)
Theorem smooth_curve_leading_control_point (pre : list PathElement)
  (prev smooth : PathElement) (post : list PathElement) (last_item : LastItem)
  (initial_point : Point num) :
  forallb is_segment (pre ++ prev :: smooth :: post) = true ->
  is_ok (end_point last_item) = true ->
  exists resolved r_prev r_smooth cur,
    render_items (pre ++ prev :: smooth :: post) last_item initial_point = Ok resolved
    /\ length resolved = length (pre ++ prev :: smooth :: post)
    /\ resolved !! length pre = Some r_prev
    /\ resolved !! S (length pre) = Some r_smooth
    /\ end_point r_prev = Ok cur
    /\ leading_control_point prev r_prev cur smooth r_smooth.
Proof.
  revert last_item initial_point.
  induction pre as [|item pre IH]; intros last_item initial_point Hseg Hlast.
  - cbn [app forallb] in Hseg.
    apply andb_true_iff in Hseg as [Hprev Hseg].
    apply andb_true_iff in Hseg as [Hsmooth Hpost].
    destruct (smooth_after_previous prev smooth last_item initial_point
                Hprev Hsmooth Hlast)
      as (r_prev & r_smooth & init1 & init2 & cur & Hr & Hs & Hend & Hcur & Hrule).
    destruct (render_items_segments post r_smooth init2 Hpost Hend)
      as (rs & Hrs & Hlen).
    exists (r_prev :: r_smooth :: rs), r_prev, r_smooth, cur.
    cbn [app render_items]. rewrite Hr. cbn [mbind res_bind bind].
    rewrite Hs. cbn [mbind res_bind bind]. rewrite Hrs.
    cbn [mbind res_bind bind length]. rewrite Hlen.
    repeat split; assumption.
  - cbn [app forallb] in Hseg. apply andb_true_iff in Hseg as [Hitem Hseg].
    destruct (render_element_segment item last_item initial_point Hitem Hlast)
      as (r & init' & Hr & Hend).
    destruct (IH r init' Hseg Hend)
      as (rs & r_prev & r_smooth & cur & Hrs & Hlen & Hp & Hs & Hcur & Hrule).
    exists (r :: rs), r_prev, r_smooth, cur.
    cbn [app render_items]. rewrite Hr. cbn [mbind res_bind bind].
    rewrite Hrs. cbn [mbind res_bind bind length]. rewrite Hlen.
    repeat split; assumption.
Qed.

(** *** The transform compiler *)

Lemma first_some_in {A B} (f : A -> option B) (l : list A) (m : B) :
  fold_right (fun n r => match f n with Some m => Some m | None => r end) None l
  = Some m ->
  exists n, In n l /\ f n = Some m.
Proof.
  induction l as [|x l IH]; cbn [fold_right]; [discriminate|].
  destruct (f x) as [m'|] eqn:Hx.
  - intros [= <-]. exists x. split; [now left | exact Hx].
  - intros H. destruct (IH H) as (n & Hin & Hn). exists n. split; [now right | exact Hn].
Qed.

Lemma transform_match_name s n a len :
  transform_match s = Some (n, a, len) -> In n TRANSFORM_NAMES.
Proof.
  unfold transform_match. intros H.
  apply first_some_in in H as (n' & Hin & Hn).
  repeat destruct_match_in Hn.
  now injection Hn as <- _ _.
Qed.

Lemma findall_go_names s : forall skip,
  Forall (fun tf => In (fst tf) TRANSFORM_NAMES) (findall_go s skip).
Proof.
  induction s as [|c s IH]; intros skip; cbn [findall_go].
  - constructor.
  - destruct skip as [|k]; [|apply IH].
    destruct (transform_match (String c s)) as [[[n a] len]|] eqn:Hm; [|apply IH].
    constructor; [|apply IH]. cbn. eapply transform_match_name, Hm.
Qed.

Lemma findall_names tfstr :
  Forall (fun tf => In (fst tf) TRANSFORM_NAMES) (TRANSFORM_GETTER_findall tfstr).
Proof. apply findall_go_names. Qed.

(** A function of the list that the loop accepted has a transform of its
    own that the loop composes on the left of whatever it has accumulated. *)
Lemma convert_transform_step_delta tfstr tf t t' :
  In (fst tf) TRANSFORM_NAMES ->
  convert_transform_step tfstr t tf = Ok t' ->
  exists delta, forall existing,
    convert_transform_step tfstr existing tf = Ok (delta @ existing).
Proof.
  destruct tf as [tf_type args]. cbn [fst]. unfold TRANSFORM_NAMES.
  intros Hin H.
  repeat (destruct Hin as [<-|Hin];
    [ unfold convert_transform_step in *; cbn [String.eqb Ascii.eqb Bool.eqb] in *;
      unfold_bind;
      repeat destruct_match_in H;
      eexists; intros existing; reflexivity | ]).
  destruct Hin.
Qed.

Lemma convert_transforms_loop_deltas tfstr parsed : forall t T,
  Forall (fun tf => In (fst tf) TRANSFORM_NAMES) parsed ->
  convert_transforms_loop tfstr parsed t = Ok T ->
  exists fs,
    Forall2 (fun tf f => forall existing,
               convert_transform_step tfstr existing tf = Ok (f @ existing)) parsed fs
    /\ T = precompose_all fs t.
Proof.
  induction parsed as [|tf parsed IH]; intros t T Hnames H; cbn in H.
  - injection H as <-. exists []. split; [constructor | reflexivity].
  - inversion Hnames as [|? ? Hn Hns]; subst.
    unfold_bind. destruct (convert_transform_step tfstr t tf) as [t1|] eqn:Hstep;
      [|discriminate].
    destruct (convert_transform_step_delta _ _ _ _ Hn Hstep) as [delta Hdelta].
    destruct (IH _ _ Hns H) as (fs & Hfs & ->).
    exists (delta :: fs). split; [constructor; assumption|].
    rewrite Hdelta in Hstep. injection Hstep as <-. reflexivity.
Qed.

Section Action.
(** How a transform moves a point, for a composition [@] that applies its
    left operand first. *)
Variable act : Transform -> Point num -> Point num.
Hypothesis act_matmul : forall A B p, act (A @ B) p = act B (act A p).
Hypothesis act_identity : forall p, act Transform_identity p = p.

Lemma act_precompose_all fs : forall start p,
  act (precompose_all fs start) p = act start (apply_last_first act fs p).
Proof.
  induction fs as [|f fs IH]; intros start p; cbn.
  - reflexivity.
  - unfold precompose_all in IH. rewrite IH, act_matmul. reflexivity.
Qed.

(** C2 (as amended).  When [convert_transforms] accepts a transform list,
    each function [fi] of the text, in textual order, has a transform of
    its own that the loop composes on the left of the accumulated result
    ([new = delta @ existing]), starting from the identity; applied to a
    point, the result applies the last function first and the first
    function last; and for a list of two functions the result is
    [f2 @ (f1 @ identity)]. *)
Theorem convert_transforms_precomposes (tfstr : string) (T : Transform) :
  convert_transforms tfstr = Ok T ->
  exists fs : list Transform,
    Forall2 (fun tf f => forall existing,
               convert_transform_step tfstr existing tf = Ok (f @ existing))
      (TRANSFORM_GETTER_findall tfstr) fs
    /\ T = precompose_all fs Transform_identity
    /\ (forall p, act T p = apply_last_first act fs p)
    /\ (forall f1 f2, fs = [f1; f2] -> T = f2 @ (f1 @ Transform_identity)).
Proof.
  unfold convert_transforms. intros H.
  destruct (convert_transforms_loop_deltas _ _ _ _ (findall_names tfstr) H)
    as (fs & Hfs & ->).
  exists fs. repeat split; try assumption.
  - intros p. rewrite act_precompose_all. apply act_identity.
  - intros f1 f2 ->. reflexivity.
Qed.
End Action.

(** *** The document walker *)

Lemma build_group_unfold (group : Element) pdf_group (xrefs : XRefs) :
  build_group group pdf_group xrefs =
  ('(pdf_group, group_attrib) ← group_start group pdf_group;
   '(pdf_group, xrefs) ← build_children (children group) pdf_group xrefs;
   Ok (pdf_group, register group_attrib (DGroup pdf_group) xrefs)).
Proof.
  destruct group as [t a cs], pdf_group; cbn [build_group];
    unfold group_start, build_children, build_child; cbn [children attrib];
    reflexivity.
Qed.

Lemma apply_styles_attrib style transform a style' transform' a' :
  apply_styles style transform a = Ok (style', transform', a') ->
  a' = parse_style a.
Proof.
  unfold apply_styles. unfold_bind. intros H.
  repeat destruct_match_in H. now injection H as _ _ <-.
Qed.

(** The tags of the walker are pairwise distinct. *)
Lemma tag_in_cases (e : Element) (name : string) :
  tag_in e name = true -> tag e = xmlns "svg" name \/ tag e = name.
Proof.
  unfold tag_in, xmlns_lookup, lookup_in. cbn [flat_map existsb app fst].
  rewrite !orb_true_iff.
  intros [H|[H|H]]; [left|right|discriminate]; now apply String.eqb_eq.
Qed.

Lemma use_is_only_use (e : Element) :
  tag_in e "use" = true ->
  tag_in e "defs" = false /\ tag_in e "g" = false /\ tag_in e "path" = false
  /\ lookup_get (tag e) shape_tags = None.
Proof.
  intros H. apply tag_in_cases in H. unfold tag_in.
  destruct H as [-> | ->]; vm_compute; auto.
Qed.

(** A [use] element without a reference, or with a reference the table does
    not hold, stops [build_xref] with an error. *)
Lemma build_xref_unresolved (xref : Element) (xrefs : XRefs) :
  resolves xref xrefs = false -> exists e, build_xref xref xrefs = Raise e.
Proof.
  unfold resolves, reference_of, build_xref. unfold_bind. intros H.
  destruct (apply_styles ∅ None (attrib xref)) as [[[style transform] a]|e] eqn:Hs;
    [|eauto].
  apply apply_styles_attrib in Hs as ->.
  destruct (find_ref _ (parse_style (attrib xref))) as [ref|]; [|eauto].
  destruct (xrefs !! ref) eqn:Href; [|eauto].
  rewrite bool_decide_eq_false in H. destruct H. eauto.
Qed.

Lemma build_child_use_unresolved (child : Element) g (xrefs : XRefs) :
  tag_in child "use" = true -> resolves child xrefs = false ->
  exists e, build_child child g xrefs = Raise e.
Proof.
  intros Huse Hres.
  destruct (use_is_only_use _ Huse) as (Hd & Hg & Hp & Hs).
  destruct (build_xref_unresolved _ _ Hres) as [e He].
  exists e. unfold build_child, build_child_with. unfold_bind.
  rewrite Hd, Hg, Hp, Hs, Huse, He. reflexivity.
Qed.

(** An exception raised for a child stops the loop over the children. *)
Lemma build_children_raise pre : forall child post g (xrefs : XRefs) g1 x1 e,
  build_children pre g xrefs = Ok (g1, x1) ->
  build_child child g1 x1 = Raise e ->
  build_children (pre ++ child :: post) g xrefs = Raise e.
Proof.
  induction pre as [|c pre IH]; intros child post g xrefs g1 x1 e Hpre Hc.
  - cbn [build_children] in Hpre. injection Hpre as <- <-.
    cbn [build_children app]. unfold_bind. now rewrite Hc.
  - cbn [build_children app] in *. unfold_bind.
    destruct (build_child c g xrefs) as [[g2 x2]|]; [|discriminate].
    eapply IH; eassumption.
Qed.

(** An exception raised while a nested group is built stops the parent. *)
Lemma build_child_group_raise (child : Element) g (xrefs : XRefs) e :
  tag_in child "g" = true ->
  build_group child None xrefs = Raise e ->
  build_child child g xrefs = Raise e.
Proof.
  intros Hg He. unfold build_child, build_child_with. unfold_bind.
  assert (tag_in child "defs" = false) as ->.
  { apply tag_in_cases in Hg. unfold tag_in. destruct Hg as [-> | ->]; reflexivity. }
  now rewrite Hg, He.
Qed.

(** An exception raised by the walk stops the conversion. *)
Lemma SVGObject_init_raise (svg_tree : Element) e :
  build_group svg_tree
    (Some (set_style (set_style (set_style GraphicsContext_new "stroke_width" PyNone)
             "auto_close" (VBool false)) "stroke_cap_style" (VStr "butt"))) ∅ = Raise e ->
  exists e', SVGObject_init svg_tree = Raise e'.
Proof.
  intros H. unfold SVGObject_init, convert_graphics. unfold_bind.
  destruct (negb _); [eauto|].
  destruct (extract_shape_info svg_tree) as [[[[? ?] ?] ?]|]; [|eauto].
  rewrite H. eauto.
Qed.

(** C4.  A [use] element among the children of a group (or of the root)
    that the walk reaches with a table in which its reference is not
    registered -- because it names an identifier registered only later, or
    never, or because the element has no reference attribute at all --
    stops [build_group] with an error. *)
Theorem unresolved_use_fails (group : Element) (pdf_group : option GraphicsContext)
  (xrefs : XRefs) (pre : list Element) (use : Element) (post : list Element) :
  children group = pre ++ use :: post ->
  tag_in use "use" = true ->
  (forall g0 a0 g1 x1,
     group_start group pdf_group = Ok (g0, a0) ->
     build_children pre g0 xrefs = Ok (g1, x1) ->
     resolves use x1 = false) ->
  exists e, build_group group pdf_group xrefs = Raise e.
Proof.
  intros Hcs Huse Hreach. rewrite build_group_unfold, Hcs. unfold_bind.
  destruct (group_start group pdf_group) as [[g0 a0]|e0] eqn:Hstart; [|eauto].
  destruct (build_children pre g0 xrefs) as [[g1 x1]|e1] eqn:Hpre.
  - specialize (Hreach _ _ _ _ eq_refl Hpre).
    destruct (build_child_use_unresolved use g1 x1 Huse Hreach) as [e He].
    erewrite build_children_raise by eassumption. eauto.
  - assert (build_children (pre ++ use :: post) g0 xrefs = Raise e1) as ->; [|eauto].
    clear -Hpre. revert g0 xrefs Hpre.
    induction pre as [|c pre IH]; intros g0 xrefs Hpre; [discriminate|].
    cbn [build_children app] in *. unfold_bind.
    destruct (build_child c g0 xrefs) as [[g2 x2]|]; [|assumption].
    now apply IH.
Qed.

Lemma g_is_only_g (e : Element) :
  tag_in e "g" = true ->
  tag_in e "defs" = false /\ tag_in e "path" = false /\ tag_in e "use" = false
  /\ lookup_get (tag e) shape_tags = None.
Proof.
  intros H. apply tag_in_cases in H. unfold tag_in.
  destruct H as [-> | ->]; vm_compute; auto.
Qed.

Lemma path_is_only_path (e : Element) :
  tag_in e "path" = true ->
  tag_in e "defs" = false /\ tag_in e "g" = false /\ tag_in e "use" = false.
Proof.
  intros H. apply tag_in_cases in H. unfold tag_in.
  destruct H as [-> | ->]; vm_compute; auto.
Qed.

Lemma shape_is_only_shape (e : Element) (name : string) :
  lookup_get (tag e) shape_tags = Some name ->
  tag_in e "defs" = false /\ tag_in e "g" = false /\ tag_in e "path" = false
  /\ tag_in e "use" = false.
Proof.
  unfold lookup_get. set (st := rev shape_tags). vm_compute in st. subst st.
  cbn [find fst]. intros H. unfold tag_in.
  repeat match type of H with
         | context [if String.eqb (tag e) ?s then _ else _] =>
             destruct (String.eqb_spec (tag e) s) as [Heq|_];
             [rewrite Heq; vm_compute; auto|]
         end.
  discriminate.
Qed.

(** [build_path] registers the path it returns under its [id]. *)
Lemma build_path_registers (path : Element) (xrefs : XRefs) pdf_path x' id :
  build_path path xrefs = Ok (pdf_path, x') ->
  parse_style (attrib path) !! "id" = Some id ->
  x' !! ("#" +:+ id) = Some (DPath pdf_path).
Proof.
  unfold build_path. unfold_bind. intros H Hid.
  destruct (apply_styles ∅ None (attrib path)) as [[[style transform] a]|] eqn:Hs;
    [|discriminate].
  apply apply_styles_attrib in Hs as ->.
  destruct_match_in H. injection H as <- <-.
  unfold register. rewrite Hid. apply lookup_insert_eq.
Qed.

(** [build_group] registers the group it returns under its [id]. *)
Lemma build_group_registers (group : Element) pdf_group (xrefs : XRefs) g0 a0 g x' id :
  group_start group pdf_group = Ok (g0, a0) ->
  build_group group pdf_group xrefs = Ok (g, x') ->
  a0 !! "id" = Some id ->
  x' !! ("#" +:+ id) = Some (DGroup g).
Proof.
  intros Hstart H Hid. rewrite build_group_unfold, Hstart in H. unfold_bind.
  destruct (build_children (children group) g0 xrefs) as [[g1 x1]|]; [|discriminate].
  injection H as <- <-. unfold register. rewrite Hid. apply lookup_insert_eq.
Qed.

(** The group a [use] element builds wraps the item the table holds for its
    reference. *)
Lemma build_xref_wraps (xref : Element) (xrefs : XRefs) g :
  build_xref xref xrefs = Ok g ->
  exists ref item,
    reference_of xref = Some ref /\ xrefs !! ref = Some item /\ gc_items g = [item].
Proof.
  unfold build_xref, reference_of. unfold_bind. intros H.
  destruct (apply_styles ∅ None (attrib xref)) as [[[style transform] a]|] eqn:Hs;
    [|discriminate].
  apply apply_styles_attrib in Hs as ->.
  destruct (find_ref _ (parse_style (attrib xref))) as [ref|]; [|discriminate].
  destruct (xrefs !! ref) as [item|] eqn:Href; [|discriminate].
  exists ref, item. repeat split; try assumption.
  repeat destruct_match_in H; injection H as <-; reflexivity.
Qed.

(** What the body of the loop does for a child, by its tag. *)
Lemma build_child_g (child : Element) g (xrefs : XRefs) :
  tag_in child "g" = true ->
  build_child child g xrefs =
  ('(gg, x1) ← build_group child None xrefs; Ok (add_item g (DGroup gg), x1)).
Proof.
  intros Hg. destruct (g_is_only_g _ Hg) as (Hd & Hp & Hu & Hs).
  unfold build_child, build_child_with. rewrite Hd, Hg, Hp, Hs, Hu.
  unfold_bind. destruct (build_group child None xrefs) as [[gg x1]|]; reflexivity.
Qed.

Lemma build_child_path (child : Element) g (xrefs : XRefs) :
  tag_in child "path" = true ->
  build_child child g xrefs =
  ('(pp, x1) ← build_path child xrefs; Ok (add_item g (DPath pp), x1)).
Proof.
  intros Hp. destruct (path_is_only_path _ Hp) as (Hd & Hg & Hu).
  unfold build_child, build_child_with. rewrite Hd, Hg, Hp, Hu.
  unfold_bind. destruct (build_path child xrefs) as [[pp x1]|]; reflexivity.
Qed.

Lemma build_child_shape (child : Element) g (xrefs : XRefs) name :
  lookup_get (tag child) shape_tags = Some name ->
  build_child child g xrefs =
  (p ← ShapeBuilder_dispatch name child; Ok (add_item g (DPath p), xrefs)).
Proof.
  intros Hs. destruct (shape_is_only_shape _ _ Hs) as (Hd & Hg & Hp & Hu).
  unfold build_child, build_child_with. rewrite Hd, Hg, Hp, Hs, Hu.
  unfold_bind. destruct (ShapeBuilder_dispatch name child); reflexivity.
Qed.

Lemma build_child_use (child : Element) g (xrefs : XRefs) :
  tag_in child "use" = true ->
  build_child child g xrefs =
  (gg ← build_xref child xrefs; Ok (add_item g (DGroup gg), xrefs)).
Proof.
  intros Hu. destruct (use_is_only_use _ Hu) as (Hd & Hg & Hp & Hs).
  unfold build_child, build_child_with. rewrite Hd, Hg, Hp, Hs, Hu.
  unfold_bind. destruct (build_xref child xrefs); reflexivity.
Qed.

Lemma group_start_None_attrib (group : Element) g0 a0 :
  group_start group None = Ok (g0, a0) -> a0 = parse_style (attrib group).
Proof.
  unfold group_start. intros H.
  destruct (apply_styles ∅ None (attrib group)) as [[[s t] a]|] eqn:Hs;
    [|discriminate].
  apply apply_styles_attrib in Hs as ->. now injection H as _ <-.
Qed.

Lemma build_group_ok_start (group : Element) pg (xrefs : XRefs) g x' :
  build_group group pg xrefs = Ok (g, x') ->
  exists g0 a0, group_start group pg = Ok (g0, a0).
Proof.
  rewrite build_group_unfold. intros H.
  destruct (group_start group pg) as [[g0 a0]|]; [eauto|discriminate].
Qed.

(** The loop of [handle_defs] over a list that holds the element [d]: the
    elements before [d], then [d], then the rest, each from the table the
    one before it left. *)
Lemma handle_defs_loop_app (rec : Element -> XRefs -> res (GraphicsContext * XRefs))
  (pre : list Element) (d : Element) (post : list Element) :
  forall xrefs x' : XRefs,
  handle_defs_loop rec (pre ++ d :: post) xrefs = Ok x' ->
  exists x0 x1,
    handle_defs_loop rec pre xrefs = Ok x0
    /\ handle_defs_loop rec [d] x0 = Ok x1
    /\ handle_defs_loop rec post x1 = Ok x'.
Proof.
  induction pre as [|c pre IH]; intros xrefs x'.
  - cbn [app handle_defs_loop]. intros H. exists xrefs.
    destruct (if tag_in d "g" then _ else _) as [xa|]; [|discriminate H].
    rewrite bind_Ok in H |- *.
    destruct (if tag_in d "path" then _ else _) as [xb|]; [|discriminate H].
    rewrite bind_Ok in H |- *. exists xb. repeat split. exact H.
  - cbn [app handle_defs_loop]. intros H.
    destruct (if tag_in c "g" then _ else _) as [xa|]; [|discriminate H].
    rewrite bind_Ok in H |- *.
    destruct (if tag_in c "path" then _ else _) as [xb|]; [|discriminate H].
    rewrite bind_Ok in H |- *. exact (IH _ _ H).
Qed.

(** C5 (as amended).  Every [g] or [path] element the walker builds that
    carries an [id] (after its [style] attribute is unpacked) has its built
    subtree registered under ["#" + id]: whenever [build_group] builds a
    group for an element, and whenever [build_path] builds a path, the
    table returned holds the group or the path under that key.  So it is
    for a child of a group, where the registered subtree is the item
    appended to the parent, and for a child of [defs], where it is
    registered in the table the rest of the loop goes on from.  A child
    that is a basic shape or a [use] element leaves the table as it was,
    whether or not it carries an [id]. *)
Theorem identified_group_or_path_is_registered :
  (forall (group : Element) (xrefs : XRefs) g x' id,
     build_group group None xrefs = Ok (g, x') ->
     parse_style (attrib group) !! "id" = Some id ->
     x' !! ("#" +:+ id) = Some (DGroup g))
  /\ (forall (path : Element) (xrefs : XRefs) p x' id,
        build_path path xrefs = Ok (p, x') ->
        parse_style (attrib path) !! "id" = Some id ->
        x' !! ("#" +:+ id) = Some (DPath p))
  /\ (forall (child : Element) (g : GraphicsContext) (xrefs : XRefs) g' x',
        build_child child g xrefs = Ok (g', x') ->
        (tag_in child "g" || tag_in child "path" = true ->
         forall id, parse_style (attrib child) !! "id" = Some id ->
         exists item,
           x' !! ("#" +:+ id) = Some item /\ gc_items g' = gc_items g ++ [item])
        /\ (tag_in child "use" = true \/ is_Some (lookup_get (tag child) shape_tags) ->
            x' = xrefs))
  /\ (forall (defs : Element) (pre : list Element) (d : Element) (post : list Element)
        (xrefs : XRefs) x' id,
        children defs = pre ++ d :: post ->
        handle_defs defs xrefs = Ok x' ->
        tag_in d "g" || tag_in d "path" = true ->
        parse_style (attrib d) !! "id" = Some id ->
        exists x0 x1 item,
          handle_defs (mkElement (tag defs) (attrib defs) pre) xrefs = Ok x0
          /\ ((exists g, build_group d None x0 = Ok (g, x1) /\ item = DGroup g)
              \/ (exists p, build_path d x0 = Ok (p, x1) /\ item = DPath p))
          /\ x1 !! ("#" +:+ id) = Some item
          /\ handle_defs (mkElement (tag defs) (attrib defs) post) x1 = Ok x').
Proof.
  assert (Hgroup : forall (group : Element) (xrefs : XRefs) g x' id,
            build_group group None xrefs = Ok (g, x') ->
            parse_style (attrib group) !! "id" = Some id ->
            x' !! ("#" +:+ id) = Some (DGroup g)).
  { intros group xrefs g x' id Hb Hid.
    destruct (build_group_ok_start _ _ _ _ _ Hb) as (g0 & a0 & Hstart).
    eapply build_group_registers; try eassumption.
    apply group_start_None_attrib in Hstart as ->. exact Hid. }
  split; [exact Hgroup|]. split; [exact build_path_registers|]. split.
  - intros child g xrefs g' x' H. split.
    + intros Htag id Hid. apply orb_true_iff in Htag as [Hg | Hp].
      * rewrite (build_child_g _ _ _ Hg) in H.
        destruct (build_group child None xrefs) as [[gg x1]|] eqn:Hb; [|discriminate].
        injection H as <- <-. exists (DGroup gg). split; [|reflexivity].
        eapply Hgroup; eassumption.
      * rewrite (build_child_path _ _ _ Hp) in H.
        destruct (build_path child xrefs) as [[pp x1]|] eqn:Hb; [|discriminate].
        injection H as <- <-. exists (DPath pp). split; [|reflexivity].
        eapply build_path_registers; eassumption.
    + intros [Hu | [name Hs]].
      * rewrite (build_child_use _ _ _ Hu) in H.
        destruct (build_xref child xrefs); [|discriminate]. now injection H as _ <-.
      * rewrite (build_child_shape _ _ _ _ Hs) in H.
        destruct (ShapeBuilder_dispatch name child); [|discriminate].
        now injection H as _ <-.
  - intros defs pre d post xrefs x' id Hcs H Htag Hid.
    unfold handle_defs, handle_defs_with in *. cbn [children]. rewrite Hcs in H.
    apply handle_defs_loop_app in H as (x0 & x1 & Hpre & Hd & Hpost).
    exists x0, x1. cbn [handle_defs_loop] in Hd.
    apply orb_true_iff in Htag as [Hg | Hp].
    + destruct (g_is_only_g _ Hg) as (_ & Hp & _). rewrite Hg, Hp in Hd.
      destruct (build_group d None x0) as [[gg xa]|] eqn:Hb; [|discriminate Hd].
      rewrite !bind_Ok in Hd. injection Hd as <-.
      exists (DGroup gg). split; [exact Hpre|]. split; [left; eauto|].
      split; [|exact Hpost]. eapply Hgroup; eassumption.
    + destruct (path_is_only_path _ Hp) as (_ & Hg & _). rewrite Hg, Hp in Hd.
      rewrite bind_Ok in Hd.
      destruct (build_path d x0) as [[pp xa]|] eqn:Hb; [|discriminate Hd].
      rewrite !bind_Ok in Hd. injection Hd as <-.
      exists (DPath pp). split; [exact Hpre|]. split; [right; eauto|].
      split; [|exact Hpost]. eapply build_path_registers; eassumption.
Qed.

(** *** The viewport scaler *)

(** Dividing by a zero extent raises [ZeroDivisionError]. *)
Lemma truediv_zero (a b : num) :
  feqb b zero = true -> truediv a b = Raise (ZeroDivisionError "float division by zero").
Proof. unfold truediv. now intros ->. Qed.

(** C9 (as amended).  For a document whose viewBox has zero width or zero
    height, when the viewport width and height resolve (no top-level
    percentage is left without a viewport dimension) and the scale factor
    is 1 or is not zero, [transform_to_rect_viewport] returns width 0,
    height 0 and an empty group: it raises no error, and so divides by
    neither extent. *)
Theorem zero_area_viewbox_short_circuits (self : SVGObject)
  (scale width_ height_ : num) (align_viewbox ignore_svg_top_attrs : bool)
  (vx vy vw vh : num) :
  viewbox self = Some (vx, vy, vw, vh) ->
  feqb vw zero || feqb vh zero = true ->
  is_ok (viewport_dimension ignore_svg_top_attrs (width self) width_ "width") = true ->
  is_ok (viewport_dimension ignore_svg_top_attrs (height self) height_ "height") = true ->
  feqb scale one || negb (feqb scale zero) = true ->
  transform_to_rect_viewport self scale width_ height_ align_viewbox ignore_svg_top_attrs
  = Ok (zero, zero, GraphicsContext_new).
Proof.
  intros Hvb Hzero Hw Hh Hscale. unfold transform_to_rect_viewport.
  destruct (viewport_dimension ignore_svg_top_attrs (width self) width_ "width")
    as [vp_width|]; [|discriminate].
  destruct (viewport_dimension ignore_svg_top_attrs (height self) height_ "height")
    as [vp_height|]; [|discriminate].
  rewrite Hvb. cbn [mbind res_bind bind].
  destruct (feqb scale one) eqn:H1.
  - cbn [mbind res_bind bind]. now rewrite Hzero.
  - cbn [orb] in Hscale. apply negb_true_iff in Hscale.
    unfold truediv. rewrite Hscale. cbn [mbind res_bind bind]. now rewrite Hzero.
Qed.

(** *** The style mapper *)

Lemma declared_value_init elements k : forall init,
  declared_value elements k init =
  match declared_value elements k None with
  | Some v => Some v
  | None => init
  end.
Proof.
  unfold declared_value.
  induction elements as [|el elements IH]; intros init; cbn [fold_left].
  - reflexivity.
  - rewrite (IH (match declaration el with
                 | Some (attr, value) => if String.eqb attr k then Some value else init
                 | None => init
                 end)).
    rewrite (IH (match declaration el with
                 | Some (attr, value) => if String.eqb attr k then Some value else None
                 | None => None
                 end)).
    destruct (fold_left _ elements None); [reflexivity|].
    destruct (declaration el) as [[attr value]|]; [|reflexivity].
    now destruct (String.eqb attr k).
Qed.

(** What the map holds for a key after the loop of [parse_style]. *)
Lemma parse_style_loop_lookup elements k : forall attrib : gmap string string,
  parse_style_loop elements attrib !! k = declared_value elements k (attrib !! k).
Proof.
  unfold declared_value.
  induction elements as [|el elements IH]; intros attrib;
    cbn [parse_style_loop fold_left].
  - reflexivity.
  - unfold declaration.
    destruct (String.eqb_spec el EmptyString) as [->|Hne].
    + rewrite IH. reflexivity.
    + destruct (split_on ":" el) as [|attr [|value [|? ?]]]; try apply IH.
      destruct (negb (String.eqb attr EmptyString) && negb (String.eqb value EmptyString));
        [|apply IH].
      rewrite IH. f_equal.
      destruct (String.eqb_spec (strip attr) k) as [->|Hk].
      * apply lookup_insert_eq.
      * now apply lookup_insert_ne.
Qed.

(** The style wins over the individual attribute in the attribute map:
    [parse_style] leaves the declared value under the key, and the map it
    builds is the one it builds for the element whose attribute has that
    value. *)
Lemma style_overrides (attrib : gmap string string) (style k a0 v : string) :
  attrib !! k = Some a0 ->
  attrib !! "style" = Some style ->
  k <> "style" ->
  style_declares style k = Some v ->
  parse_style attrib !! k = Some v
  /\ parse_style attrib = parse_style (<[k := v]> attrib).
Proof.
  intros Hk Hstyle Hne Hdecl. unfold style_declares in Hdecl.
  split.
  - unfold parse_style. rewrite Hstyle, parse_style_loop_lookup,
      declared_value_init, Hdecl. reflexivity.
  - unfold parse_style. rewrite lookup_insert_ne, Hstyle by congruence.
    apply map_eq. intros j. rewrite !parse_style_loop_lookup.
    destruct (decide (k = j)) as [<-|Hj].
    + rewrite declared_value_init, Hdecl. symmetry.
      rewrite declared_value_init, Hdecl. reflexivity.
    + now rewrite lookup_insert_ne.
Qed.

(** *** The unit resolver *)

Lemma has_space_app (a b : string) :
  has_space (a +:+ b) = has_space a || has_space b.
Proof.
  induction a as [|c a IH]; [reflexivity|].
  change (String c a +:+ b) with (String c (a +:+ b)). cbn [has_space].
  now rewrite IH, orb_assoc.
Qed.

Lemma last_word_app (a b : string) :
  has_space b = true -> last_word (a +:+ b) = last_word b.
Proof.
  intros Hb. induction a as [|c a IH]; [reflexivity|].
  change (String c a +:+ b) with (String c (a +:+ b)). cbn [last_word].
  now rewrite has_space_app, Hb, orb_true_r.
Qed.

Lemma last_word_after_space (a u : string) :
  has_space u = false -> last_word (a +:+ " " +:+ u) = u.
Proof.
  intros Hu. rewrite last_word_app.
  - change (" " +:+ u) with (String " " u). cbn [last_word]. now rewrite Hu.
  - reflexivity.
Qed.

Lemma last_word_relative_message (s u : string) :
  has_space u = false ->
  last_word (s +:+ " uses unsupported relative length " +:+ u) = u.
Proof.
  intros Hu.
  change (" uses unsupported relative length " +:+ u)
    with (" uses unsupported relative length" +:+ " " +:+ u).
  rewrite last_word_app by reflexivity. now apply last_word_after_space.
Qed.

Lemma last_word_unrecognized_message (s u : string) :
  has_space u = false ->
  last_word (s +:+ " contains unrecognized unit " +:+ u) = u.
Proof.
  intros Hu.
  change (" contains unrecognized unit " +:+ u)
    with (" contains unrecognized unit" +:+ " " +:+ u).
  rewrite last_word_app by reflexivity. now apply last_word_after_space.
Qed.

Lemma span_alpha_no_space (s : string) : has_space (fst (span is_alpha s)) = false.
Proof.
  induction s as [|c s IH]; cbn [span]; [reflexivity|].
  destruct (is_alpha c) eqn:Hc; [|reflexivity].
  destruct (span is_alpha s) as [a b]. cbn [fst has_space] in *.
  rewrite IH, orb_false_r.
  destruct (Ascii.eqb_spec c " ") as [->|]; [discriminate Hc | reflexivity].
Qed.

Lemma unit_group_no_space (s : string) :
  has_space match s with
            | String "%" _ => "%"
            | _ => fst (span is_alpha s)
            end = false.
Proof.
  destruct s as [|c r]; [reflexivity|].
  destruct c as [[] [] [] [] [] [] [] []];
    first [reflexivity | apply (span_alpha_no_space (String _ r))].
Qed.

(** The unit token of a length has no space in it. *)
Lemma unit_token_no_space (s value unit : string) :
  unit_splitter_match s = Some (value, unit) -> has_space unit = false.
Proof.
  unfold unit_splitter_match. intros H.
  destruct (match skip_space s with
            | String c s' => if is_sign c then _ else _
            | EmptyString => _
            end) as [sign s2].
  destruct (span is_numchar s2) as [digits s3].
  destruct digits; [discriminate|]. injection H as _ <-.
  apply unit_group_no_space.
Qed.

Lemma str_in_In (s : string) (l : list string) : str_in s l = true -> In s l.
Proof.
  unfold str_in. rewrite existsb_exists. intros (x & Hin & Heq).
  apply String.eqb_eq in Heq. now subst.
Qed.

(** A relative unit has no space in it, and is no key of the table of the
    absolute units. *)
Lemma relative_unit_facts (unit : string) :
  str_in unit relative_length_units = true ->
  has_space unit = false /\ absolute_length_units !! unit = None.
Proof.
  intros H. apply str_in_In in H. unfold relative_length_units in H.
  cbn [In] in H.
  repeat (destruct H as [<-|H]; [split; vm_compute; reflexivity|]).
  destruct H.
Qed.

(** C8.  For a length whose number [float] accepts and whose unit is a
    relative unit (recognized, not supported), and a length whose number
    [float] accepts and whose unit is neither relative nor absolute (not
    recognized), [resolve_length] raises in both cases and returns no
    value; the error of the relative unit, whose message ends in [uses
    unsupported relative length] and the unit, is never the error of the
    unrecognized unit, whose message ends in [contains unrecognized unit]
    and the unit: the caller can tell the two cases apart. *)
Theorem relative_unit_error_is_distinct (s1 d1 v1 t1 s2 d2 v2 t2 : string) :
  unit_splitter_match s1 = Some (v1, t1) ->
  unit_splitter_match s2 = Some (v2, t2) ->
  is_Some (float_str v1) ->
  is_Some (float_str v2) ->
  str_in (effective_unit t1 d1) relative_length_units = true ->
  str_in (effective_unit t2 d2) relative_length_units = false ->
  absolute_length_units !! effective_unit t2 d2 = None ->
  has_space d2 = false ->
  resolve_length s1 d1
  = Raise (ValueError
      (s1 +:+ " uses unsupported relative length " +:+ effective_unit t1 d1))
  /\ resolve_length s2 d2
     = Raise (ValueError
         (s2 +:+ " contains unrecognized unit " +:+ effective_unit t2 d2))
  /\ resolve_length s1 d1 <> resolve_length s2 d2.
Proof.
  intros Hm1 Hm2 [x1 Hv1] [x2 Hv2] Hrel Hnrel Hnabs Hd2.
  destruct (relative_unit_facts _ Hrel) as [Hsp1 Habs1].
  assert (Hsp2 : has_space (effective_unit t2 d2) = false).
  { unfold effective_unit. destruct (String.eqb t2 EmptyString); [assumption|].
    eapply unit_token_no_space, Hm2. }
  assert (H1 : resolve_length s1 d1
    = Raise (ValueError
        (s1 +:+ " uses unsupported relative length " +:+ effective_unit t1 d1))).
  { unfold resolve_length, unit_groups, float, effective_unit in *.
    rewrite Hm1. cbn [mbind res_bind bind]. rewrite Hv1. cbn [mbind res_bind bind].
    now rewrite Habs1, Hrel. }
  assert (H2 : resolve_length s2 d2
    = Raise (ValueError
        (s2 +:+ " contains unrecognized unit " +:+ effective_unit t2 d2))).
  { unfold resolve_length, unit_groups, float, effective_unit in *.
    rewrite Hm2. cbn [mbind res_bind bind]. rewrite Hv2. cbn [mbind res_bind bind].
    now rewrite Hnabs, Hnrel. }
  repeat split; try assumption.
  rewrite H1, H2. intros [= Heq].
  apply (f_equal last_word) in Heq.
  rewrite last_word_relative_message, last_word_unrecognized_message in Heq
    by assumption.
  rewrite Heq, Hnrel in Hrel. discriminate.
Qed.

(** *** Inherit, and the generic opacity *)

(** Each of the eleven mapped attributes accepts the value inherit and
    yields the [INHERIT] marker for its field. *)
Lemma mapped_attributes_accept_inherit :
  Forall (fun entry : string * (string -> res (string * StyleValue)) =>
            exists field, snd entry "inherit" = Ok (field, INHERIT))
    svg_attr_map.
Proof.
  unfold svg_attr_map. repeat constructor; cbn [snd]; eexists; reflexivity.
Qed.

(** The generic [opacity] attribute goes through [float] alone: a value
    that [float] rejects stops [apply_styles] with an error. *)
Lemma opacity_not_a_number_raises (st : gmap string StyleValue) (tr : option Transform)
  (attrib : gmap string string) (s : string) :
  parse_style attrib !! "opacity" = Some s ->
  float_str s = None ->
  exists e, apply_styles st tr attrib = Raise e.
Proof.
  intros Hop Hfloat. unfold apply_styles.
  destruct (apply_styles_loop svg_attr_map (parse_style attrib)
              (<["auto_close" := VBool false]> st)) as [st1|e]; [|eauto].
  cbn [mbind res_bind bind]. rewrite Hop. unfold float. rewrite Hfloat.
  cbn [mbind res_bind bind]. eauto.
Qed.

End Properties.

(** ** Further properties *)

(** What the code shows beyond the statements above: the behaviour on
    degenerate and malformed inputs, what each function leaves untouched,
    and how the functions compose. *)

Section Further.
Context {num : Type} `{!PyFloat num} `{!Collab num}.

Abbreviation XRefs := (gmap string Drawable).

(** *** Texts *)

Lemma all_chars_rev_string p : forall s acc,
  all_chars p (rev_string acc s) = all_chars p s && all_chars p acc.
Proof.
  induction s as [|c s IH]; intros acc; cbn [rev_string all_chars].
  - reflexivity.
  - rewrite IH. cbn [all_chars]. destruct (p c), (all_chars p s); reflexivity.
Qed.

Lemma all_chars_skip_space p s :
  all_chars p s = true -> all_chars p (skip_space s) = true.
Proof.
  induction s as [|c s IH]; cbn [skip_space all_chars]; [easy|].
  intros H. destruct (is_space c); [|exact H].
  apply IH. now apply andb_prop in H.
Qed.

Lemma all_chars_span p q s :
  all_chars p s = true -> all_chars p (snd (span q s)) = true.
Proof.
  induction s as [|c s IH]; cbn [span all_chars]; [easy|].
  intros H. destruct (q c); [|exact H].
  apply andb_prop in H as [_ H]. specialize (IH H).
  destruct (span q s). exact IH.
Qed.

Lemma all_chars_drop_prefix p pre : forall s r,
  drop_prefix pre s = Some r -> all_chars p s = true -> all_chars p r = true.
Proof.
  induction pre as [|a pre IH]; intros s r; cbn [drop_prefix].
  - now intros [= ->].
  - destruct s as [|b s]; [discriminate|].
    destruct (Ascii.eqb a b); [|discriminate].
    cbn [all_chars]. intros Hd [_ Hs]%andb_prop. eapply IH; eassumption.
Qed.

(** The group [unit] of [unit_splitter], read at the text that follows the
    number and the blanks. *)
Lemma unit_group_eq (s : string) :
  match s with
  | String "%" _ => "%"
  | _ => fst (span is_alpha s)
  end
  = match s with
    | String c _ => if Ascii.eqb c "%" then "%" else fst (span is_alpha s)
    | EmptyString => EmptyString
    end.
Proof.
  destruct s as [|c r]; [reflexivity|].
  destruct c as [[] [] [] [] [] [] [] []]; reflexivity.
Qed.

(** *** [NUMBER_SPLIT] *)

Lemma number_split_go_nonempty s : forall tok sep, number_split_go s tok sep <> [].
Proof.
  induction s as [|c s IH]; intros tok sep; cbn [number_split_go].
  - destruct sep; discriminate.
  - destruct sep as [comma|].
    + destruct (is_space c); [apply IH|].
      destruct (Ascii.eqb c ","); [|apply IH].
      destruct comma; [discriminate | apply IH].
    + destruct (is_space c); [discriminate|].
      destruct (Ascii.eqb c ","); [discriminate | apply IH].
Qed.

(** The pieces are made of the characters of the text that are not
    separators. *)
Lemma number_split_go_chars (p : ascii -> bool) s : forall tok sep,
  all_chars p s = true ->
  all_chars (fun c => p c && negb (is_separator c)) tok = true ->
  Forall (fun piece => all_chars (fun c => p c && negb (is_separator c)) piece = true)
    (number_split_go s tok sep).
Proof.
  set (q := fun c => p c && negb (is_separator c)).
  assert (Hrev : forall tok, all_chars q tok = true ->
                 all_chars q (rev_string EmptyString tok) = true).
  { intros tok Ht. rewrite all_chars_rev_string, Ht. reflexivity. }
  induction s as [|c s IH]; intros tok sep Hs Ht; cbn [number_split_go].
  - destruct sep; repeat constructor. now apply Hrev.
  - cbn [all_chars] in Hs. apply andb_prop in Hs as [Hc Hs].
    assert (Hq : is_space c = false -> Ascii.eqb c "," = false -> q c = true).
    { intros H1 H2. unfold q, is_separator. rewrite Hc, H1, H2. reflexivity. }
    destruct sep as [comma|].
    + destruct (is_space c) eqn:Hsp; [now apply IH|].
      destruct (Ascii.eqb c ",") eqn:Hco.
      * destruct comma; [constructor; [reflexivity|] |]; now apply IH.
      * apply IH; [exact Hs|]. cbn [all_chars]. now rewrite Hq.
    + destruct (is_space c) eqn:Hsp; [constructor; [now apply Hrev | now apply IH]|].
      destruct (Ascii.eqb c ",") eqn:Hco; [constructor; [now apply Hrev | now apply IH]|].
      apply IH; [exact Hs|]. cbn [all_chars]. now rewrite Hq, Ht.
Qed.

Lemma all_chars_true s : all_chars (fun _ => true) s = true.
Proof. induction s as [|c s IH]; [reflexivity | exact IH]. Qed.

Lemma all_chars_impl (p q : ascii -> bool) s :
  (forall c, p c = true -> q c = true) ->
  all_chars p s = true -> all_chars q s = true.
Proof.
  intros Hpq. induction s as [|c s IH]; cbn [all_chars]; [easy|].
  intros [Hc Hs]%andb_prop. now rewrite (Hpq _ Hc), IH.
Qed.

(** X1.  [NUMBER_SPLIT.split] never returns an empty list, and no piece it
    returns holds a blank or a comma: what is handed to [float] is a run of
    the other characters of the text (possibly empty). *)
Theorem number_split_pieces (s : string) :
  NUMBER_SPLIT_split s <> []
  /\ Forall (fun piece => all_chars (fun c => negb (is_separator c)) piece = true)
       (NUMBER_SPLIT_split s).
Proof.
  split; [apply number_split_go_nonempty|].
  unfold NUMBER_SPLIT_split.
  pose proof (number_split_go_chars (fun _ => true) s EmptyString None
                (all_chars_true s) eq_refl) as H.
  rewrite List.Forall_forall in *. intros piece Hin.
  exact (all_chars_impl _ _ _ (fun c Hc => Hc) (H piece Hin)).
Qed.

(** *** [unit_splitter] and the unit resolver *)

Lemma skip_space_app s c t :
  is_space c = false -> skip_space (s +:+ String c t) = skip_space s +:+ String c t.
Proof.
  intros Hc. induction s as [|a s IH].
  - change (EmptyString +:+ String c t) with (String c t).
    cbn [skip_space]. now rewrite Hc.
  - change (String a s +:+ String c t) with (String a (s +:+ String c t)).
    cbn [skip_space]. destruct (is_space a); [exact IH | reflexivity].
Qed.

Lemma span_app p s c t :
  p c = false ->
  span p (s +:+ String c t) = (fst (span p s), snd (span p s) +:+ String c t).
Proof.
  intros Hc. induction s as [|a s IH].
  - change (EmptyString +:+ String c t) with (String c t).
    cbn [span]. now rewrite Hc.
  - change (String a s +:+ String c t) with (String a (s +:+ String c t)).
    cbn [span]. destruct (p a); [|reflexivity].
    rewrite IH. destruct (span p s). reflexivity.
Qed.

Lemma is_length_char_false c :
  is_length_char c = false ->
  is_space c = false /\ is_sign c = false /\ is_numchar c = false
  /\ is_alpha c = false /\ Ascii.eqb c "%" = false.
Proof.
  unfold is_length_char.
  destruct (is_space c), (is_sign c), (is_numchar c), (is_alpha c), (Ascii.eqb c "%");
    cbn; intros; try discriminate; repeat split.
Qed.

(** [unit_splitter.match] is anchored at the start of the text only: what
    follows a character that cannot take part in the match is not read. *)
Lemma unit_splitter_match_app s c t :
  is_length_char c = false ->
  unit_splitter_match (s +:+ String c t) = unit_splitter_match s.
Proof.
  intros (Hsp & Hsg & Hnum & Hal & Hpc)%is_length_char_false.
  unfold unit_splitter_match. rewrite (skip_space_app _ _ _ Hsp).
  assert (Hbase : span is_numchar (String c t) = (EmptyString, String c t)).
  { cbn [span]. now rewrite Hnum. }
  assert (Htail : forall sign s2,
    (let '(digits, s3) := span is_numchar (s2 +:+ String c t) in
     match digits with
     | EmptyString => None
     | _ =>
         let s4 := skip_space s3 in
         let unit := match s4 with
                     | String "%" _ => "%"
                     | _ => fst (span is_alpha s4)
                     end in
         Some (sign +:+ digits, unit)
     end)
    = (let '(digits, s3) := span is_numchar s2 in
       match digits with
       | EmptyString => None
       | _ =>
           let s4 := skip_space s3 in
           let unit := match s4 with
                       | String "%" _ => "%"
                       | _ => fst (span is_alpha s4)
                       end in
           Some (sign +:+ digits, unit)
       end)).
  { intros sign s2. rewrite (span_app _ _ _ _ Hnum).
    destruct (span is_numchar s2) as [digits s3]. cbn [fst snd].
    destruct digits as [|d ds]; [reflexivity|]. cbv zeta.
    rewrite (skip_space_app _ _ _ Hsp).
    destruct (skip_space s3) as [|a s5].
    - change (EmptyString +:+ String c t) with (String c t).
      cbv beta iota.
      rewrite (unit_group_eq (String c t)), Hpc. cbn [span]. rewrite Hal. reflexivity.
    - change (String a s5 +:+ String c t) with (String a (s5 +:+ String c t)).
      cbv beta iota.
      rewrite (unit_group_eq (String a s5)), (unit_group_eq (String a (s5 +:+ String c t))).
      destruct (Ascii.eqb a "%"); [reflexivity|].
      change (String a (s5 +:+ String c t)) with (String a s5 +:+ String c t).
      rewrite (span_app _ _ _ _ Hal). reflexivity. }
  destruct (skip_space s) as [|a s1].
  - change (EmptyString +:+ String c t) with (String c t).
    cbv beta iota. rewrite Hsg. rewrite Hbase. reflexivity.
  - change (String a s1 +:+ String c t) with (String a (s1 +:+ String c t)).
    cbv beta iota. destruct (is_sign a).
    + apply Htail.
    + change (String a (s1 +:+ String c t)) with (String a s1 +:+ String c t).
      apply Htail.
Qed.

(** X2.  The unit resolver reads a prefix of its text: whatever follows a
    character that is neither a blank of [str.isspace], a sign, a digit, a
    dot, a letter nor a percent sign is ignored, so the text with the tail
    resolves to a value exactly when the text without it does, and to the
    same value. *)
Theorem resolve_length_ignores_tail (s : string) (c : ascii) (t d : string) (x : num) :
  is_length_char c = false ->
  resolve_length (s +:+ String c t) d = Ok x <-> resolve_length s d = Ok x.
Proof.
  intros Hc. unfold resolve_length, unit_groups.
  rewrite (unit_splitter_match_app _ _ _ Hc).
  destruct (unit_splitter_match s) as [[value unit]|]; cbn [mbind res_bind bind];
    [|split; discriminate].
  destruct (float value); cbn [mbind res_bind bind]; [|split; discriminate].
  destruct (absolute_length_units !! _); [reflexivity|].
  destruct (str_in _ _); split; discriminate.
Qed.

(** *** [TRANSFORM_GETTER] *)

Lemma args_step_char q c q' : args_step q c = Some q' -> is_args_char c = true.
Proof.
  unfold args_step, is_args_char.
  destruct q, (is_space c), (is_sign c), (is_numchar c), (Ascii.eqb c ",");
    cbn; intros; try discriminate; reflexivity.
Qed.

Lemma args_match_chars s : forall q a rest,
  args_match q s = Some (a, rest) -> all_chars is_args_char a = true.
Proof.
  induction s as [|c s IH]; intros q a rest; cbn [args_match]; [discriminate|].
  destruct (Ascii.eqb c ")").
  - destruct q; intros [= <- _]; reflexivity.
  - destruct (args_step q c) as [q'|] eqn:Hq; [|discriminate].
    destruct (args_match q' s) as [[a' rest']|] eqn:Hm; [|discriminate].
    intros [= <- _]. cbn [all_chars].
    now rewrite (args_step_char _ _ _ Hq), (IH _ _ _ Hm).
Qed.

Lemma transform_match_args s n a len :
  transform_match s = Some (n, a, len) -> all_chars is_args_char a = true.
Proof.
  unfold transform_match. intros H.
  apply first_some_in in H as (n' & Hin & Hn).
  destruct (drop_prefix n' s) as [[|c rest]|]; try discriminate.
  destruct (Ascii.eqb_spec c "("); [subst c|].
  2:{ destruct c as [[] [] [] [] [] [] [] []]; try discriminate; now contradiction n0. }
  destruct (args_match ArgsStart rest) as [[a' r']|] eqn:Hm; [|discriminate].
  injection Hn as _ <- _. eapply args_match_chars, Hm.
Qed.

Lemma findall_go_args s : forall skip,
  Forall (fun tf => all_chars is_args_char (snd tf) = true) (findall_go s skip).
Proof.
  induction s as [|c s IH]; intros skip; cbn [findall_go].
  - constructor.
  - destruct skip as [|k]; [|apply IH].
    destruct (transform_match (String c s)) as [[[n a] len]|] eqn:Hm; [|apply IH].
    constructor; [|apply IH]. cbn [snd]. eapply transform_match_args, Hm.
Qed.

Lemma is_args_char_no_unit c :
  is_args_char c = true -> Ascii.eqb c "%" = false /\ is_alpha c = false.
Proof.
  destruct c as [[] [] [] [] [] [] [] []]; vm_compute; intros; try discriminate; split;
    reflexivity.
Qed.

Lemma unit_splitter_match_no_unit s v u :
  all_chars is_args_char s = true ->
  unit_splitter_match s = Some (v, u) -> u = EmptyString.
Proof.
  intros Hs. unfold unit_splitter_match.
  pose proof (all_chars_skip_space _ _ Hs) as H1.
  assert (H2 : all_chars is_args_char
                 (snd match skip_space s with
                      | String c s' =>
                          if is_sign c then (String c EmptyString, s')
                          else (EmptyString, skip_space s)
                      | EmptyString => (EmptyString, skip_space s)
                      end) = true).
  { destruct (skip_space s) as [|c s']; [reflexivity|].
    destruct (is_sign c); [|exact H1].
    cbn [snd]. cbn [all_chars] in H1. now apply andb_prop in H1. }
  destruct (match skip_space s with
            | String c s' =>
                if is_sign c then (String c EmptyString, s') else (EmptyString, skip_space s)
            | EmptyString => (EmptyString, skip_space s)
            end) as [sign s2].
  cbn [snd] in H2.
  pose proof (all_chars_span _ is_numchar _ H2) as H3.
  destruct (span is_numchar s2) as [digits s3]. cbn [snd] in H3.
  destruct digits as [|d ds]; [discriminate|]. cbv zeta.
  pose proof (all_chars_skip_space _ _ H3) as H4.
  rewrite unit_group_eq.
  destruct (skip_space s3) as [|a s5]; [now intros [= _ <-]|].
  cbn [all_chars] in H4. apply andb_prop in H4 as [Ha _].
  apply is_args_char_no_unit in Ha as [Hpc Hal].
  rewrite Hpc. cbn [span]. rewrite Hal. now intros [= _ <-].
Qed.

(** X3.  The argument text of a transform function never carries a unit:
    for every function [TRANSFORM_GETTER] finds, [unit_splitter] reads an
    empty unit from the argument text and from each of its pieces, so
    [resolve_length] and [resolve_angle] always fall back on the default
    unit there ([pt], [deg]). *)
Theorem transform_arguments_carry_no_unit (tfstr name args piece : string) :
  In (name, args) (TRANSFORM_GETTER_findall tfstr) ->
  piece = args \/ In piece (NUMBER_SPLIT_split args) ->
  match unit_splitter_match piece with
  | Some (_, unit) => unit = EmptyString
  | None => True
  end.
Proof.
  intros Hin Hpiece.
  destruct (unit_splitter_match piece) as [[v u]|] eqn:Hm; [|exact I].
  revert Hm. apply unit_splitter_match_no_unit.
  pose proof (findall_go_args tfstr 0) as Hall.
  rewrite List.Forall_forall in Hall. specialize (Hall _ Hin). cbn [snd] in Hall.
  destruct Hpiece as [->|Hp]; [exact Hall|].
  pose proof (number_split_go_chars is_args_char args EmptyString None Hall eq_refl) as Hps.
  rewrite List.Forall_forall in Hps. specialize (Hps _ Hp).
  revert Hps. apply all_chars_impl. now intros c [Hc _]%andb_prop.
Qed.

Lemma drop_prefix_paren pre s r :
  all_chars (fun c => negb (Ascii.eqb c "(")) s = true ->
  drop_prefix pre s <> Some (String "(" r).
Proof.
  intros Hs Hd. pose proof (all_chars_drop_prefix _ _ _ _ Hd Hs) as H. discriminate H.
Qed.

Lemma transform_match_no_paren s :
  all_chars (fun c => negb (Ascii.eqb c "(")) s = true -> transform_match s = None.
Proof.
  intros Hs. destruct (transform_match s) as [[[n a] len]|] eqn:Hm; [|reflexivity].
  exfalso. unfold transform_match in Hm.
  apply first_some_in in Hm as (n' & _ & Hn).
  destruct (drop_prefix n' s) as [[|c rest]|] eqn:Hd; try discriminate.
  destruct (Ascii.eqb_spec c "("); [subst c|].
  - eapply drop_prefix_paren; eassumption.
  - destruct c as [[] [] [] [] [] [] [] []]; try discriminate; now contradiction n0.
Qed.

Lemma findall_go_no_paren s : forall skip,
  all_chars (fun c => negb (Ascii.eqb c "(")) s = true -> findall_go s skip = [].
Proof.
  induction s as [|c s IH]; intros skip Hs; cbn [findall_go]; [reflexivity|].
  assert (Hs' : all_chars (fun c => negb (Ascii.eqb c "(")) s = true).
  { cbn [all_chars] in Hs. now apply andb_prop in Hs. }
  destruct skip as [|k]; [|now apply IH].
  rewrite (transform_match_no_paren _ Hs). now apply IH.
Qed.

(** X4.  A transform text without an opening parenthesis holds no function:
    [convert_transforms] returns the identity for it and raises nothing,
    whatever else the text holds. *)
Theorem convert_transforms_without_function (tfstr : string) :
  all_chars (fun c => negb (Ascii.eqb c "(")) tfstr = true ->
  convert_transforms tfstr = Ok Transform_identity.
Proof.
  intros Hs. unfold convert_transforms, TRANSFORM_GETTER_findall.
  rewrite (findall_go_no_paren _ 0 Hs). reflexivity.
Qed.

(** *** The style mapper *)

(** X5.  [parse_style] changes the attribute map key by key: a key takes the
    value of the last declaration of it in the [style] attribute, a key the
    style does not declare keeps its value (or stays absent), and without a
    [style] attribute nothing changes. *)
Theorem parse_style_lookup (attrib : gmap string string) (k : string) :
  parse_style attrib !! k =
  match attrib !! "style" with
  | Some style =>
      match style_declares style k with
      | Some v => Some v
      | None => attrib !! k
      end
  | None => attrib !! k
  end.
Proof.
  unfold parse_style, style_declares.
  destruct (attrib !! "style") as [style|]; [|reflexivity].
  rewrite parse_style_loop_lookup. apply declared_value_init.
Qed.

(** One step of the loop of [apply_styles]. *)
Lemma apply_styles_loop_cons svg_attr converter m (a : gmap string string)
  (st : gmap string StyleValue) :
  apply_styles_loop ((svg_attr, converter) :: m) a st =
  match a !! svg_attr with
  | None => apply_styles_loop m a st
  | Some s =>
      match converter s with
      | Ok (attr, value) => apply_styles_loop m a (<[attr := value]> st)
      | Raise (KeyError _) => apply_styles_loop m a st
      | Raise e => Raise e
      end
  end.
Proof. reflexivity. Qed.

Lemma svg_attr_map_fields :
  Forall2 (fun (entry : string * (string -> res (string * StyleValue))) af =>
             fst entry = fst af
             /\ forall s f v, snd entry s = Ok (f, v) -> f = snd af)
    svg_attr_map attr_fields.
Proof.
  unfold svg_attr_map, attr_fields.
  repeat (apply List.Forall2_cons;
    [ split; [reflexivity|];
      cbn [snd]; intros s f v; unfold mbind, res_bind;
      (match goal with
       | |- bind ?m _ = _ -> _ => destruct m; cbn [bind]; [|discriminate]
       end);
      intros [= <- _]; reflexivity | ]).
  apply List.Forall2_nil.
Qed.

(** The loop leaves a field alone unless an attribute mapped to it is
    present. *)
Lemma apply_styles_loop_frame m afs :
  Forall2 (fun (entry : string * (string -> res (string * StyleValue))) af =>
             fst entry = fst af
             /\ forall s f v, snd entry s = Ok (f, v) -> f = snd af) m afs ->
  forall (a : gmap string string) (st st' : gmap string StyleValue),
    apply_styles_loop m a st = Ok st' ->
    forall f, (forall attr, In (attr, f) afs -> a !! attr = None) ->
    st' !! f = st !! f.
Proof.
  induction 1 as [|[svg_attr converter] [attr0 field0] m afs [Hattr Hfield] _ IH];
    intros a st st' H f Hf; cbn [apply_styles_loop] in H.
  - now injection H as <-.
  - cbn [fst snd] in Hattr, Hfield. subst attr0.
    assert (Hf' : forall attr, In (attr, f) afs -> a !! attr = None).
    { intros attr Hin. apply Hf. now right. }
    destruct (a !! svg_attr) as [s|] eqn:Hs; [|eapply IH; eassumption].
    destruct (converter s) as [[attr value]|e] eqn:Hconv.
    + rewrite (IH _ _ _ H f Hf'). apply lookup_insert_ne.
      intros ->. rewrite (Hfield _ _ _ Hconv) in Hf.
      specialize (Hf svg_attr (or_introl eq_refl)). congruence.
    + destruct e; try discriminate H. eapply IH; eassumption.
Qed.

(** What a successful [apply_styles] did, stage by stage: the loop over
    [svg_attr_map], the generic opacity, the transform. *)
Lemma apply_styles_ok (st : gmap string StyleValue)
  (tr : option Transform) (a : gmap string string)
  (st' : gmap string StyleValue) (tr' : option Transform) (a' : gmap string string) :
  apply_styles st tr a = Ok (st', tr', a') ->
  exists st1,
    apply_styles_loop svg_attr_map (parse_style a) (<["auto_close" := VBool false]> st)
    = Ok st1
    /\ match parse_style a !! "opacity" with
       | None => st' = st1
       | Some s => exists o, float_str s = Some o /\
           st' = <["stroke_opacity" := VNum o]> (<["fill_opacity" := VNum o]> st1)
       end
    /\ match parse_style a !! "transform" with
       | None => tr' = tr
       | Some tfstr => exists t, convert_transforms tfstr = Ok t /\ tr' = Some t
       end
    /\ a' = parse_style a.
Proof.
  unfold apply_styles.
  destruct (apply_styles_loop svg_attr_map (parse_style a)
              (<["auto_close" := VBool false]> st)) as [st1|];
    [|discriminate].
  cbn [mbind res_bind bind]. unfold float.
  destruct (parse_style a !! "opacity") as [s|];
    [destruct (float_str s) as [o|]; [|discriminate]|];
    cbn [mbind res_bind bind];
    (destruct (parse_style a !! "transform") as [tfstr|];
     [destruct (convert_transforms tfstr) as [t|]; [|discriminate]|]);
    cbn [mbind res_bind bind]; intros [= <- <- <-]; eauto 10.
Qed.



(** X7.  The generic [opacity] attribute is written last and unclamped: when
    the element carries it (as an attribute or in its style), both
    [fill_opacity] and [stroke_opacity] end up holding [float(opacity)],
    whatever [fill-opacity] and [stroke-opacity] say. *)
Theorem generic_opacity_sets_both (st : gmap string StyleValue)
  (tr : option Transform) (a : gmap string string) (s : string)
  (st' : gmap string StyleValue) (tr' : option Transform) (a' : gmap string string) :
  apply_styles st tr a = Ok (st', tr', a') ->
  a' !! "opacity" = Some s ->
  exists o,
    float_str s = Some o
    /\ st' !! "fill_opacity" = Some (VNum o)
    /\ st' !! "stroke_opacity" = Some (VNum o).
Proof.
  intros (st1 & _ & Hop & _ & ->)%apply_styles_ok Hs.
  rewrite Hs in Hop. destruct Hop as (o & Ho & ->).
  exists o. split; [exact Ho|]. split.
  - rewrite lookup_insert_ne by discriminate. apply lookup_insert_eq.
  - apply lookup_insert_eq.
Qed.

(** *** Colours *)

(** X8.  A [fill] that is neither [none], [inherit], a name of
    [COLOR_DICT] nor a text that starts with a hash sign (a functional
    notation such as rgb(...), for one) stops [apply_styles] with the
    [ValueError] of [svgcolor]: the element is not converted. *)
Theorem unsupported_fill_raises (st : gmap string StyleValue) (tr : option Transform)
  (a : gmap string string) (s : string) :
  parse_style a !! "fill" = Some s ->
  s <> "none" -> s <> "inherit" ->
  COLOR_DICT !! s = None ->
  startswith "#" s = false ->
  apply_styles st tr a = Raise (ValueError ("unsupported color specification " +:+ s)).
Proof.
  intros Hfill Hnone Hinherit Hdict Hhash.
  unfold apply_styles, svg_attr_map. rewrite apply_styles_loop_cons, Hfill.
  unfold optional, inheritable, svgcolor.
  apply String.eqb_neq in Hnone, Hinherit. rewrite Hnone, Hinherit, Hdict, Hhash.
  reflexivity.
Qed.

Local Open Scope num_scope.

(** *** The shape converters *)

Lemma new_path_items (tag : Element) (path : PaintedPath) :
  new_path tag = Ok path -> path_items path = [].
Proof.
  unfold new_path.
  destruct (apply_styles ∅ None (attrib tag)) as [[[style transform] a]|];
    [|discriminate].
  cbn [mbind res_bind bind]. now intros [= <-].
Qed.

(** X9.  A [rect] that converts is either an empty path without style (its
    width or its height is zero, and its style attributes are not read), or
    a path of exactly one rectangle, whose sides are neither negative nor
    zero and each of whose corner radii is half the side or a value that
    half the side does not exceed. *)
Theorem rect_postcondition (tag : Element) (path : PaintedPath) :
  ShapeBuilder_rect tag = Ok path ->
  exists x y w h,
    float_get (attrib tag) "x" = Ok x
    /\ float_get (attrib tag) "y" = Ok y
    /\ float_get (attrib tag) "width" = Ok w
    /\ float_get (attrib tag) "height" = Ok h
    /\ (w < zero) = false /\ (h < zero) = false
    /\ (((w == zero) || (h == zero) = true /\ path = PaintedPath_new)
        \/ ((w == zero) = false /\ (h == zero) = false
            /\ exists rx ry,
                 path_items path = [Rectangle x y w h rx ry]
                 /\ (rx = fdiv w (dec 2 0) \/ (fdiv w (dec 2 0) < rx) = false)
                 /\ (ry = fdiv h (dec 2 0) \/ (fdiv h (dec 2 0) < ry) = false))).
Proof.
  unfold ShapeBuilder_rect.
  destruct (float_get (attrib tag) "x") as [x|]; [|discriminate].
  destruct (float_get (attrib tag) "y") as [y|]; [|discriminate].
  destruct (float_get (attrib tag) "width") as [w|]; [|discriminate].
  destruct (float_get (attrib tag) "height") as [h|]; [|discriminate].
  cbn [mbind res_bind bind]. cbv zeta. unfold mbind at 1, res_bind at 1.
  match goal with
  | |- bind ?m _ = _ -> _ => destruct m as [[rx ry]|]; [|discriminate]
  end.
  cbn [bind].
  destruct (w < zero) eqn:Hw; [discriminate|].
  destruct (h < zero) eqn:Hh; [discriminate|].
  cbn [orb].
  destruct ((rx < zero) || (ry < zero)); [discriminate|].
  destruct (w == zero) eqn:Hw0; cbn [orb].
  { intros [= <-]. exists x, y, w, h. rewrite Hw, Hh, Hw0. repeat split. now left. }
  destruct (h == zero) eqn:Hh0.
  { intros [= <-]. exists x, y, w, h. rewrite Hw, Hh, Hw0, Hh0. repeat split. now left. }
  destruct (new_path tag) as [p0|] eqn:Hp; [|discriminate].
  cbn [mbind res_bind bind]. intros [= <-].
  exists x, y, w, h. rewrite Hw, Hh, Hw0, Hh0. do 6 (split; [reflexivity|]).
  right. do 2 (split; [reflexivity|]).
  eexists _, _. split; [|split].
  - cbn [add_path_element path_items]. rewrite (new_path_items _ _ Hp). reflexivity.
  - destruct (fdiv w (dec 2 0) < rx) eqn:Hrx; [now left | now right].
  - destruct (fdiv h (dec 2 0) < ry) eqn:Hry; [now left | now right].
Qed.

(** *** The path interpreter *)

Lemma mapM_length {A B} (f : A -> res B) (l : list A) : forall l',
  mapM f l = Ok l' -> length l' = length l.
Proof.
  induction l as [|a l IH]; intros l'; cbn [mapM].
  - now intros [= <-].
  - destruct (f a) as [b|]; [|discriminate]. cbn [mbind res_bind bind].
    destruct (mapM f l) as [bs|]; [|discriminate]. cbn [mbind res_bind bind].
    intros [= <-]. cbn [length]. now rewrite (IH bs).
Qed.

Lemma with_positions_from_length (cmds : list (SvgCmd num)) : forall pos,
  length (with_positions_from pos cmds) = length cmds.
Proof.
  induction cmds as [|cmd cmds IH]; intros pos; cbn [with_positions_from length].
  - reflexivity.
  - now rewrite IH.
Qed.

(** The loop appends to the path, for each command in turn, the element
    the command gives at the end of the command before it. *)
Lemma svg_path_loop_appends (cmds : list (SvgCmd num)) : forall pos path path',
  svg_path_loop cmds pos path = Ok path' ->
  exists new,
    mapM (fun cp => svg_path_command (fst cp) (snd cp)) (with_positions_from pos cmds)
    = Ok new
    /\ path_items path' = path_items path ++ new
    /\ path_style path' = path_style path
    /\ path_transform path' = path_transform path.
Proof.
  induction cmds as [|cmd cmds IH]; intros pos path path'; cbn [svg_path_loop].
  - intros [= <-]. exists []. rewrite app_nil_r. repeat split; reflexivity.
  - destruct (svg_path_command cmd pos) as [e|] eqn:He; [|discriminate].
    cbn [mbind res_bind bind]. intros (new & Hnew & Hitems & Hstyle & Htr)%IH.
    exists (e :: new). split; [|split; [|split]].
    + cbn [with_positions_from mapM fst snd]. rewrite He. cbn [mbind res_bind bind].
      rewrite Hnew. reflexivity.
    + rewrite Hitems. cbn [add_path_element path_items]. now rewrite <- app_assoc.
    + exact Hstyle.
    + exact Htr.
Qed.

(** The element of a command is a segment of the path language. *)
Lemma svg_path_command_segment (cmd : SvgCmd num) (pos : Point num) (e : PathElement) :
  svg_path_command cmd pos = Ok e -> is_segment e = true.
Proof.
  destruct cmd as [e0 r|e0 r h v|rad rot a sw e0 r|c1 c2 e0 r sm|c e0 r sm|e0|e0];
    cbn [svg_path_command];
    repeat match goal with
           | |- context [if ?b then _ else _] => destruct b
           end;
    try discriminate; now intros [= <-].
Qed.

(** The interpreter appends segments alone: the elements of a converted
    path are segments when those it held were, and the emission pass
    resolves them all. *)
Lemma svg_path_converter_segments (pdf_path : PaintedPath) (svg_path : string)
  (path' : PaintedPath) :
  svg_path_converter pdf_path svg_path = Ok path' ->
  forallb is_segment (path_items pdf_path) = true ->
  forallb is_segment (path_items path') = true.
Proof.
  unfold svg_path_converter.
  destruct parse_path as [parse|]; [|discriminate].
  destruct (strip svg_path) as [|c r]; [discriminate|].
  destruct (negb (Ascii.eqb c "M" || Ascii.eqb c "m")); [discriminate|].
  destruct (parse (String c r)) as [cmds|]; [|discriminate].
  cbn [mbind res_bind bind].
  intros (new & Hnew & -> & _)%svg_path_loop_appends Hold.
  rewrite forallb_app, Hold. cbn [andb].
  revert new Hnew. generalize (mkPoint zero zero).
  induction cmds as [|cmd cmds IH]; intros pos new; cbn [with_positions_from mapM].
  - now intros [= <-].
  - cbn [fst snd].
    destruct (svg_path_command cmd pos) as [e|] eqn:He; [|discriminate].
    rewrite bind_Ok.
    destruct (mapM _ (with_positions_from (cmd_end cmd) cmds)) as [es|] eqn:Hes;
      [|discriminate].
    rewrite bind_Ok. intros [= <-]. cbn [forallb].
    rewrite (svg_path_command_segment _ _ _ He). exact (IH _ _ Hes).
Qed.

(** The loop performs on the path, for each command in turn, the operation
    the command gives at the end of the command before it. *)
Lemma svg_path_loop_operations (cmds : list (SvgCmd num)) : forall pos path path',
  svg_path_loop cmds pos path = Ok path' ->
  exists ops,
    mapM (fun cp => svg_path_command (fst cp) (snd cp)) (with_positions_from pos cmds)
    = Ok ops
    /\ path' = fold_left add_path_element ops path.
Proof.
  induction cmds as [|cmd cmds IH]; intros pos path path'; cbn [svg_path_loop].
  - intros [= <-]. exists []. split; reflexivity.
  - destruct (svg_path_command cmd pos) as [e|] eqn:He; [|discriminate].
    cbn [mbind res_bind bind]. intros (ops & Hops & ->)%IH.
    exists (e :: ops). split; [|reflexivity].
    cbn [with_positions_from mapM fst snd]. rewrite He. cbn [mbind res_bind bind].
    rewrite Hops. reflexivity.
Qed.

(** X10.  A call of [svg_path_converter] that returns has found [svg.path]
    imported, and has performed on the path exactly one operation per
    command of [parse_path], in the order of the commands, and nothing
    else: the path it leaves is the path it was given after these
    operations.  The operation of a command ([move_to], [line_to], ...,
    [close], or [add_path_element] with a smooth element, each written here
    as the element it stands for) depends on the command and on the end of
    the command before it alone (the origin for the first command). *)
Theorem svg_path_converter_operations (pdf_path : PaintedPath) (svg_path : string)
  (path' : PaintedPath) :
  svg_path_converter pdf_path svg_path = Ok path' ->
  exists parse cmds ops,
    parse_path = Some parse
    /\ parse (strip svg_path) = Ok cmds
    /\ mapM (fun cp => svg_path_command (fst cp) (snd cp)) (with_positions cmds) = Ok ops
    /\ length ops = length cmds
    /\ path' = fold_left add_path_element ops pdf_path.
Proof.
  unfold svg_path_converter.
  destruct parse_path as [parse|]; [|discriminate].
  destruct (strip svg_path) as [|c r] eqn:Hs; [discriminate|].
  destruct (negb (Ascii.eqb c "M" || Ascii.eqb c "m")); [discriminate|].
  destruct (parse (String c r)) as [cmds|] eqn:Hparse; [|discriminate].
  cbn [mbind res_bind bind].
  intros (ops & Hops & ->)%svg_path_loop_operations.
  exists parse, cmds, ops. split; [reflexivity|]. split; [exact Hparse|].
  split; [exact Hops|]. split; [|reflexivity].
  rewrite (mapM_length _ _ _ Hops). apply with_positions_from_length.
Qed.

(** X11.  A [path] element whose [d] is empty or blank stops [build_path]
    once its style is applied: without [svg.path], with the
    [EnvironmentError] of the first check of [svg_path_converter]; with
    it, with an [IndexError], for the first character of the stripped text
    is read before the text is parsed.  (A [path] without [d] converts to an
    empty path.) *)
Theorem build_path_blank_data (path : Element) (xrefs : gmap string Drawable)
  (svg_path : string) :
  parse_style (attrib path) !! "d" = Some svg_path ->
  strip svg_path = EmptyString ->
  is_ok (apply_styles ∅ None (attrib path)) = true ->
  build_path path xrefs
  = Raise match parse_path (num := num) with
          | None =>
              EnvironmentError "svg?path not available - fpdf2 cannot insert SVG images"
          | Some _ => IndexError "string index out of range"
          end.
Proof.
  intros Hd Hstrip Hok. unfold build_path.
  destruct (apply_styles ∅ None (attrib path)) as [[[style transform] a]|] eqn:Hs;
    [|discriminate Hok].
  apply apply_styles_attrib in Hs as ->.
  cbn [mbind res_bind bind]. rewrite Hd.
  unfold svg_path_converter. destruct parse_path as [parse|]; [|reflexivity].
  rewrite Hstrip. reflexivity.
Qed.

(** *** Polylines and polygons *)

Lemma rev_string_endswith c : forall s acc,
  endswith_char c acc = true -> endswith_char c (rev_string acc s) = true.
Proof.
  induction s as [|a s IH]; intros acc Hacc; cbn [rev_string]; [exact Hacc|].
  apply IH. destruct acc; [discriminate Hacc | exact Hacc].
Qed.

Lemma skip_space_endswith c s :
  is_space c = false -> endswith_char c s = true -> endswith_char c (skip_space s) = true.
Proof.
  intros Hc. induction s as [|a s IH]; cbn [skip_space]; [easy|].
  intros Hs. destruct (is_space a) eqn:Ha; [|exact Hs].
  apply IH. destruct s as [|b s]; [|exact Hs].
  cbn in Hs. apply Ascii.eqb_eq in Hs. congruence.
Qed.

Lemma rev_string_starts c : forall s acc,
  endswith_char c s = true -> exists r, rev_string acc s = String c r.
Proof.
  induction s as [|a s IH]; intros acc Hs; [discriminate Hs|].
  cbn [rev_string]. destruct s as [|b s].
  - cbn in Hs. apply Ascii.eqb_eq in Hs as ->. cbn. eauto.
  - apply IH. exact Hs.
Qed.

(** The stripped text of [M] followed by anything starts with [M]. *)
Lemma strip_moveto (s : string) : exists r, strip (String "M" s) = String "M" r.
Proof.
  unfold strip. apply rev_string_starts, skip_space_endswith; [reflexivity|].
  change (skip_space (String "M" s)) with (String "M" s).
  cbn [rev_string]. now apply rev_string_endswith.
Qed.

Lemma svg_path_converter_moveto (path : PaintedPath) (s : string) :
  svg_path_converter path (String "M" s) =
  match parse_path (num := num) with
  | None =>
      Raise (EnvironmentError "svg?path not available - fpdf2 cannot insert SVG images")
  | Some parse =>
      cmds ← parse (strip (String "M" s));
      svg_path_loop (num := num) cmds (mkPoint zero zero) path
  end.
Proof.
  unfold svg_path_converter. destruct parse_path as [parse|]; [|reflexivity].
  destruct (strip_moveto s) as [r ->]. reflexivity.
Qed.

(** X12.  With [svg.path] imported, a [polyline] or a [polygon] never fails
    the check of the leading moveto: its [points], with M in front (and Z
    behind for a polygon), go stripped to [parse_path], and the commands
    that come back are performed on the styled path from the origin.
    Without [svg.path] the converter stops with [EnvironmentError], once
    the [points] are read and the style is applied. *)
Theorem polyline_starts_with_moveto (tag : Element) :
  (forall parse,
     parse_path = Some parse ->
     ShapeBuilder_polyline tag =
     (points ← getitem (attrib tag) "points";
      path ← new_path tag;
      cmds ← parse (strip ("M" +:+ points));
      svg_path_loop cmds (mkPoint zero zero) path)
     /\ ShapeBuilder_polygon tag =
        (points ← getitem (attrib tag) "points";
         path ← new_path tag;
         cmds ← parse (strip ("M" +:+ points +:+ "Z"));
         svg_path_loop cmds (mkPoint zero zero) path))
  /\ (parse_path = None ->
      ShapeBuilder_polyline tag =
      (points ← getitem (attrib tag) "points";
       path ← new_path tag;
       Raise (EnvironmentError "svg?path not available - fpdf2 cannot insert SVG images"))
      /\ ShapeBuilder_polygon tag =
         (points ← getitem (attrib tag) "points";
          path ← new_path tag;
          Raise (EnvironmentError
                   "svg?path not available - fpdf2 cannot insert SVG images"))).
Proof.
  unfold ShapeBuilder_polyline, ShapeBuilder_polygon.
  split; [intros parse Hparse | intros Hparse];
    (split;
     (destruct (getitem (attrib tag) "points") as [points|];
        [rewrite !bind_Ok | now rewrite !bind_Raise]);
     (destruct (new_path tag) as [path|];
        [rewrite !bind_Ok | now rewrite !bind_Raise]);
     (etransitivity; [apply svg_path_converter_moveto|]); now rewrite Hparse).
Qed.

(** *** The document walker *)

Lemma Element_tree_ind (P : Element -> Prop) :
  (forall t a cs, Forall P cs -> P (mkElement t a cs)) -> forall e, P e.
Proof.
  intros H. fix IH 1. intros [t a cs]. apply H.
  induction cs as [|c cs IHcs]; constructor; [apply IH | exact IHcs].
Qed.

Lemma defs_is_only_defs (e : Element) :
  tag_in e "defs" = true ->
  tag_in e "g" = false /\ tag_in e "path" = false /\ tag_in e "use" = false
  /\ lookup_get (tag e) shape_tags = None.
Proof.
  intros H. apply tag_in_cases in H. unfold tag_in.
  destruct H as [-> | ->]; vm_compute; auto.
Qed.

(** A child that is neither a group, a path, a shape nor a reference adds
    nothing to the group. *)
Lemma build_child_other (child : Element) g (xrefs : XRefs) :
  tag_in child "g" = false -> tag_in child "path" = false ->
  lookup_get (tag child) shape_tags = None -> tag_in child "use" = false ->
  build_child child g xrefs =
  (x1 ← (if tag_in child "defs" then handle_defs child xrefs else Ok xrefs); Ok (g, x1)).
Proof.
  intros Hg Hp Hs Hu. unfold build_child, build_child_with, handle_defs.
  rewrite Hg, Hp, Hs, Hu. unfold_bind.
  destruct (if tag_in child "defs" then _ else _); reflexivity.
Qed.

(** What the body of the loop does to the group: one item appended for a
    child the walker draws, nothing for another. *)
Lemma build_child_items (child : Element) g (xrefs : XRefs) g' x' :
  build_child child g xrefs = Ok (g', x') ->
  if walker_draws child then exists item, g' = add_item g item else g' = g.
Proof.
  unfold walker_draws.
  destruct (tag_in child "g") eqn:Hg.
  { rewrite (build_child_g _ _ _ Hg).
    destruct (build_group child None xrefs) as [[gg x1]|]; [|discriminate].
    intros [= <- _]. cbn [orb]. eauto. }
  destruct (tag_in child "path") eqn:Hp.
  { rewrite (build_child_path _ _ _ Hp).
    destruct (build_path child xrefs) as [[pp x1]|]; [|discriminate].
    intros [= <- _]. cbn [orb]. eauto. }
  destruct (lookup_get (tag child) shape_tags) as [name|] eqn:Hs.
  { rewrite (build_child_shape _ _ _ _ Hs).
    destruct (ShapeBuilder_dispatch name child); [|discriminate].
    intros [= <- _]. rewrite bool_decide_eq_true_2 by eauto. cbn [orb]. eauto. }
  rewrite bool_decide_eq_false_2 by (intros [? ?]; discriminate).
  destruct (tag_in child "use") eqn:Hu.
  { rewrite (build_child_use _ _ _ Hu).
    destruct (build_xref child xrefs); [|discriminate].
    intros [= <- _]. cbn [orb]. eauto. }
  rewrite (build_child_other _ _ _ Hg Hp Hs Hu).
  destruct (if tag_in child "defs" then _ else _); [|discriminate].
  now intros [= <- _].
Qed.

(** The loop over the children keeps the style, the transform and the
    items of the group, and appends one item per child the walker draws. *)
Lemma build_children_items (cs : list Element) : forall g (xrefs : XRefs) g' x',
  build_children cs g xrefs = Ok (g', x') ->
  gc_style g' = gc_style g
  /\ gc_transform g' = gc_transform g
  /\ exists new,
       gc_items g' = gc_items g ++ new
       /\ length new = length (List.filter walker_draws cs).
Proof.
  induction cs as [|c cs IH]; intros g xrefs g' x'; cbn [build_children List.filter].
  - intros [= <- _]. repeat split. exists []. now rewrite app_nil_r.
  - destruct (build_child c g xrefs) as [[g1 x1]|] eqn:Hc; [|discriminate].
    rewrite bind_Ok.
    intros (Hstyle & Htr & new & Hitems & Hlen)%IH.
    apply build_child_items in Hc. destruct (walker_draws c).
    + destruct Hc as [item ->]. destruct g as [s t i].
      cbn [add_item gc_style gc_transform gc_items] in *.
      repeat split; try assumption. exists (item :: new).
      rewrite Hitems, <- app_assoc. split; [reflexivity|]. cbn [length]. now rewrite Hlen.
    + subst g1. repeat split; try assumption. now exists new.
Qed.

(** X13.  A group that converts has the style and the transform it started
    with (those its own attributes give it, or those of the group passed
    in): its children never change them.  It keeps the items it started
    with, in order, and holds after them exactly one item per child the
    walker draws ([g], [path], [use] or a basic shape), none for the
    others. *)
Theorem group_holds_its_drawn_children (group : Element)
  (pdf_group : option GraphicsContext) (xrefs : XRefs) (g : GraphicsContext) (x' : XRefs) :
  build_group group pdf_group xrefs = Ok (g, x') ->
  exists g0 a0,
    group_start group pdf_group = Ok (g0, a0)
    /\ gc_style g = gc_style g0
    /\ gc_transform g = gc_transform g0
    /\ exists new,
         gc_items g = gc_items g0 ++ new
         /\ length new = length (List.filter walker_draws (children group)).
Proof.
  rewrite build_group_unfold.
  destruct (group_start group pdf_group) as [[g0 a0]|]; [|discriminate].
  rewrite bind_Ok.
  destruct (build_children (children group) g0 xrefs) as [[g1 x1]|] eqn:Hcs;
    [|discriminate].
  rewrite bind_Ok. intros [= <- _].
  exists g0, a0. split; [reflexivity|]. eapply build_children_items, Hcs.
Qed.

(** X14.  An element the walker does not read (its tag is neither [defs],
    [g], [path], [use] nor a basic shape) is passed over with all it
    holds: the group and the table stay as they were and no error is
    raised, whatever the attributes and the children of the element. *)
Theorem unread_element_is_passed_over (child : Element) (g : GraphicsContext)
  (xrefs : XRefs) :
  walker_reads child = false ->
  build_child child g xrefs = Ok (g, xrefs).
Proof.
  unfold walker_reads, walker_draws. rewrite !orb_false_iff.
  intros (Hd & ((Hg & Hp) & Hs) & Hu).
  assert (Hs' : lookup_get (tag child) shape_tags = None).
  { destruct (lookup_get (tag child) shape_tags); [|reflexivity].
    rewrite bool_decide_eq_false in Hs. contradiction Hs. eauto. }
  rewrite (build_child_other _ _ _ Hg Hp Hs' Hu), Hd. reflexivity.
Qed.

Lemma handle_defs_loop_filter (rec : Element -> XRefs -> res (GraphicsContext * XRefs))
  (ds : list Element) : forall xrefs : XRefs,
  handle_defs_loop rec ds xrefs = handle_defs_loop rec (List.filter defs_reads ds) xrefs.
Proof.
  induction ds as [|d ds IH]; intros xrefs; [reflexivity|].
  cbn [List.filter]. unfold defs_reads at 1.
  destruct (tag_in d "g") eqn:Hg; cbn [orb].
  - cbn [handle_defs_loop]. rewrite Hg. unfold_bind.
    destruct (rec d xrefs) as [[? x1]|]; [|reflexivity].
    destruct (if tag_in d "path" then _ else _); [apply IH | reflexivity].
  - destruct (tag_in d "path") eqn:Hp.
    + cbn [handle_defs_loop]. rewrite Hg, Hp. unfold_bind.
      destruct (build_path d xrefs) as [[? x1]|]; [apply IH | reflexivity].
    + cbn [handle_defs_loop]. rewrite Hg, Hp. unfold_bind. apply IH.
Qed.

(** X15.  A [defs] element adds nothing to the group being built: it
    changes the table alone, and only through its children that are [g] or
    [path] elements; any other child of [defs] is passed over with all it
    holds. *)
Theorem defs_only_register (child : Element) (g : GraphicsContext) (xrefs : XRefs) :
  tag_in child "defs" = true ->
  build_child child g xrefs =
  (x1 ← handle_defs
          (mkElement (tag child) (attrib child) (List.filter defs_reads (children child)))
          xrefs;
   Ok (g, x1)).
Proof.
  intros Hd. destruct (defs_is_only_defs _ Hd) as (Hg & Hp & Hu & Hs).
  rewrite (build_child_other _ _ _ Hg Hp Hs Hu), Hd.
  unfold handle_defs, handle_defs_with. cbn [children].
  now rewrite handle_defs_loop_filter.
Qed.

(** X16.  A [use] element that converts appends to the group one group
    that holds exactly one item, the one the table holds for its
    reference, and leaves the table as it was. *)
Theorem use_wraps_the_registered_item (child : Element) (g : GraphicsContext)
  (xrefs : XRefs) (g' : GraphicsContext) (x' : XRefs) :
  tag_in child "use" = true ->
  build_child child g xrefs = Ok (g', x') ->
  x' = xrefs
  /\ exists ref item wrapper,
       reference_of child = Some ref
       /\ xrefs !! ref = Some item
       /\ gc_items g' = gc_items g ++ [DGroup wrapper]
       /\ gc_items wrapper = [item].
Proof.
  intros Hu. rewrite (build_child_use _ _ _ Hu).
  destruct (build_xref child xrefs) as [w|] eqn:Hw; [|discriminate].
  intros [= <- <-]. split; [reflexivity|].
  destruct (build_xref_wraps _ _ _ Hw) as (ref & item & Href & Hitem & Hitems).
  exists ref, item, w. repeat split; assumption.
Qed.

(** *** Shapes and their attributes *)

Lemma getitem_None {V} (d : gmap string V) (key : string) :
  d !! key = None -> getitem d key = Raise (KeyError key).
Proof. unfold getitem. now intros ->. Qed.

Lemma dispatch_requires_attributes (child : Element) (name key : string) :
  In key (required_attributes name) ->
  attrib child !! key = None ->
  exists e, ShapeBuilder_dispatch name child = Raise e.
Proof.
  unfold required_attributes, ShapeBuilder_dispatch.
  destruct (String.eqb_spec name "circle") as [->|_].
  { intros [<-|[]] Hnone. unfold ShapeBuilder_circle.
    rewrite (getitem_None _ _ Hnone).
    destruct (float_get (attrib child) "cx"); [|cbn; eauto].
    destruct (float_get (attrib child) "cy"); cbn; eauto. }
  destruct (String.eqb_spec name "line") as [->|_].
  { cbn [String.eqb Ascii.eqb Bool.eqb]. unfold ShapeBuilder_line.
    intros Hin Hnone.
    assert (Hraise : forall {A} (m : res string) (k : string -> res A),
              (exists e, m = Raise e) -> exists e, (m ≫= k) = Raise e).
    { intros A m k [e ->]. cbn. eauto. }
    assert (Hstep : forall {A} (m : res string) (k : num -> res A),
              (forall v, exists e, k v = Raise e) ->
              exists e, (m ≫= fun s => float s ≫= k) = Raise e).
    { intros A m k Hk. destruct m as [s|]; [|cbn; eauto]. cbn [mbind res_bind bind].
      destruct (float s) as [v|]; [|cbn; eauto]. cbn [mbind res_bind bind]. apply Hk. }
    destruct Hin as [<-|[<-|[<-|[<-|[]]]]].
    - apply Hraise. rewrite (getitem_None _ _ Hnone). eauto.
    - apply Hstep. intros x1. apply Hraise. rewrite (getitem_None _ _ Hnone). eauto.
    - apply Hstep. intros x1. apply Hstep. intros y1.
      apply Hraise. rewrite (getitem_None _ _ Hnone). eauto.
    - apply Hstep. intros x1. apply Hstep. intros y1. apply Hstep. intros x2.
      apply Hraise. rewrite (getitem_None _ _ Hnone). eauto. }
  destruct (String.eqb_spec name "polyline") as [->|_].
  { intros [<-|[]] Hnone. cbn [String.eqb Ascii.eqb Bool.eqb].
    unfold ShapeBuilder_polyline. rewrite (getitem_None _ _ Hnone). cbn. eauto. }
  destruct (String.eqb_spec name "polygon") as [->|_].
  { intros [<-|[]] Hnone. cbn [String.eqb Ascii.eqb Bool.eqb].
    unfold ShapeBuilder_polygon. rewrite (getitem_None _ _ Hnone). cbn. eauto. }
  intros [].
Qed.

(** X17.  The radius of a [circle], the four coordinates of a [line] and
    the [points] of a [polyline] or [polygon] have no default: a shape that
    lacks one of them among its attributes stops the loop over the children
    with an error.  The attribute is read before the style of the shape is
    unpacked, so a declaration in the [style] attribute does not supply
    it. *)
Theorem shape_requires_attributes (child : Element) (g : GraphicsContext)
  (xrefs : XRefs) (name key : string) :
  lookup_get (tag child) shape_tags = Some name ->
  In key (required_attributes name) ->
  attrib child !! key = None ->
  exists e, build_child child g xrefs = Raise e.
Proof.
  intros Hs Hin Hnone. rewrite (build_child_shape _ _ _ _ Hs).
  destruct (dispatch_requires_attributes _ _ _ Hin Hnone) as [e ->].
  cbn. eauto.
Qed.

(** *** The cross-reference table *)

Lemma extends_with_ids_refl {V} (x : gmap string V) : extends_with_ids x x.
Proof. intros k. split; [easy | now left]. Qed.

Lemma extends_with_ids_trans {V} (x y z : gmap string V) :
  extends_with_ids x y -> extends_with_ids y z -> extends_with_ids x z.
Proof.
  intros Hxy Hyz k. destruct (Hxy k) as [H1 H2], (Hyz k) as [H3 H4].
  split; [auto|]. intros [H|H]%H4; [auto | now right].
Qed.

Lemma extends_with_ids_register (a : gmap string string) (item : Drawable) (x : XRefs) :
  extends_with_ids x (register a item x).
Proof.
  unfold register. destruct (a !! "id") as [id|]; [|apply extends_with_ids_refl].
  intros k. destruct (decide (k = "#" +:+ id)) as [->|Hk].
  - rewrite lookup_insert_eq. split; [eauto|]. intros _. right.
    change ("#" +:+ id) with (String "#" id). unfold startswith. cbn [String.prefix].
    destruct (ascii_dec "#" "#"); [|congruence]. now destruct id.
  - rewrite lookup_insert_ne by congruence. split; [easy | now left].
Qed.

Lemma build_path_extends (path : Element) (xrefs : XRefs) pdf_path x' :
  build_path path xrefs = Ok (pdf_path, x') -> extends_with_ids xrefs x'.
Proof.
  unfold build_path.
  destruct (apply_styles ∅ None (attrib path)) as [[[style transform] a]|];
    [|discriminate].
  cbn [mbind res_bind bind].
  destruct (match a !! "d" with Some _ => _ | None => _ end); [|discriminate].
  cbn [mbind res_bind bind]. intros [= _ <-]. apply extends_with_ids_register.
Qed.

(** What a successful [SVGObject] construction did. *)
Lemma SVGObject_init_ok (svg_tree : Element) (o : SVGObject) :
  SVGObject_init svg_tree = Ok o ->
  tag_in svg_tree "svg" = true
  /\ (exists par w h, extract_shape_info svg_tree = Ok (par, w, h, viewbox o))
  /\ convert_graphics svg_tree ∅ = Ok (base_group o, cross_references o).
Proof.
  unfold SVGObject_init, tag_in.
  destruct (lookup_in (tag svg_tree) (xmlns_lookup "svg" ["svg"])); [|discriminate].
  cbn [negb].
  destruct (extract_shape_info svg_tree) as [[[[par w] h] vb]|]; [|discriminate].
  cbn [mbind res_bind bind].
  destruct (convert_graphics svg_tree ∅) as [[g x']|]; [|discriminate].
  cbn [mbind res_bind bind]. intros [= <-].
  cbn [viewbox base_group cross_references]. eauto 10.
Qed.

(** X18.  The walk changes the cross-reference table through [register]
    alone: [build_group] and [handle_defs] never remove an entry, and every
    key they add starts with a hash sign.  So each key of the table of a
    converted document has the form ["#" + id], and a reference that does
    not start with a hash sign is never resolved. *)
Theorem walk_only_registers (e : Element) :
  (forall pg (xrefs : XRefs) g x',
     build_group e pg xrefs = Ok (g, x') -> extends_with_ids xrefs x')
  /\ (forall (xrefs : XRefs) x',
        handle_defs e xrefs = Ok x' -> extends_with_ids xrefs x')
  /\ (forall o : SVGObject,
        SVGObject_init e = Ok o ->
        forall k, is_Some (cross_references o !! k) -> startswith "#" k = true).
Proof.
  assert (Hwalk : forall e : Element,
    (forall pg (xrefs : XRefs) g x',
       build_group e pg xrefs = Ok (g, x') -> extends_with_ids xrefs x')
    /\ (forall (xrefs : XRefs) x',
          handle_defs e xrefs = Ok x' -> extends_with_ids xrefs x')).
  { clear e. intros e.
    induction e as [t a cs IH] using Element_tree_ind.
    assert (Hdefs : forall ds, Forall (fun e =>
               (forall pg (xrefs : XRefs) g x',
                  build_group e pg xrefs = Ok (g, x') -> extends_with_ids xrefs x')
               /\ (forall (xrefs : XRefs) x',
                     handle_defs e xrefs = Ok x' -> extends_with_ids xrefs x')) ds ->
             forall (xrefs : XRefs) x',
               handle_defs_loop (fun c x => build_group c None x) ds xrefs = Ok x' ->
               extends_with_ids xrefs x').
    { induction 1 as [|d ds [Hd _] _ IHds]; intros xrefs x'; cbn [handle_defs_loop].
      - intros [= <-]. apply extends_with_ids_refl.
      - unfold_bind.
        destruct (if tag_in d "g" then _ else _) as [x1|] eqn:H1; [|discriminate].
        destruct (if tag_in d "path" then _ else _) as [x2|] eqn:H2; [|discriminate].
        intros H3%IHds.
        apply (extends_with_ids_trans _ x1); [|apply (extends_with_ids_trans _ x2)];
          [| |exact H3].
        + destruct (tag_in d "g"); [|injection H1 as <-; apply extends_with_ids_refl].
          destruct (build_group d None xrefs) as [[? x1']|] eqn:Hb; [|discriminate].
          injection H1 as <-. eapply Hd, Hb.
        + destruct (tag_in d "path"); [|injection H2 as <-; apply extends_with_ids_refl].
          destruct (build_path d x1) as [[? x2']|] eqn:Hb; [|discriminate].
          injection H2 as <-. eapply build_path_extends, Hb. }
    split.
    - intros pg xrefs g x'. rewrite build_group_unfold. cbn [children].
      destruct (group_start (mkElement t a cs) pg) as [[g0 a0]|]; [|discriminate].
      cbn [mbind res_bind bind].
      destruct (build_children cs g0 xrefs) as [[g1 x1]|] eqn:Hcs; [|discriminate].
      cbn [mbind res_bind bind]. intros [= _ <-].
      apply (extends_with_ids_trans _ x1); [|apply extends_with_ids_register].
      clear -IH Hcs Hdefs. revert g0 xrefs Hcs.
      induction IH as [|c cs [Hc1 Hc2] _ IHcs]; intros g0 xrefs; cbn [build_children].
      + intros [= _ <-]. apply extends_with_ids_refl.
      + destruct (build_child c g0 xrefs) as [[g2 x2]|] eqn:Hc; [|discriminate].
        cbn [mbind res_bind bind]. intros H%IHcs.
        apply (extends_with_ids_trans _ x2); [|exact H]. clear H IHcs.
        destruct (tag_in c "g") eqn:Hg.
        { rewrite (build_child_g _ _ _ Hg) in Hc.
          destruct (build_group c None xrefs) as [[gg x3]|] eqn:Hb; [|discriminate].
          injection Hc as _ <-. eapply Hc1, Hb. }
        destruct (tag_in c "path") eqn:Hp.
        { rewrite (build_child_path _ _ _ Hp) in Hc.
          destruct (build_path c xrefs) as [[pp x3]|] eqn:Hb; [|discriminate].
          injection Hc as _ <-. eapply build_path_extends, Hb. }
        destruct (lookup_get (tag c) shape_tags) as [name|] eqn:Hs.
        { rewrite (build_child_shape _ _ _ _ Hs) in Hc.
          destruct (ShapeBuilder_dispatch name c); [|discriminate].
          injection Hc as _ <-. apply extends_with_ids_refl. }
        destruct (tag_in c "use") eqn:Hu.
        { rewrite (build_child_use _ _ _ Hu) in Hc.
          destruct (build_xref c xrefs); [|discriminate].
          injection Hc as _ <-. apply extends_with_ids_refl. }
        rewrite (build_child_other _ _ _ Hg Hp Hs Hu) in Hc.
        destruct (tag_in c "defs").
        * destruct (handle_defs c xrefs) as [x3|] eqn:Hb; [|discriminate].
          injection Hc as _ <-. eapply Hc2, Hb.
        * injection Hc as _ <-. apply extends_with_ids_refl.
    - intros xrefs x'. unfold handle_defs, handle_defs_with. cbn [children].
      apply Hdefs, IH. }
  destruct (Hwalk e) as [Hgroup Hdefs]. split; [exact Hgroup|]. split; [exact Hdefs|].
  intros o (_ & _ & Hconv)%SVGObject_init_ok k Hk.
  destruct (Hgroup _ _ _ _ Hconv k) as [_ [H'|H']]; [exact Hk | | exact H'].
  rewrite lookup_empty in H'. now destruct H'.
Qed.

(** *** The root element *)

(** X19.  The walk of the document reads the root element for its children
    and its [id] alone: its tag and its other attributes (a [style], a
    [fill], a [transform], ...) have no effect on the base group or on the
    table, and raise nothing. *)
Theorem root_attributes_are_not_read (t t' : string) (a a' : gmap string string)
  (cs : list Element) (xrefs : XRefs) :
  a !! "id" = a' !! "id" ->
  convert_graphics (mkElement t a cs) xrefs = convert_graphics (mkElement t' a' cs) xrefs.
Proof.
  intros Hid. unfold convert_graphics. rewrite !build_group_unfold.
  unfold group_start, register. cbn [children attrib mbind res_bind bind].
  rewrite Hid. reflexivity.
Qed.

(** *** The converted document *)

Lemma extract_shape_info_viewbox (root_tag : Element) par w h vb :
  extract_shape_info root_tag = Ok (par, w, h, vb) ->
  match vb with
  | Some (_, _, vw, vh) => (vw < zero) = false /\ (vh < zero) = false
  | None => attrib root_tag !! "viewBox" = None
  end.
Proof.
  unfold extract_shape_info.
  destruct (extract_dimension (attrib root_tag !! "width")); [|discriminate].
  destruct (extract_dimension (attrib root_tag !! "height")); [|discriminate].
  cbn [mbind res_bind bind].
  destruct (attrib root_tag !! "viewBox") as [s|];
    [|cbn [mbind res_bind bind]; intros [= _ _ _ <-]; reflexivity].
  destruct (mapM float (NUMBER_SPLIT_split s)) as [ns|]; [|discriminate].
  cbn [mbind res_bind bind].
  destruct ns as [|vx [|vy [|vw [|vh [|]]]]]; try discriminate.
  destruct (vw < zero) eqn:Hvw; [discriminate|].
  destruct (vh < zero) eqn:Hvh; [discriminate|].
  cbn [orb mbind res_bind bind]. intros [= _ _ _ <-]. now split.
Qed.

(** X20.  A document that converts has a root element [svg]; the object
    built for it has a viewBox without negative extent, and a base group
    with the style [convert_graphics] sets, no transform, and exactly one
    item per child of the root that the walker draws. *)
Theorem converted_document_invariants (svg_tree : Element) (o : SVGObject) :
  SVGObject_init svg_tree = Ok o ->
  tag_in svg_tree "svg" = true
  /\ match viewbox o with
     | Some (_, _, vw, vh) => (vw < zero) = false /\ (vh < zero) = false
     | None => True
     end
  /\ gc_style (base_group o) = base_style
  /\ gc_transform (base_group o) = None
  /\ length (gc_items (base_group o))
     = length (List.filter walker_draws (children svg_tree)).
Proof.
  intros (Htag & (par & w & h & Hinfo) & Hwalk)%SVGObject_init_ok.
  split; [exact Htag|]. split.
  { apply extract_shape_info_viewbox in Hinfo.
    destruct (viewbox o) as [[[[vx vy] vw] vh]|]; [exact Hinfo | exact I]. }
  unfold convert_graphics in Hwalk.
  rewrite build_group_unfold in Hwalk. unfold group_start in Hwalk.
  rewrite bind_Ok in Hwalk.
  destruct (build_children (children svg_tree) _ ∅) as [[g1 x1]|] eqn:Hcs;
    [|discriminate Hwalk].
  rewrite bind_Ok in Hwalk. injection Hwalk as <- _.
  apply build_children_items in Hcs as (Hstyle & Htr & new & Hitems & Hlen).
  split; [exact Hstyle|]. split; [exact Htr|].
  rewrite Hitems. cbn [gc_items set_style GraphicsContext_new app]. exact Hlen.
Qed.

(** X21.  The text of the [viewBox] attribute is split as it stands (the
    result of its [strip] is dropped): when it starts with a blank or a
    comma, the first piece handed to [float] is empty and the conversion
    stops with the [ValueError] of [float]. *)
Theorem viewbox_leading_separator_raises (root_tag : Element) (c : ascii) (s : string) :
  attrib root_tag !! "viewBox" = Some (String c s) ->
  is_separator c = true ->
  float_str EmptyString = None ->
  is_ok (extract_dimension (attrib root_tag !! "width")) = true ->
  is_ok (extract_dimension (attrib root_tag !! "height")) = true ->
  extract_shape_info root_tag
  = Raise (ValueError ("could not convert string to float: " +:+ repr_str EmptyString)).
Proof.
  intros Hvb Hc Hfloat Hw Hh. unfold extract_shape_info.
  destruct (extract_dimension (attrib root_tag !! "width")); [|discriminate Hw].
  destruct (extract_dimension (attrib root_tag !! "height")); [|discriminate Hh].
  cbn [mbind res_bind bind]. rewrite Hvb.
  assert (Hsplit : exists rest, NUMBER_SPLIT_split (String c s) = EmptyString :: rest).
  { unfold NUMBER_SPLIT_split, is_separator in *. cbn [number_split_go].
    destruct (is_space c); [eauto|]. cbn [orb] in Hc. rewrite Hc. eauto. }
  destruct Hsplit as [rest ->].
  assert (Hf : float EmptyString
               = Raise (ValueError ("could not convert string to float: "
                                      +:+ repr_str EmptyString))).
  { unfold float. now rewrite Hfloat. }
  cbn [mapM]. rewrite Hf. reflexivity.
Qed.

(** *** The viewport scaler *)

(** X22.  The viewport scaler never touches what the base group holds: a
    call that succeeds returns either the empty group with the size 0, 0,
    or a group with the items and the style of the base group and a
    transform of its own, with the viewport size divided by the scale; in
    the latter case the scale is not zero. *)
Theorem viewport_keeps_the_drawing (self : SVGObject) (scale width_ height_ : num)
  (align_viewbox ignore_svg_top_attrs : bool) (w h : num) (g : GraphicsContext) :
  transform_to_rect_viewport self scale width_ height_ align_viewbox ignore_svg_top_attrs
  = Ok (w, h, g) ->
  (w = zero /\ h = zero /\ g = GraphicsContext_new)
  \/ (gc_items g = gc_items (base_group self)
      /\ gc_style g = gc_style (base_group self)
      /\ is_Some (gc_transform g)
      /\ (scale == zero) = false
      /\ exists vp_width vp_height,
           viewport_dimension ignore_svg_top_attrs (width self) width_ "width"
           = Ok vp_width
           /\ viewport_dimension ignore_svg_top_attrs (height self) height_ "height"
              = Ok vp_height
           /\ w = fdiv vp_width scale /\ h = fdiv vp_height scale).
Proof.
  unfold transform_to_rect_viewport.
  destruct (viewport_dimension ignore_svg_top_attrs (width self) width_ "width")
    as [vpw|]; [|discriminate].
  destruct (viewport_dimension ignore_svg_top_attrs (height self) height_ "height")
    as [vph|]; [|discriminate].
  cbn [mbind res_bind bind].
  destruct (if scale == one then _ else _) as [t|]; [|discriminate].
  cbn [mbind res_bind bind].
  assert (Hend : forall t',
    (w0 ← truediv vpw scale; h0 ← truediv vph scale;
     Ok (w0, h0, set_transform (base_group self) t')) = Ok (w, h, g) ->
    gc_items g = gc_items (base_group self)
    /\ gc_style g = gc_style (base_group self)
    /\ is_Some (gc_transform g)
    /\ (scale == zero) = false
    /\ exists vp_width vp_height,
         Ok vpw = Ok vp_width /\ Ok vph = Ok vp_height
         /\ w = fdiv vp_width scale /\ h = fdiv vp_height scale).
  { intros t'. unfold truediv. destruct (scale == zero); [discriminate|].
    cbn [mbind res_bind bind]. intros [= <- <- <-].
    destruct (base_group self) as [s tr i]. cbn [set_transform gc_items gc_style gc_transform].
    do 3 (split; [reflexivity || (eexists; reflexivity)|]).
    split; [reflexivity|]. exists vpw, vph. repeat split. }
  destruct (viewbox self) as [[[[vx vy] vw] vh]|]; [|intros H'; right; eapply Hend, H'].
  destruct ((vw == zero) || (vh == zero)); [intros [= <- <- <-]; now left|].
  destruct (truediv vpw vw) as [wr|]; [|discriminate].
  destruct (truediv vph vh) as [hr|]; [|discriminate].
  cbn [mbind res_bind bind].
  destruct (negb ignore_svg_top_attrs && preserve_ar self && negb (wr == hr));
    intros H'; right; eapply Hend, H'.
Qed.

(** X23.  With [ignore_svg_top_attrs] the scaler does not read the width,
    the height and the aspect-ratio flag of the document: two objects with
    the same viewBox and the same base group give the same result. *)
Theorem ignored_top_attributes_are_not_read (self other : SVGObject)
  (scale width_ height_ : num) (align_viewbox : bool) :
  viewbox self = viewbox other ->
  base_group self = base_group other ->
  transform_to_rect_viewport self scale width_ height_ align_viewbox true
  = transform_to_rect_viewport other scale width_ height_ align_viewbox true.
Proof.
  intros Hvb Hbg. unfold transform_to_rect_viewport, viewport_dimension.
  rewrite Hvb, Hbg. cbn [negb andb]. reflexivity.
Qed.

(** *** The style of a built element *)

Lemma attr_fields_NoDup : NoDup (map snd attr_fields).
Proof. apply (bool_decide_unpack _). vm_compute. exact I. Qed.

(** The loop assigns the converted value of each mapped attribute that is
    present, and no later step of the loop touches the field. *)
Lemma apply_styles_loop_assigns m afs :
  Forall2 (fun (entry : string * (string -> res (string * StyleValue))) af =>
             fst entry = fst af
             /\ forall s f v, snd entry s = Ok (f, v) -> f = snd af) m afs ->
  NoDup (map snd afs) ->
  forall (a : gmap string string) (st st' : gmap string StyleValue),
    apply_styles_loop m a st = Ok st' ->
    forall k conv v field value,
      In (k, conv) m -> a !! k = Some v -> conv v = Ok (field, value) ->
      st' !! field = Some value.
Proof.
  induction 1 as [|[svg_attr converter] [attr0 field0] m afs [Hattr Hfield] Hrest IH];
    intros Hnodup a st st' H k conv v field value Hin Hk Hconv.
  - destruct Hin.
  - cbn [fst snd map] in Hattr, Hfield, Hnodup. subst attr0.
    apply NoDup_cons in Hnodup as [Hfresh Hnodup].
    rewrite apply_styles_loop_cons in H.
    destruct Hin as [[= -> ->]|Hin].
    + rewrite Hk, Hconv in H.
      rewrite (apply_styles_loop_frame _ _ Hrest _ _ _ H field).
      * apply lookup_insert_eq.
      * intros attr Hattr. exfalso. apply Hfresh, list_elem_of_In.
        rewrite <- (Hfield _ _ _ Hconv). apply (in_map snd) in Hattr. exact Hattr.
    + destruct (a !! svg_attr) as [s|]; [|eapply IH; eassumption].
      destruct (converter s) as [[attr value0]|e]; [eapply IH; eassumption|].
      destruct e; try discriminate H. eapply IH; eassumption.
Qed.

(** The field of a mapped attribute after [apply_styles]: the converted
    value of the attribute, unless the generic opacity overwrites it. *)
Lemma apply_styles_field (st : gmap string StyleValue) (tr : option Transform)
  (a : gmap string string) st' tr' a' k conv v field value :
  apply_styles st tr a = Ok (st', tr', a') ->
  In (k, conv) svg_attr_map ->
  parse_style a !! k = Some v ->
  conv v = Ok (field, value) ->
  parse_style a !! "opacity" = None
  \/ (field <> "fill_opacity" /\ field <> "stroke_opacity") ->
  st' !! field = Some value.
Proof.
  intros (st1 & Hloop & Hop & _ & _)%apply_styles_ok Hin Hk Hconv Hopacity.
  pose proof (apply_styles_loop_assigns _ _ svg_attr_map_fields attr_fields_NoDup
                _ _ _ Hloop _ _ _ _ _ Hin Hk Hconv) as Hst1.
  destruct (parse_style a !! "opacity") as [s|]; [|now subst].
  destruct Hop as (o & _ & ->).
  destruct Hopacity as [?|[? ?]]; [discriminate|].
  now rewrite !lookup_insert_ne by congruence.
Qed.

Lemma new_path_style (tag : Element) (path : PaintedPath) :
  new_path tag = Ok path -> applied_style tag (path_style path).
Proof.
  unfold new_path, applied_style.
  destruct (apply_styles ∅ None (attrib tag)) as [[[style transform] a]|];
    [|discriminate].
  cbn [mbind res_bind bind]. intros [= <-]. cbn [path_style]. eauto.
Qed.

Lemma svg_path_converter_style (pdf_path : PaintedPath) (svg_path : string) path' :
  svg_path_converter pdf_path svg_path = Ok path' ->
  path_style path' = path_style pdf_path.
Proof.
  unfold svg_path_converter.
  destruct parse_path as [parse|]; [|discriminate].
  destruct (strip svg_path) as [|c r]; [discriminate|].
  destruct (negb (Ascii.eqb c "M" || Ascii.eqb c "m")); [discriminate|].
  destruct (parse (String c r)) as [cmds|]; [|discriminate].
  cbn [mbind res_bind bind].
  now intros (new & _ & _ & Hstyle & _)%svg_path_loop_appends.
Qed.

(** A shape converter returns the empty path of [rect], or a path with the
    style [apply_styles] gives the element. *)
Lemma shape_style (name : string) (tag : Element) (p : PaintedPath) :
  ShapeBuilder_dispatch name tag = Ok p ->
  (name = "rect" /\ p = PaintedPath_new) \/ applied_style tag (path_style p).
Proof.
  unfold ShapeBuilder_dispatch.
  destruct (String.eqb_spec name "rect") as [->|_].
  { unfold ShapeBuilder_rect.
    destruct (float_get (attrib tag) "x") as [x|]; [|discriminate].
    destruct (float_get (attrib tag) "y") as [y|]; [|discriminate].
    destruct (float_get (attrib tag) "width") as [w|]; [|discriminate].
    destruct (float_get (attrib tag) "height") as [h|]; [|discriminate].
    cbn [mbind res_bind bind]. cbv zeta. unfold mbind at 1, res_bind at 1.
    match goal with
    | |- bind ?m _ = _ -> _ => destruct m as [[rx ry]|]; [|discriminate]
    end.
    cbn [bind].
    destruct ((w < zero) || (h < zero) || (rx < zero) || (ry < zero)); [discriminate|].
    destruct ((w == zero) || (h == zero)); [intros [= <-]; now left|].
    destruct (new_path tag) as [p0|] eqn:Hp; [|discriminate].
    cbn [mbind res_bind bind]. intros [= <-]. right.
    exact (new_path_style _ _ Hp). }
  destruct (String.eqb name "circle").
  { unfold ShapeBuilder_circle. intros H. right.
    destruct (float_get (attrib tag) "cx"); [|discriminate H].
    destruct (float_get (attrib tag) "cy"); [|discriminate H].
    rewrite !bind_Ok in H.
    destruct (getitem (attrib tag) "r") as [r|]; [|discriminate H].
    rewrite bind_Ok in H.
    destruct (float r); [|discriminate H]. rewrite bind_Ok in H.
    destruct (new_path tag) as [path|] eqn:Hp; [|discriminate H].
    rewrite bind_Ok in H. injection H as <-.
    exact (new_path_style _ _ Hp). }
  destruct (String.eqb name "ellipse").
  { unfold ShapeBuilder_ellipse. intros H. right.
    destruct (float_get (attrib tag) "cx"); [|discriminate H].
    destruct (float_get (attrib tag) "cy"); [|discriminate H].
    rewrite !bind_Ok in H. cbv zeta in H.
    destruct (new_path tag) as [path|] eqn:Hp; [|discriminate H].
    rewrite bind_Ok in H.
    destruct (_ || _); [injection H as <-; exact (new_path_style _ _ Hp)|].
    unfold mbind at 1, res_bind at 1 in H.
    match type of H with
    | bind ?m _ = _ => destruct m as [[rx ry]|]; [|discriminate H]
    end.
    cbn [bind] in H. injection H as <-. exact (new_path_style _ _ Hp). }
  destruct (String.eqb name "line").
  { unfold ShapeBuilder_line. intros H. right.
    repeat match type of H with
           | (?m ≫= _) = _ =>
               lazymatch m with
               | new_path _ => fail
               | _ => destruct m; [rewrite bind_Ok in H | discriminate H]
               end
           end.
    destruct (new_path tag) as [path|] eqn:Hp; [|discriminate H].
    rewrite bind_Ok in H. injection H as <-. exact (new_path_style _ _ Hp). }
  destruct (String.eqb name "polyline").
  { unfold ShapeBuilder_polyline. intros H. right.
    destruct (getitem (attrib tag) "points") as [points|]; [|discriminate H].
    rewrite bind_Ok in H.
    destruct (new_path tag) as [path|] eqn:Hp; [|discriminate H].
    rewrite bind_Ok in H. rewrite (svg_path_converter_style _ _ _ H).
    exact (new_path_style _ _ Hp). }
  destruct (String.eqb name "polygon"); [|discriminate].
  unfold ShapeBuilder_polygon. intros H. right.
  destruct (getitem (attrib tag) "points") as [points|]; [|discriminate H].
  rewrite bind_Ok in H.
  destruct (new_path tag) as [path|] eqn:Hp; [|discriminate H].
  rewrite bind_Ok in H. rewrite (svg_path_converter_style _ _ _ H).
  exact (new_path_style _ _ Hp).
Qed.

Lemma build_group_style (e : Element) (xrefs : XRefs) g x' :
  build_group e None xrefs = Ok (g, x') -> applied_style e (gc_style g).
Proof.
  rewrite build_group_unfold. unfold group_start, applied_style.
  destruct (apply_styles ∅ None (attrib e)) as [[[style transform] a]|];
    [|discriminate].
  rewrite !bind_Ok.
  destruct (build_children (children e) _ xrefs) as [[g1 x1]|] eqn:Hcs;
    [|discriminate].
  rewrite bind_Ok. intros [= <- _].
  apply build_children_items in Hcs as (-> & _). cbn [gc_style]. eauto.
Qed.

Lemma build_path_style (e : Element) (xrefs : XRefs) p x' :
  build_path e xrefs = Ok (p, x') -> applied_style e (path_style p).
Proof.
  unfold build_path, applied_style.
  destruct (apply_styles ∅ None (attrib e)) as [[[style transform] a]|];
    [|discriminate].
  rewrite bind_Ok.
  destruct (a !! "d") as [svg_path|].
  - destruct (svg_path_converter _ svg_path) as [p1|] eqn:Hc; [|discriminate].
    rewrite bind_Ok. intros [= <- _].
    rewrite (svg_path_converter_style _ _ _ Hc). cbn [path_style]. eauto.
  - rewrite bind_Ok. intros [= <- _]. cbn [path_style]. eauto.
Qed.

Lemma build_xref_style (e : Element) (xrefs : XRefs) g :
  build_xref e xrefs = Ok g -> applied_style e (gc_style g).
Proof.
  unfold build_xref, applied_style.
  destruct (apply_styles ∅ None (attrib e)) as [[[style transform] a]|];
    [|discriminate].
  rewrite bind_Ok.
  destruct (find_ref _ a); [|discriminate].
  destruct (xrefs !! _); [|discriminate].
  destruct (_ || _).
  - destruct (float_get a "x"); [|discriminate]. rewrite bind_Ok.
    destruct (float_get a "y"); [|discriminate]. rewrite bind_Ok.
    intros [= <-]. cbn [gc_style set_transform add_item]. eauto.
  - intros [= <-]. cbn [gc_style add_item]. eauto.
Qed.

(** Each of the four builders leaves the empty path of [rect], or an item
    with the style [apply_styles] gives the element. *)
Lemma built_style (e : Element) (item : Drawable) :
  built e item ->
  (lookup_get (tag e) shape_tags = Some "rect" /\ item = DPath PaintedPath_new)
  \/ applied_style e (style_of item).
Proof.
  intros [(xrefs & g & x' & H & ->)|[(xrefs & p & x' & H & ->)
           |[(name & p & Hname & H & ->)|(xrefs & g & H & ->)]]];
    cbn [style_of].
  - right. exact (build_group_style _ _ _ _ H).
  - right. exact (build_path_style _ _ _ _ H).
  - apply shape_style in H as [[-> ->]|H]; [left; now split | now right].
  - right. exact (build_xref_style _ _ _ H).
Qed.

(** The body of the loop of [build_group] appends, for a child the walker
    draws, the item one of the four builders returns for it. *)
Lemma build_child_built (child : Element) g (xrefs : XRefs) g' x' :
  build_child child g xrefs = Ok (g', x') ->
  walker_draws child = true ->
  exists item, g' = add_item g item /\ built child item.
Proof.
  unfold walker_draws, built. intros H Hdraws.
  destruct (tag_in child "g") eqn:Hg.
  { rewrite (build_child_g _ _ _ Hg) in H.
    destruct (build_group child None xrefs) as [[gg x1]|] eqn:Hb; [|discriminate].
    injection H as <- _. eauto 10. }
  destruct (tag_in child "path") eqn:Hp.
  { rewrite (build_child_path _ _ _ Hp) in H.
    destruct (build_path child xrefs) as [[pp x1]|] eqn:Hb; [|discriminate].
    injection H as <- _. eauto 10. }
  destruct (lookup_get (tag child) shape_tags) as [name|] eqn:Hs.
  { rewrite (build_child_shape _ _ _ _ Hs) in H.
    destruct (ShapeBuilder_dispatch name child) as [p|] eqn:Hb; [|discriminate].
    injection H as <- _. eauto 10. }
  destruct (tag_in child "use") eqn:Hu; [|discriminate Hdraws].
  rewrite (build_child_use _ _ _ Hu) in H.
  destruct (build_xref child xrefs) as [gg|] eqn:Hb; [|discriminate].
  injection H as <- _. eauto 10.
Qed.

(** C10 (as amended).  Take an element the walker builds an item for (a
    [g], a [path], a basic shape or a [use]: never the root element) that
    carries an individual attribute [k] which [svg_attr_map] maps, and a
    [style] attribute that assigns the property [k] a value [v] (in a
    piece with exactly one colon, the last such piece for [k]) which the
    converter of [k] accepts.  Then [parse_style] leaves [v] under [k] in
    the attribute map, whatever the individual attribute was;
    [apply_styles] unpacks the style before it maps any property, so its
    whole result is the one it gives for the element whose individual
    attribute is [v]; and the style record of the built item holds, in the
    field of [k], the converted value of [v] -- unless the item is the
    empty path a [rect] with a zero side returns before its style is
    applied, and, for the two opacity fields, unless the element carries
    the generic [opacity], which is written after them. *)
Theorem inline_style_overrides_attribute (e : Element) (item : Drawable)
  (style k a0 v : string) (conv : string -> res (string * StyleValue))
  (field : string) (value : StyleValue) :
  attrib e !! k = Some a0 ->
  attrib e !! "style" = Some style ->
  style_declares style k = Some v ->
  In (k, conv) svg_attr_map ->
  conv v = Ok (field, value) ->
  built e item ->
  parse_style (attrib e) !! k = Some v
  /\ parse_style (attrib e) = parse_style (<[k := v]> (attrib e))
  /\ (forall st tr,
        apply_styles st tr (attrib e) = apply_styles st tr (<[k := v]> (attrib e)))
  /\ ((lookup_get (tag e) shape_tags = Some "rect" /\ item = DPath PaintedPath_new)
      \/ (parse_style (attrib e) !! "opacity" = None
          \/ (field <> "fill_opacity" /\ field <> "stroke_opacity") ->
          style_of item !! field = Some value)).
Proof.
  intros Hk Hstyle Hdecl Hin Hconv Hbuilt.
  assert (Hne : k <> "style").
  { intros ->. unfold svg_attr_map, In in Hin.
    repeat destruct Hin as [[= Hin _]|Hin]; try discriminate Hin. destruct Hin. }
  destruct (style_overrides (attrib e) style k a0 v Hk Hstyle Hne Hdecl)
    as (Hlookup & Heq).
  split; [exact Hlookup|]. split; [exact Heq|]. split.
  - intros st tr. unfold apply_styles. rewrite Heq. reflexivity.
  - destruct (built_style e item Hbuilt) as [Hempty|(tr' & a' & Hs)]; [now left|].
    right. intros Hopacity.
    exact (apply_styles_field _ _ _ _ _ _ _ _ _ _ _ Hs Hin Hlookup Hconv Hopacity).
Qed.

End Further.

(** ** The module on documents *)

Section Documents.
Local Open Scope float_scope.

(** The module on a few inputs. *)
Example resolve_length_inch : resolve_length (num := F) "1in" "pt" = Ok 72.
Proof. reflexivity. Qed.

Example resolve_length_two_cm :
  resolve_length (num := F) "2cm" "pt" = Ok (2 * (72 / Binary64.dec 254 (-2))).
Proof. reflexivity. Qed.

Example resolve_length_default_unit : resolve_length (num := F) "10" "pt" = Ok 10.
Proof. reflexivity. Qed.

Example number_split_example :
  NUMBER_SPLIT_split "1, 2 ,3  ,  4,,5 6 " = ["1"; "2"; "3"; "4"; ""; "5"; "6"; ""].
Proof. reflexivity. Qed.

Example findall_example :
  TRANSFORM_GETTER_findall "rotate(45, 1 2) skew(1 , 2) scaleX( 2 )"
  = [("rotate", "45, 1 2"); ("scaleX", " 2 ")].
Proof. reflexivity. Qed.

Example rect_auto_radius_is_clamped :
  path_items <$> ShapeBuilder_rect (num := F)
    (element "rect" [("width", "10"); ("height", "4"); ("rx", "auto"); ("ry", "5")] [])
  = Ok [Rectangle 0 0 10 4 5 2].
Proof. reflexivity. Qed.

Example rect_negative_radius_is_an_error :
  ShapeBuilder_rect (num := F)
    (element "rect" [("width", "10"); ("height", "4"); ("rx", "-1")] [])
  = Raise (ValueError "bad rect <Element 'rect'>").
Proof. reflexivity. Qed.

(** C1, witness: a smooth cubic element right after a cubic curve, in a
    path that goes on with a line and a relative smooth element. *)
Lemma smooth_curve_leading_control_point_witness :
  exists resolved r_prev r_smooth cur,
    render_items smooth_items (LastOther (Some (pt 0 0))) (pt 0 0) = Ok resolved
    /\ length resolved = length smooth_items
    /\ resolved !! 1%nat = Some r_prev
    /\ resolved !! 2%nat = Some r_smooth
    /\ end_point r_prev = Ok cur
    /\ leading_control_point (BezierCurve (pt 1 2) (pt 3 4) (pt 5 6)) r_prev cur
         (SVGSmoothCubicCurve (pt 8 9) (pt 10 10)) r_smooth.
Proof.
  exact (smooth_curve_leading_control_point (num := F) [Move (pt 0 0)]
           (BezierCurve (pt 1 2) (pt 3 4) (pt 5 6))
           (SVGSmoothCubicCurve (pt 8 9) (pt 10 10))
           [Line (pt 12 0); SVGRelativeSmoothCubicCurve (pt 1 1) (pt 2 0)]
           (LastOther (Some (pt 0 0))) (pt 0 0) eq_refl eq_refl).
Defined.

(** That path, resolved: after the cubic curve the leading control point is
    [2 * (5, 6) - (3, 4)]; after the line it is the current point. *)
Example smooth_items_rendered :
  render_items smooth_items (LastOther (Some (pt 0 0))) (pt 0 0)
  = Ok [LastOther (Some (pt 0 0)); LastBezierCurve (pt 1 2) (pt 3 4) (pt 5 6);
        LastBezierCurve (pt 7 8) (pt 8 9) (pt 10 10); LastOther (Some (pt 12 0));
        LastBezierCurve (pt 12 0) (pt 13 1) (pt 14 0)].
Proof. reflexivity. Qed.

(** The quadratic family: a chain of smooth elements reflects the control
    point each one resolved to, and a smooth cubic element after a
    quadratic curve starts from the current point. *)
Example quadratic_items_rendered :
  render_items quadratic_items (LastOther (Some (pt 0 0))) (pt 0 0)
  = Ok [LastOther (Some (pt 0 0)); LastQuadraticBezierCurve (pt 1 3) (pt 4 4);
        LastQuadraticBezierCurve (pt 7 5) (pt 8 0);
        LastQuadraticBezierCurve (pt 9 (-5)) (pt 10 2);
        LastBezierCurve (pt 10 2) (pt 11 1) (pt 12 0)].
Proof. reflexivity. Qed.

(** The elements [svg_path_converter] appends for the text of that path
    are the elements rendered above. *)
Example smooth_path_is_converted :
  path_items <$> @svg_path_converter F binary64 with_svg_path PaintedPath_new smooth_path
  = Ok smooth_items.
Proof. reflexivity. Qed.

(** A smooth element rendered after an element without [end_point] raises
    [AttributeError]. *)
Example smooth_after_shape_raises :
  render_items [Circle 0 0 1; SVGSmoothCubicCurve (pt 8 9) (pt 10 10)]
    (LastOther (Some (pt 0 0))) (pt 0 0)
  = Raise (AttributeError "object has no attribute 'end_point'").
Proof. reflexivity. Qed.

(** C2, witness: the list [translate(10) scale(2)]. *)
Lemma convert_transforms_precomposes_witness :
  exists fs : list (Transform (num := F)),
    Forall2 (fun tf f => forall existing,
               convert_transform_step translate_then_scale existing tf
               = Ok (f @ existing))
      (TRANSFORM_GETTER_findall translate_then_scale) fs
    /\ Transform_scaling 2 2 @ (Transform_translation 10 0 @ Transform_identity)
       = precompose_all fs Transform_identity
    /\ (forall p,
          act
            (Transform_scaling 2 2 @ (Transform_translation 10 0 @ Transform_identity)) p
          = apply_last_first act fs p)
    /\ (forall f1 f2, fs = [f1; f2] ->
          Transform_scaling 2 2 @ (Transform_translation 10 0 @ Transform_identity)
          = f2 @ (f1 @ Transform_identity)).
Proof.
  apply (convert_transforms_precomposes (num := F) act).
  - reflexivity.
  - reflexivity.
  - reflexivity.
Defined.

(** C2, counterexample: for the list [translate(10) scale(2)] the two
    functions have the transforms [f1 = translation(10, 0)] and
    [f2 = scaling(2, 2)], the result is [f2 @ (f1 @ identity)], and it is
    not [f1 @ f2]: the point (1, 1) goes to (12, 2) by the result and to
    (22, 2) by [f1 @ f2]. *)
Lemma two_function_result_is_not_f1_f2 :
  TRANSFORM_GETTER_findall translate_then_scale = [("translate", "10"); ("scale", "2")]
  /\ (forall existing : Transform (num := F),
        convert_transform_step translate_then_scale existing ("translate", "10")
        = Ok (Transform_translation 10 0 @ existing))
  /\ (forall existing : Transform (num := F),
        convert_transform_step translate_then_scale existing ("scale", "2")
        = Ok (Transform_scaling 2 2 @ existing))
  /\ convert_transforms (num := F) translate_then_scale
     = Ok (Transform_scaling 2 2 @ (Transform_translation 10 0 @ Transform_identity))
  /\ convert_transforms (num := F) translate_then_scale
     <> Ok (Transform_translation 10 0 @ Transform_scaling 2 2)
  /\ act
       (Transform_scaling 2 2 @ (Transform_translation 10 0 @ Transform_identity))
       (pt 1 1) = pt 12 2
  /\ act (Transform_translation 10 0 @ Transform_scaling 2 2) (pt 1 1)
     = pt 22 2.
Proof.
  repeat split; try (intros; reflexivity).
  intros H.
  assert (Hc : convert_transforms (num := F) translate_then_scale
    = Ok (Transform_scaling 2 2 @ (Transform_translation 10 0 @ Transform_identity)))
    by (reflexivity).
  rewrite Hc in H. injection H as H.
  apply (f_equal (fun t : Transform => PrimFloat.eqb (pt_x (act t (pt 1 1))) 12)) in H.
  vm_compute in H. discriminate H.
Qed.

(** The table after [group_a] is built and registered. *)
Lemma group_a_registered :
  exists (g : GraphicsContext (num := F)) xrefs,
    build_group group_a None ∅ = Ok (g, xrefs) /\ xrefs = {[ "#a" := DGroup g ]}.
Proof. eexists _, _. split; reflexivity. Qed.

(** C3: the code at [<use href="#a" transform="scale(2)" x="10" y="5"/>].
    The group the element builds wraps the subtree registered as [a], and
    its transform is the translation by (10, 5) alone: the transform
    [scale(2)] that [apply_styles] had assigned is replaced, not composed
    with.  The point (1, 1) goes to (11, 6); composed with the scaling it
    would go to (12, 7) or to (22, 12). *)
Theorem use_offset_replaces_transform :
  exists (a g : GraphicsContext (num := F)) xrefs,
    build_group group_a None ∅ = Ok (a, xrefs)
    /\ xrefs !! "#a" = Some (DGroup a)
    /\ build_xref use_a_scaled xrefs = Ok g
    /\ gc_items g = [DGroup a]
    /\ convert_transforms (num := F) "scale(2)"
       = Ok (Transform_scaling 2 2 @ Transform_identity)
    /\ gc_transform g = Some (Transform_translation 10 5)
    /\ act (Transform_translation 10 5) (pt 1 1) = pt 11 6
    /\ act ((Transform_scaling 2 2 @ Transform_identity) @ Transform_translation 10 5)
         (pt 1 1) = pt 12 7
    /\ act (Transform_translation 10 5 @ (Transform_scaling 2 2 @ Transform_identity))
         (pt 1 1) = pt 22 12.
Proof.
  eexists _, _, _. repeat split; reflexivity.
Qed.

(** The whole document: the base group holds the group [a] and, after it,
    the group of the reference, which wraps [a] and carries the translation
    alone. *)
Lemma reuse_document_is_converted :
  match SVGObject_init (num := F) doc_reuse with
  | Ok o =>
      match gc_items (base_group o) with
      | [DGroup a; DGroup g] =>
          cross_references o !! "#a" = Some (DGroup a)
          /\ gc_items g = [DGroup a]
          /\ gc_transform g = Some (Transform_translation 10 5)
      | _ => False
      end
  | Raise _ => False
  end.
Proof. repeat split; reflexivity. Qed.

(** C4, witness: a reference to [a] that comes before the group [a]. *)
Lemma unresolved_use_fails_witness :
  exists e,
    build_group (num := F) doc_forward
      (Some (set_style (set_style (set_style GraphicsContext_new "stroke_width" PyNone)
               "auto_close" (VBool false)) "stroke_cap_style" (VStr "butt"))) ∅
    = Raise e.
Proof.
  apply (unresolved_use_fails (num := F) doc_forward _ ∅ [] use_a [group_a]).
  - reflexivity.
  - reflexivity.
  - intros g0 a0 g1 x1 _ H. injection H as _ <-. reflexivity.
Defined.

(** The conversion of that document stops with the error of the reference. *)
Lemma forward_reference_stops_conversion :
  SVGObject_init (num := F) doc_forward
  = Raise (ValueError "use <Element 'use'> references nonexistent ref id #a").
Proof. reflexivity. Qed.

(** C5, witness: the group [a] as a child of a group, and as a child of
    [defs]. *)
Lemma identified_group_or_path_is_registered_witness :
  (exists (g' : GraphicsContext (num := F)) x' item,
     build_child group_a GraphicsContext_new ∅ = Ok (g', x')
     /\ x' !! "#a" = Some item
     /\ gc_items g' = [item])
  /\ (exists (x' x0 x1 : gmap string (Drawable (num := F))) item,
        handle_defs defs_mixed ∅ = Ok x'
        /\ handle_defs (mkElement (tag defs_mixed) (attrib defs_mixed) []) ∅ = Ok x0
        /\ ((exists g, build_group group_a None x0 = Ok (g, x1) /\ item = DGroup g)
            \/ (exists p, build_path group_a x0 = Ok (p, x1) /\ item = DPath p))
        /\ x1 !! "#a" = Some item
        /\ handle_defs
             (mkElement (tag defs_mixed) (attrib defs_mixed)
                [rect_r; element "use" [("href", "#nowhere")] []]) x1
           = Ok x').
Proof.
  destruct (identified_group_or_path_is_registered (num := F))
    as (_ & _ & Hchild & Hdefs).
  split.
  - destruct (Hchild group_a GraphicsContext_new ∅ _ _ eq_refl) as [Hreg _].
    destruct (Hreg eq_refl "a" eq_refl) as (item & Hitem & Hitems).
    eexists _, _, item. split; [reflexivity|]. split; assumption.
  - destruct (Hdefs defs_mixed [] group_a
                [rect_r; element "use" [("href", "#nowhere")] []] ∅ _ "a"
                eq_refl eq_refl eq_refl eq_refl)
      as (x0 & x1 & item & H0 & Hb & Hreg & Hrest).
    eexists. exists x0, x1, item. split; [reflexivity|]. repeat split; assumption.
Defined.

(** C5, counterexample: a rectangle with the identifier [r] is built and
    drawn, and nothing is registered under [#r]; a reference to it that
    follows stops the conversion. *)
Lemma identified_rect_is_not_registered :
  (exists o : SVGObject (num := F),
     SVGObject_init doc_rect = Ok o
     /\ attrib rect_r !! "id" = Some "r"
     /\ length (gc_items (base_group o)) = 1%nat
     /\ cross_references o !! "#r" = None)
  /\ SVGObject_init (num := F) doc_rect_use
     = Raise (ValueError "use <Element 'use'> references nonexistent ref id #r").
Proof.
  split; [eexists; repeat split|]; reflexivity.
Qed.

(** C6: the code at [opacity="inherit"]: [float] rejects the text and
    [apply_styles] stops with its error, while the attributes
    [fill-opacity] and [stroke-opacity] with the same value give the
    marker. *)
Theorem opacity_inherit_is_an_error :
  apply_styles (num := F) ∅ None (list_to_map [("opacity", "inherit")])
  = Raise (ValueError "could not convert string to float: 'inherit'")
  /\ apply_styles (num := F) ∅ None
       (list_to_map [("fill-opacity", "inherit"); ("stroke-opacity", "inherit")])
     = Ok (<["stroke_opacity" := INHERIT]>
             (<["fill_opacity" := INHERIT]> (<["auto_close" := VBool false]> ∅)),
           None,
           list_to_map [("fill-opacity", "inherit"); ("stroke-opacity", "inherit")]).
Proof. split; reflexivity. Qed.

(** C7: the code at [<ellipse rx="0" ry="0"/>]: the test [rx == 0] compares
    a [str] with an [int] and fails, and the path receives an ellipse with
    both radii zero; with both radii auto the path is empty, and an auto
    radius takes the value of the other one. *)
Theorem ellipse_zero_radii_is_not_empty :
  (exists path : PaintedPath (num := F),
     ShapeBuilder_ellipse ellipse_zero = Ok path
     /\ path_items path = [Ellipse 0 0 0 0])
  /\ (exists path : PaintedPath (num := F),
        ShapeBuilder_ellipse (element "ellipse" [("rx", "auto"); ("ry", "auto")] [])
        = Ok path
        /\ path_items path = [])
  /\ (exists path : PaintedPath (num := F),
        ShapeBuilder_ellipse (element "ellipse" [("rx", "auto"); ("ry", "5")] [])
        = Ok path
        /\ path_items path = [Ellipse 0 0 5 5])
  /\ (exists path : PaintedPath (num := F),
        ShapeBuilder_ellipse (element "ellipse" [("rx", "3")] []) = Ok path
        /\ path_items path = [Ellipse 0 0 3 3]).
Proof.
  repeat split; eexists; split; reflexivity.
Qed.

(** C8, witness: the lengths [5em] and [5zz]. *)
Lemma relative_unit_error_is_distinct_witness :
  resolve_length (num := F) "5em" "pt"
  = Raise (ValueError ("5em" +:+ " uses unsupported relative length " +:+ "em"))
  /\ resolve_length (num := F) "5zz" "pt"
     = Raise (ValueError ("5zz" +:+ " contains unrecognized unit " +:+ "zz"))
  /\ resolve_length (num := F) "5em" "pt" <> resolve_length (num := F) "5zz" "pt".
Proof.
  apply (relative_unit_error_is_distinct (num := F) "5em" "pt" "5" "em" "5zz" "pt" "5" "zz").
  - reflexivity.
  - reflexivity.
  - exists 5. reflexivity.
  - exists 5. reflexivity.
  - reflexivity.
  - reflexivity.
  - reflexivity.
  - reflexivity.
Defined.

(** A text whose number [float] rejects is no length: the error of [float]
    is raised before any unit is looked up. *)
Example malformed_number_raises_first :
  unit_splitter_match "1.2.3em" = Some ("1.2.3", "em")
  /\ resolve_length (num := F) "1.2.3em" "pt"
     = Raise (ValueError "could not convert string to float: '1.2.3'").
Proof. split; reflexivity. Qed.

(** C9, witness: the document with [viewBox="0 0 0 10"] scaled into a
    rectangle of 200 by 100. *)
Lemma zero_area_viewbox_short_circuits_witness :
  exists o : SVGObject (num := F),
    SVGObject_init doc_zero_viewbox = Ok o
    /\ viewbox o = Some (0, 0, 0, 10)
    /\ transform_to_rect_viewport o 1 200 100 true false
       = Ok (zero, zero, GraphicsContext_new).
Proof.
  eexists. split; [reflexivity|]. split; [reflexivity|].
  apply (zero_area_viewbox_short_circuits (num := F) _ 1 200 100 true false 0 0 0 10);
    reflexivity.
Defined.

(** C9, counterexample: the document with [width="50%"] and
    [viewBox="0 0 0 10"], scaled with no viewport width: the percentage
    cannot be resolved and the operation raises before it reads the
    viewBox. *)
Lemma percentage_width_raises_before_viewbox :
  exists o : SVGObject (num := F),
    SVGObject_init doc_percent_zero_viewbox = Ok o
    /\ viewbox o = Some (0, 0, 0, 10)
    /\ width o = Some (Percent 50)
    /\ transform_to_rect_viewport o 1 0 100 true false
       = Raise (ValueError
           ("SVG " +:+ dquote +:+ "width" +:+ dquote
              +:+ " is a percentage, hence a viewport width is required")).
Proof.
  eexists. repeat split; reflexivity.
Qed.

(** C10, witness: a rectangle with [fill="red"] and [style="fill: blue"]. *)
Lemma inline_style_overrides_attribute_witness :
  exists item : Drawable (num := F),
    built rect_fill_style item
    /\ parse_style (attrib rect_fill_style) !! "fill" = Some "blue"
    /\ parse_style (attrib rect_fill_style)
       = parse_style (<["fill" := "blue"]> (attrib rect_fill_style))
    /\ (forall st tr,
          apply_styles (num := F) st tr (attrib rect_fill_style)
          = apply_styles st tr (<["fill" := "blue"]> (attrib rect_fill_style)))
    /\ ((lookup_get (tag rect_fill_style) shape_tags = Some "rect"
         /\ item = DPath PaintedPath_new)
        \/ (parse_style (attrib rect_fill_style) !! "opacity" = None
            \/ ("fill_color" <> "fill_opacity" /\ "fill_color" <> "stroke_opacity") ->
            style_of item !! "fill_color" = Some (VColor "#0000ff"))).
Proof.
  eexists. split.
  - right. right. left. eexists _, _. repeat split; reflexivity.
  - eapply (inline_style_overrides_attribute (num := F) rect_fill_style _
              "fill: blue" "fill" "red" "blue").
    + reflexivity.
    + reflexivity.
    + reflexivity.
    + left. reflexivity.
    + reflexivity.
    + right. right. left. eexists _, _. repeat split; reflexivity.
Defined.

(** The rectangle as the walker draws it: the path appended to the group
    is filled with the blue of the style. *)
Example inline_style_fill_is_applied :
  exists (g' : GraphicsContext (num := F)) x' p,
    build_child rect_fill_style GraphicsContext_new ∅ = Ok (g', x')
    /\ gc_items g' = [DPath p]
    /\ path_style p
       = <["fill_color" := VColor "#0000ff"]> (<["auto_close" := VBool false]> ∅).
Proof. eexists _, _, _. repeat split; reflexivity. Qed.

(** C10, counterexample: the root element of a document and a rectangle
    without width carry [fill="red"] and [style="fill: blue"]; the base
    group of the document and the path of the rectangle have no fill: the
    style is not unpacked and no property is mapped.  Where the styles are
    applied, the fill opacity of the style gives way to the generic
    opacity, which is written last; a property that [svg_attr_map] does
    not map reaches the style record from neither the attribute nor the
    style; and a piece of the style with two colons is passed over, so
    that the fill of the attribute is applied. *)
Lemma unstyled_element_ignores_the_style :
  (exists o : SVGObject (num := F),
     SVGObject_init doc_root_fill_style = Ok o
     /\ attrib doc_root_fill_style !! "fill" = Some "red"
     /\ (exists style, attrib doc_root_fill_style !! "style" = Some style
                       /\ style_declares style "fill" = Some "blue")
     /\ gc_style (base_group o) = base_style
     /\ gc_style (base_group o) !! "fill_color" = None)
  /\ (exists (g' : GraphicsContext (num := F)) x' p,
        build_child rect_zero_fill_style GraphicsContext_new ∅ = Ok (g', x')
        /\ attrib rect_zero_fill_style !! "fill" = Some "red"
        /\ (exists style, attrib rect_zero_fill_style !! "style" = Some style
                          /\ style_declares style "fill" = Some "blue")
        /\ gc_items g' = [DPath p]
        /\ path_style p !! "fill_color" = None)
  /\ (exists (g' : GraphicsContext (num := F)) x' p,
        build_child rect_opacities GraphicsContext_new ∅ = Ok (g', x')
        /\ attrib rect_opacities !! "fill-opacity" = Some "0.25"
        /\ (exists style, attrib rect_opacities !! "style" = Some style
                          /\ style_declares style "fill-opacity" = Some "0.5")
        /\ gc_items g' = [DPath p]
        /\ path_style p !! "fill_opacity" = Some (VNum 0.75))
  /\ (exists (g' : GraphicsContext (num := F)) x' p,
        build_child rect_visibility GraphicsContext_new ∅ = Ok (g', x')
        /\ attrib rect_visibility !! "visibility" = Some "hidden"
        /\ (exists style, attrib rect_visibility !! "style" = Some style
                          /\ style_declares style "visibility" = Some "visible")
        /\ gc_items g' = [DPath p]
        /\ path_style p = <["auto_close" := VBool false]> ∅)
  /\ (exists (g' : GraphicsContext (num := F)) x' p,
        build_child rect_fill_url GraphicsContext_new ∅ = Ok (g', x')
        /\ attrib rect_fill_url !! "fill" = Some "red"
        /\ attrib rect_fill_url !! "style" = Some "fill: url(http://example.com/#blue)"
        /\ parse_style (attrib rect_fill_url) !! "fill" = Some "red"
        /\ gc_items g' = [DPath p]
        /\ path_style p !! "fill_color" = Some (VColor "#ff0000")).
Proof.
  split; [|split; [|split; [|split]]].
  - eexists. split; [reflexivity|]. split; [reflexivity|].
    split; [eexists; split; reflexivity|]. split; reflexivity.
  - eexists _, _, _. split; [reflexivity|]. split; [reflexivity|].
    split; [eexists; split; reflexivity|]. split; reflexivity.
  - eexists _, _, _. split; [reflexivity|]. split; [reflexivity|].
    split; [eexists; split; reflexivity|]. split; reflexivity.
  - eexists _, _, _. split; [reflexivity|]. split; [reflexivity|].
    split; [eexists; split; reflexivity|]. split; reflexivity.
  - eexists _, _, _. repeat split; reflexivity.
Qed.

(** *** The further properties on documents *)

(** X2, witness: a length followed by a semicolon and more text. *)
Lemma resolve_length_ignores_tail_witness :
  resolve_length (num := F) "10px; and more" "pt" = Ok 7.5.
Proof.
  apply (resolve_length_ignores_tail (num := F) "10px" ";" " and more" "pt" 7.5 eq_refl).
  reflexivity.
Defined.

(** X3, witness: the second argument of [translate(10, 5)]. *)
Lemma transform_arguments_carry_no_unit_witness :
  In ("translate", "10, 5") (TRANSFORM_GETTER_findall "translate(10, 5)")
  /\ In "5" (NUMBER_SPLIT_split "10, 5")
  /\ match unit_splitter_match "5" with
     | Some (_, unit) => unit = EmptyString
     | None => True
     end.
Proof.
  assert (H1 : In ("translate", "10, 5") (TRANSFORM_GETTER_findall "translate(10, 5)"))
    by (left; reflexivity).
  assert (H2 : In "5" (NUMBER_SPLIT_split "10, 5")) by (right; left; reflexivity).
  split; [exact H1|]. split; [exact H2|].
  exact (transform_arguments_carry_no_unit "translate(10, 5)" "translate" "10, 5" "5"
           H1 (or_intror H2)).
Defined.

(** X4, witness: the text [none]. *)
Lemma convert_transforms_without_function_witness :
  convert_transforms (num := F) "none" = Ok Transform_identity.
Proof. apply (convert_transforms_without_function (num := F) "none"). reflexivity. Defined.


(** X7, witness: an element with [opacity] and [fill-opacity]. *)
Lemma generic_opacity_sets_both_witness :
  exists st' tr' a',
    apply_styles (num := F) ∅ None opacity_and_fill_opacity = Ok (st', tr', a')
    /\ exists o,
        float_str "0.5" = Some o
        /\ st' !! "fill_opacity" = Some (VNum o)
        /\ st' !! "stroke_opacity" = Some (VNum o).
Proof.
  do 3 eexists. split; [reflexivity|].
  eapply (generic_opacity_sets_both (num := F) ∅ None opacity_and_fill_opacity "0.5");
    reflexivity.
Defined.

(** X8, witness: a fill in functional notation. *)
Lemma unsupported_fill_raises_witness :
  apply_styles (num := F) ∅ None fill_rgb
  = Raise (ValueError ("unsupported color specification " +:+ "rgb(255, 0, 0)")).
Proof.
  apply (unsupported_fill_raises (num := F) ∅ None fill_rgb "rgb(255, 0, 0)");
    try reflexivity; discriminate.
Defined.

(** X9, witness: a rectangle whose radius exceeds half of each side. *)
Lemma rect_postcondition_witness :
  exists path,
    ShapeBuilder_rect (num := F) rect_round = Ok path
    /\ path_items path = [Rectangle 0 0 10 4 5 2]
    /\ exists x y w h,
    float_get (attrib rect_round) "x" = Ok x
    /\ float_get (attrib rect_round) "y" = Ok y
    /\ float_get (attrib rect_round) "width" = Ok w
    /\ float_get (attrib rect_round) "height" = Ok h
    /\ fltb w zero = false /\ fltb h zero = false
    /\ ((feqb w zero || feqb h zero = true /\ path = PaintedPath_new)
        \/ (feqb w zero = false /\ feqb h zero = false
            /\ exists rx ry,
                 path_items path = [Rectangle x y w h rx ry]
                 /\ (rx = fdiv w (dec 2 0) \/ fltb (fdiv w (dec 2 0)) rx = false)
                 /\ (ry = fdiv h (dec 2 0) \/ fltb (fdiv h (dec 2 0)) ry = false))).
Proof.
  eexists. split; [reflexivity|]. split; [reflexivity|].
  apply (rect_postcondition (num := F) rect_round). reflexivity.
Defined.

(** X10, witness: the triangle, with the parser that knows it. *)
Lemma svg_path_converter_operations_witness :
  exists path',
    @svg_path_converter F binary64 with_svg_path PaintedPath_new triangle_path
    = Ok path'
    /\ exists parse cmds ops,
    @parse_path F with_svg_path = Some parse
    /\ parse (strip triangle_path) = Ok cmds
    /\ mapM (fun cp => svg_path_command (fst cp) (snd cp)) (with_positions cmds) = Ok ops
    /\ length ops = length cmds
    /\ path' = fold_left add_path_element ops PaintedPath_new.
Proof.
  eexists. split; [reflexivity|].
  apply (@svg_path_converter_operations F binary64 with_svg_path
           PaintedPath_new triangle_path).
  reflexivity.
Defined.

(** The operations performed for the triangle. *)
Example triangle_operations :
  mapM (fun cp => svg_path_command (fst cp) (snd cp)) (with_positions triangle_cmds)
  = Ok [Move (pt 0 0); Line (pt 10 0); Line (pt 5 8); Close].
Proof. reflexivity. Qed.

(** X11, witness: a path whose data are two blanks, with [svg.path]. *)
Lemma build_path_blank_data_witness :
  @build_path F binary64 with_svg_path path_blank ∅
  = Raise (IndexError "string index out of range").
Proof.
  apply (@build_path_blank_data F binary64 with_svg_path path_blank ∅ "  ");
    reflexivity.
Defined.

(** The same path without [svg.path]. *)
Example build_path_without_svg_path :
  build_path (num := F) path_blank ∅
  = Raise (EnvironmentError "svg?path not available - fpdf2 cannot insert SVG images").
Proof. reflexivity. Qed.

(** X12, witness: a polyline of two points, with [svg.path]. *)
Lemma polyline_starts_with_moveto_witness :
  @ShapeBuilder_polyline F binary64 with_svg_path polyline_two =
  (points ← getitem (attrib polyline_two) "points";
   path ← @new_path F binary64 with_svg_path polyline_two;
   cmds ← parse_known_path (strip ("M" +:+ points));
   @svg_path_loop F binary64 with_svg_path cmds (mkPoint zero zero) path).
Proof.
  exact (proj1 (proj1 (@polyline_starts_with_moveto F binary64 with_svg_path
                         polyline_two) parse_known_path eq_refl)).
Defined.

(** The polyline, converted: a moveto and a line. *)
Example polyline_two_is_converted :
  path_items <$> @ShapeBuilder_polyline F binary64 with_svg_path polyline_two
  = Ok [Move (pt 0 0); Line (pt 10 5)].
Proof. reflexivity. Qed.

(** X13, witness: a document of definitions, a reference and a text. *)
Lemma group_holds_its_drawn_children_witness :
  exists g x',
    build_group (num := F) doc_defs None ∅ = Ok (g, x')
    /\ length (gc_items g) = 1%nat
    /\ exists g0 a0,
         group_start doc_defs None = Ok (g0, a0)
         /\ gc_style g = gc_style g0
         /\ gc_transform g = gc_transform g0
         /\ exists new,
              gc_items g = gc_items g0 ++ new
              /\ length new = length (List.filter walker_draws (children doc_defs)).
Proof.
  do 2 eexists. split; [reflexivity|]. split; [reflexivity|].
  eapply (group_holds_its_drawn_children (num := F) doc_defs None ∅). reflexivity.
Defined.

(** X14, witness: a text element that holds a dangling reference. *)
Lemma unread_element_is_passed_over_witness :
  build_child (num := F) text_unread GraphicsContext_new ∅ = Ok (GraphicsContext_new, ∅).
Proof.
  apply (unread_element_is_passed_over (num := F) text_unread). reflexivity.
Defined.

(** X15, witness: definitions that hold a group, a rectangle and a dangling reference. *)
Lemma defs_only_register_witness :
  build_child (num := F) defs_mixed GraphicsContext_new ∅
  = (x1 ← handle_defs (element "defs" [] [group_a]) ∅; Ok (GraphicsContext_new, x1)).
Proof.
  exact (defs_only_register (num := F) defs_mixed GraphicsContext_new ∅ eq_refl).
Defined.

(** X16, witness: a reference to [#a] with [#a] in the table. *)
Lemma use_wraps_the_registered_item_witness :
  exists g' x',
    build_child (num := F) use_a GraphicsContext_new table_a = Ok (g', x')
    /\ x' = table_a
    /\ exists ref item wrapper,
         reference_of use_a = Some ref
         /\ table_a !! ref = Some item
         /\ gc_items g' = gc_items GraphicsContext_new ++ [DGroup wrapper]
         /\ gc_items wrapper = [item].
Proof.
  do 2 eexists. split; [reflexivity|].
  apply (use_wraps_the_registered_item (num := F) use_a GraphicsContext_new table_a);
    reflexivity.
Defined.

(** X17, witness: a circle whose radius is given in its style alone. *)
Lemma shape_requires_attributes_witness :
  exists e, build_child (num := F) circle_no_r GraphicsContext_new ∅ = Raise e.
Proof.
  apply (shape_requires_attributes (num := F) circle_no_r GraphicsContext_new ∅
           "circle" "r"); [reflexivity | now left | reflexivity].
Defined.

(** X18, witness: the walk of a document whose definitions hold the group [a]. *)
Lemma walk_only_registers_witness :
  exists g x',
    build_group (num := F) doc_defs (Some GraphicsContext_new) ∅ = Ok (g, x')
    /\ is_Some (x' !! "#a")
    /\ extends_with_ids (∅ : gmap string Drawable) x'.
Proof.
  do 2 eexists. split; [reflexivity|]. split; [eexists; reflexivity|].
  eapply (proj1 (walk_only_registers (num := F) doc_defs) (Some GraphicsContext_new) ∅).
  reflexivity.
Defined.

(** X19, witness: a root element with a fill no converter accepts and a transform. *)
Lemma root_attributes_are_not_read_witness :
  convert_graphics (num := F) doc_root_styled ∅ = convert_graphics (num := F) doc_rect ∅.
Proof.
  exact (root_attributes_are_not_read (num := F) "svg" "svg" _ _ [rect_r] ∅ eq_refl).
Defined.

(** X20, witness: a document with a size and a viewBox. *)
Lemma converted_document_invariants_witness :
  exists o : SVGObject (num := F),
    SVGObject_init doc_sized = Ok o
    /\ tag_in doc_sized "svg" = true
    /\ match viewbox o with
       | Some (_, _, vw, vh) => fltb vw zero = false /\ fltb vh zero = false
       | None => True
       end
    /\ gc_style (base_group o) = base_style
    /\ gc_transform (base_group o) = None
    /\ length (gc_items (base_group o))
       = length (List.filter walker_draws (children doc_sized)).
Proof.
  eexists. split; [reflexivity|].
  apply (converted_document_invariants (num := F) doc_sized). reflexivity.
Defined.

(** X21, witness: a viewBox text that starts with a blank. *)
Lemma viewbox_leading_separator_raises_witness :
  extract_shape_info (num := F) doc_blank_viewbox
  = Raise (ValueError ("could not convert string to float: " +:+ repr_str EmptyString)).
Proof.
  apply (viewbox_leading_separator_raises (num := F) doc_blank_viewbox " " "0 0 10 10");
    reflexivity.
Defined.

(** X22, witness: a document of 20 by 50% on a viewport of 100 by 80 at scale 2. *)
Lemma viewport_keeps_the_drawing_witness :
  exists (o : SVGObject (num := F)) w h g,
    SVGObject_init doc_sized = Ok o
    /\ transform_to_rect_viewport o 2 100 80 true false = Ok (w, h, g)
    /\ w = 10 /\ h = 20
    /\ ((w = zero /\ h = zero /\ g = GraphicsContext_new)
        \/ (gc_items g = gc_items (base_group o)
            /\ gc_style g = gc_style (base_group o)
            /\ is_Some (gc_transform g)
            /\ feqb 2 zero = false
            /\ exists vp_width vp_height,
                 viewport_dimension false (width o) 100 "width" = Ok vp_width
                 /\ viewport_dimension false (height o) 80 "height" = Ok vp_height
                 /\ w = fdiv vp_width 2 /\ h = fdiv vp_height 2)).
Proof.
  do 4 eexists. split; [reflexivity|]. split; [reflexivity|].
  split; [reflexivity|]. split; [reflexivity|].
  eapply (viewport_keeps_the_drawing (num := F) _ 2 100 80 true false). reflexivity.
Defined.

(** X23, witness: a document with and without its size attributes. *)
Lemma ignored_top_attributes_are_not_read_witness :
  exists o1 o2 : SVGObject (num := F),
    SVGObject_init doc_sized = Ok o1
    /\ SVGObject_init (element "svg" [("viewBox", "0 0 10 4")] [rect_r]) = Ok o2
    /\ width o1 <> width o2
    /\ transform_to_rect_viewport o1 1 100 80 true true
       = transform_to_rect_viewport o2 1 100 80 true true.
Proof.
  do 2 eexists. split; [reflexivity|]. split; [reflexivity|]. split; [discriminate|].
  apply (ignored_top_attributes_are_not_read (num := F)); reflexivity.
Defined.

End Documents.
